(** * Error-protection core of shadcn/ui: classification, logging, dispatch
      and the resilient request engine

    A shallow embedding of
      - [exception-types.ts]        (enum [ExceptionType]),
      - [exception-logger.ts]       (class [ExceptionLogger]),
      - [exception-registry.ts]     (class [ExceptionRegistry]),
      - [exception-interceptor.ts]  (class [ExceptionInterceptor]),
      - [safe-fetch.ts]             (class [SafeFetch]),
      - the error boundary and the error center components, and the DOM
        node check of [memory-guard.ts],
    followed by the properties the specification states about them.

    Conventions.  A JavaScript [number] that the code only uses as an
    integer is a [Z]; [undefined] is [None]; a [Map] is a [gmap]; static
    class fields live in an explicit [World] that every operation threads;
    a thrown value is the [Throw] outcome of the monad [M]. *)

From Stdlib Require Import ZArith Lia.
From stdpp Require Import gmap strings list pretty.

Set Warnings "-register-all".
Local Open Scope Z_scope.

(* ===================================================================== *)
(** ** JavaScript values *)
(* ===================================================================== *)

Module JS.

(** [String.prototype.startsWith] and [String.prototype.includes]
    (case sensitive, as in ECMAScript). *)
Fixpoint starts_with (p s : string) : bool :=
  match p, s with
  | EmptyString, _ => true
  | String a p', String b s' => if Ascii.eqb a b then starts_with p' s' else false
  | String _ _, EmptyString => false
  end.

Fixpoint includes (s sub : string) : bool :=
  starts_with sub s
  || match s with
     | EmptyString => false
     | String _ s' => includes s' sub
     end.

(** The mathematical reading of "[s] contains [sub]". *)
Definition contains (s sub : string) : Prop :=
  exists pre post : string, s = pre +:+ sub +:+ post.

(** Function objects are compared by reference; a reference is a number. *)
Inductive Function := FnRef (id : positive).

Definition Error_ctor          := FnRef 1.
Definition TypeError_ctor      := FnRef 2.
Definition RangeError_ctor     := FnRef 3.
Definition SyntaxError_ctor    := FnRef 4.
Definition ReferenceError_ctor := FnRef 5.
Definition DOMException_ctor   := FnRef 6.
Definition Symbol_ctor         := FnRef 7.

(** An [Error] object: the three properties the code reads. *)
Record Error := mkError {
  constructor : Function;
  name : string;
  message : string
}.

(** [new Error(msg)], [new TypeError(msg)], ... *)
Definition new_Error (msg : string) : Error := mkError Error_ctor "Error" msg.
Definition new_TypeError (msg : string) : Error := mkError TypeError_ctor "TypeError" msg.
Definition new_SyntaxError (msg : string) : Error := mkError SyntaxError_ctor "SyntaxError" msg.

(** What a [catch] clause can receive ([any]): [undefined], [null], an
    [Error] instance, a symbol, or some other value that has a string
    form, of which the code only ever uses the constructor and the string
    form.  Values whose conversion to a string throws other than symbols
    (an object without [toString], say) are not among them. *)
Inductive Value :=
| VUndefined
| VNull
| VError (e : Error)
| VSymbol (description : string)
| VOther (c : Function) (str : string).

(** [Error.prototype.toString]. *)
Definition Error_toString (e : Error) : string :=
  if String.eqb (name e) "" then message e
  else if String.eqb (message e) "" then name e
  else name e +:+ ": " +:+ message e.

(** [String(v)]; of a symbol it is the symbol's descriptive string. *)
Definition String_of (v : Value) : string :=
  match v with
  | VUndefined => "undefined"
  | VNull => "null"
  | VError e => Error_toString e
  | VSymbol d => "Symbol(" +:+ d +:+ ")"
  | VOther _ s => s
  end.

(** The conversion a template literal [`${v}`] applies: it throws a
    [TypeError] for a symbol, and is [String(v)] otherwise. *)
Definition ToString (v : Value) : Error + string :=
  match v with
  | VSymbol _ => inl (new_TypeError "Cannot convert a Symbol value to a string")
  | v => inr (String_of v)
  end.

(** A JavaScript value as the content of a variable or field that may be
    [undefined]: the value [undefined] is the absent content. *)
Definition defined (v : Value) : option Value :=
  match v with
  | VUndefined => None
  | v => Some v
  end.

(** JSON documents, as [Response.json] and [JSON.parse] produce them. *)
Inductive json :=
| JNull
| JBool (b : bool)
| JNum (n : Z)
| JStr (s : string)
| JArr (l : list json)
| JObj (fields : list (string * json)).

(** Truthiness of a JSON value in a condition. *)
Definition truthy (j : json) : bool :=
  match j with
  | JNull => false
  | JBool b => b
  | JNum n => negb (n =? 0)
  | JStr s => negb (String.eqb s "")
  | JArr _ | JObj _ => true
  end.

(** Property read of an own property of an object (a parsed document has
    each key once). *)
Fixpoint assoc (k : string) (l : list (string * json)) : option json :=
  match l with
  | [] => None
  | (k', v) :: l' => if String.eqb k k' then Some v else assoc k l'
  end.

(** [j.key] for a JSON value that is neither null nor undefined: numbers,
    booleans, strings and arrays have no such own property. *)
Definition get (j : json) (key : string) : option json :=
  match j with
  | JObj fields => assoc key fields
  | _ => None
  end.

(** Truthiness of an optional value: [undefined] is falsy. *)
Definition truthy_opt (o : option json) : bool :=
  match o with
  | Some j => truthy j
  | None => false
  end.

End JS.

Import JS.

(* ===================================================================== *)
(** ** exception-types.ts *)
(* ===================================================================== *)

Inductive ExceptionType :=
| NULL_POINTER
| TYPE_ERROR
| RANGE_ERROR
| SYNTAX_ERROR
| REFERENCE_ERROR
| NETWORK_ERROR
| DATA_ERROR
| RESOURCE_ERROR
| GENERAL_ERROR.

(** The string each member stands for. *)
Definition ExceptionType_value (t : ExceptionType) : string :=
  match t with
  | NULL_POINTER => "NullPointerException"
  | TYPE_ERROR => "TypeError"
  | RANGE_ERROR => "RangeError"
  | SYNTAX_ERROR => "SyntaxError"
  | REFERENCE_ERROR => "ReferenceError"
  | NETWORK_ERROR => "NetworkError"
  | DATA_ERROR => "DataError"
  | RESOURCE_ERROR => "ResourceError"
  | GENERAL_ERROR => "GeneralError"
  end.

(* ===================================================================== *)
(** ** The two classifiers *)
(* ===================================================================== *)

Module Classifier.

(** [ExceptionLogger.determineExceptionType]. *)
Definition determineExceptionType (error : Error) : ExceptionType :=
  if String.eqb (name error) "TypeError" then
    if includes (message error) "null" || includes (message error) "undefined"
    then NULL_POINTER
    else if includes (message error) "is not a function" then TYPE_ERROR
    else GENERAL_ERROR
  else if String.eqb (name error) "RangeError" then RANGE_ERROR
  else if String.eqb (name error) "SyntaxError" then SYNTAX_ERROR
  else if String.eqb (name error) "ReferenceError" then REFERENCE_ERROR
  else if String.eqb (name error) "AbortError" then NETWORK_ERROR
  else if includes (message error) "fetch" || includes (message error) "network"
          || includes (message error) "timeout" then NETWORK_ERROR
  else if includes (message error) "JSON" then DATA_ERROR
  else GENERAL_ERROR.

(** [ExceptionRegistry.mapErrorToExceptionType]. *)
Definition mapErrorToExceptionType (error : Error) : ExceptionType :=
  if String.eqb (name error) "TypeError" then
    if includes (message error) "null" || includes (message error) "undefined"
    then NULL_POINTER
    else if includes (message error) "is not a function" then TYPE_ERROR
    else GENERAL_ERROR
  else if String.eqb (name error) "RangeError" then RANGE_ERROR
  else if String.eqb (name error) "SyntaxError" then SYNTAX_ERROR
  else if String.eqb (name error) "ReferenceError" then REFERENCE_ERROR
  else if String.eqb (name error) "AbortError" then NETWORK_ERROR
  else if includes (message error) "fetch" || includes (message error) "network"
          || includes (message error) "timeout" then NETWORK_ERROR
  else if includes (message error) "JSON" then DATA_ERROR
  else if includes (message error) "memory" || includes (message error) "DOM"
  then RESOURCE_ERROR
  else GENERAL_ERROR.

(** The specification's ordered rules 1 to 8 (section 4.1), written after
    its words: the first rule that matches decides, [None] when none of
    the eight does. *)
Definition spec_rules_1_8 (e : Error) : option ExceptionType :=
  if String.eqb (name e) "TypeError"
     && (includes (message e) "null" || includes (message e) "undefined")
  then Some NULL_POINTER
  else if String.eqb (name e) "TypeError" && includes (message e) "is not a function"
  then Some TYPE_ERROR
  else if String.eqb (name e) "RangeError" then Some RANGE_ERROR
  else if String.eqb (name e) "SyntaxError" then Some SYNTAX_ERROR
  else if String.eqb (name e) "ReferenceError" then Some REFERENCE_ERROR
  else if String.eqb (name e) "AbortError" then Some NETWORK_ERROR
  else if includes (message e) "fetch" || includes (message e) "network"
          || includes (message e) "timeout" then Some NETWORK_ERROR
  else if includes (message e) "JSON" then Some DATA_ERROR
  else None.

(** Rule 9's trigger. *)
Definition spec_rule_9 (e : Error) : bool :=
  includes (message e) "memory" || includes (message e) "DOM".

End Classifier.

(* ===================================================================== *)
(** ** Data of the request engine and of the log *)
(* ===================================================================== *)

Definition Headers := list (string * string).

(** What one call of the global [fetch] is given, as far as the engine
    varies it: the URL and the request body. *)
Record Request := mkRequest {
  req_url : string;
  req_body : option string
}.

(** A [Response]: status, headers, and what [response.json()] settles to
    (rejected with a value, or fulfilled with a document). *)
Module Response.
Record t := mk {
  status : Z;
  headers : Headers;
  json : Value + JS.json
}.
(** [response.ok]: the status is in the range 200-299. *)
Definition ok (r : t) : bool := (200 <=? status r) && (status r <=? 299).
End Response.

(** The promise [fetch(...)] returns: rejected (network failure, abort on
    timeout) or fulfilled with a response. *)
Inductive FetchOutcome :=
| Rejected (reason : Value)
| Responded (r : Response.t).

Inductive ConflictResolution := server_wins | client_wins | timestamp.

(** [SafeFetchOptions]; every field is optional. *)
Record SafeFetchOptions := mkOptions {
  retryCount : option Z;
  retryDelay : option Z;
  timeout : option Z;
  fallbackData : option json;
  fallbackUrl : option string;
  conflictResolution : option ConflictResolution;
  body : option string
}.

Definition no_options : SafeFetchOptions :=
  mkOptions None None None None None None None.

(** [{ ...a, ...b }]: a field of [b] that is present overrides [a]'s.  An
    options object is read as the fields it defines: one that holds a field
    with the value [undefined] is not told apart from one without it. *)
Definition override {A} (a b : option A) : option A :=
  match b with
  | Some x => Some x
  | None => a
  end.

Definition spread (a b : SafeFetchOptions) : SafeFetchOptions :=
  {| retryCount := override (retryCount a) (retryCount b);
     retryDelay := override (retryDelay a) (retryDelay b);
     timeout := override (timeout a) (timeout b);
     fallbackData := override (fallbackData a) (fallbackData b);
     fallbackUrl := override (fallbackUrl a) (fallbackUrl b);
     conflictResolution := override (conflictResolution a) (conflictResolution b);
     body := override (body a) (body b) |}.

(** [SafeFetchResponse]. *)
Module SafeFetchResponse.
Record t := mk {
  data : option json;
  error : option Value;
  status : option Z;
  headers : option Headers
}.
End SafeFetchResponse.

(** The [extraInfo] objects the code builds and hands to the log. *)
Inductive Info :=
| InfoNone
| InfoFetch (url : string) (attempt : Z) (options : SafeFetchOptions)
| InfoUrlOptions (url : string) (options : SafeFetchOptions)
| InfoHandlerFailure (originalError : Value) (originalContext : string)
                     (originalExtraInfo : Info)
| InfoOther (payload : json).

Record EnvironmentInfo := mkEnvironmentInfo {
  browser : string;
  browserVersion : string;
  os : string;
  osVersion : string;
  device : string;
  networkType : option string;
  userAgent : string
}.

(** What the static field [environmentInfo] holds once it is set, and a
    record's [environment]: the empty object [{}], or a snapshot. *)
Inductive Environment :=
| EnvEmpty
| EnvSnapshot (e : EnvironmentInfo).

(** [LogEntry]; [context] is [{ ...extraInfo, component: context }]. *)
Module LogEntry.
Record t := mk {
  id : string;
  timestamp : Z;
  error : Error;
  type : ExceptionType;
  context : Info * string;
  environment : Environment
}.
End LogEntry.

Inductive LogLevel := level_none | level_error | level_warn | level_info | level_debug.

(* ===================================================================== *)
(** ** The handler registry's data *)
(* ===================================================================== *)

(** A registry key: [Function | ExceptionType]. *)
Inductive Key :=
| KFunction (f : Function)
| KType (t : ExceptionType).

#[global] Instance Function_eq_dec : EqDecision Function.
Proof. solve_decision. Defined.

#[global] Instance Function_countable : Countable Function :=
  inj_countable' (fun f => match f with FnRef p => p end) FnRef
                 (fun f => match f with FnRef p => eq_refl end).

#[global] Instance ExceptionType_eq_dec : EqDecision ExceptionType.
Proof. solve_decision. Defined.

Definition ExceptionType_index (t : ExceptionType) : nat :=
  match t with
  | NULL_POINTER => 0 | TYPE_ERROR => 1 | RANGE_ERROR => 2
  | SYNTAX_ERROR => 3 | REFERENCE_ERROR => 4 | NETWORK_ERROR => 5
  | DATA_ERROR => 6 | RESOURCE_ERROR => 7 | GENERAL_ERROR => 8
  end%nat.

Definition ExceptionType_of_index (n : nat) : ExceptionType :=
  match n with
  | 0 => NULL_POINTER | 1 => TYPE_ERROR | 2 => RANGE_ERROR
  | 3 => SYNTAX_ERROR | 4 => REFERENCE_ERROR | 5 => NETWORK_ERROR
  | 6 => DATA_ERROR | 7 => RESOURCE_ERROR | _ => GENERAL_ERROR
  end%nat.

#[global] Instance ExceptionType_countable : Countable ExceptionType :=
  inj_countable' ExceptionType_index ExceptionType_of_index
                 (fun t => match t with
                           | NULL_POINTER | TYPE_ERROR | RANGE_ERROR | SYNTAX_ERROR
                           | REFERENCE_ERROR | NETWORK_ERROR | DATA_ERROR
                           | RESOURCE_ERROR | GENERAL_ERROR => eq_refl
                           end).

#[global] Instance Key_eq_dec : EqDecision Key.
Proof. solve_decision. Defined.

#[global] Instance Key_countable : Countable Key :=
  inj_countable'
    (fun k => match k with KFunction f => inl f | KType t => inr t end)
    (fun s => match s with inl f => KFunction f | inr t => KType t end)
    (fun k => match k with KFunction _ | KType _ => eq_refl end).

(** A handler is a function object: its identity, and what a call does
    with [(error, context, extraInfo)], namely return ([None]) or throw a
    value.  A handler's own effects on the registry and on the log are not
    part of the model. *)
Record ExceptionHandler := mkHandler {
  handler_ref : Function;
  handler_call : Value -> string -> Info -> option Value
}.

Record ExceptionHandlerEntry := mkEntry {
  handler : ExceptionHandler;
  severity : string
}.

(** One call of a handler, as observed from outside. *)
Record Invocation := mkInvocation {
  inv_handler : Function;
  inv_error : Value;
  inv_context : string;
  inv_extraInfo : Info
}.

(** What the engine does on the network and on the timer, in order. *)
Inductive NetEvent :=
| Call (rq : Request)
| Delay (ms : option Z).

(* ===================================================================== *)
(** ** The platform and the program state *)
(* ===================================================================== *)

(** What the host environment supplies.  The [n]-th call of the global
    [fetch] settles as [global_fetch n rq] (this covers transports whose
    behaviour changes from call to call, and the abort a timeout causes);
    [crypto_randomUUID n] and [Date_now n] are the values of the [n]-th log
    write; [navigator_environment] is the snapshot
    [initializeEnvironmentInfo] derives from [navigator]; [JSON_parse]
    throws ([inl]) or returns a document; [Date_valueOf v] is
    [new Date(v).valueOf()], [None] for an invalid date; [has_window]
    tells whether [window] is defined.  The platform is taken to be
    complete ([crypto], [Date], the configuration, and [navigator] where
    [window] is defined), so that a log write does not throw by the
    platform's doing. *)
Class Platform := {
  global_fetch : nat -> Request -> FetchOutcome;
  crypto_randomUUID : nat -> string;
  Date_now : nat -> Z;
  navigator_environment : EnvironmentInfo;
  has_window : bool;
  JSON_parse : string -> Error + json;
  JSON_stringify : json -> string;
  Date_valueOf : json -> option Z
}.

(** The static fields of the classes, and what the program has done so
    far that can be observed from outside (lists are oldest first). *)
Record World := mkWorld {
  logEntries : list LogEntry.t;            (* ExceptionLogger.logEntries *)
  maxLogEntries : nat;                     (* ExceptionLogger.maxLogEntries *)
  environmentInfo : option Environment;    (* ExceptionLogger.environmentInfo *)
  handlers : gmap Key ExceptionHandlerEntry; (* ExceptionRegistry.handlers *)
  defaultOptions : SafeFetchOptions;       (* SafeFetch.defaultOptions *)
  logLevel : LogLevel;                     (* ErrorProtectionConfig ... logLevel *)
  written : nat;                           (* log writes so far *)
  fetched : nat;                           (* calls of the global fetch so far *)
  network : list NetEvent;
  console : list LogEntry.t;               (* consoleLog outputs *)
  dispatched : list LogEntry.t;            (* 'exception-logged' events *)
  invoked : list Invocation                (* handler calls *)
}.

(** The state of a freshly loaded program. *)
Definition initial_world : World :=
  {| logEntries := [];
     maxLogEntries := 1000;
     environmentInfo := None;
     handlers := ∅;
     defaultOptions :=
       {| retryCount := Some 3; retryDelay := Some 1000; timeout := Some 10000;
          fallbackData := None; fallbackUrl := None;
          conflictResolution := Some timestamp; body := None |};
     logLevel := level_debug;
     written := 0;
     fetched := 0;
     network := [];
     console := [];
     dispatched := [];
     invoked := [] |}.

Definition set_logEntries (l : list LogEntry.t) (w : World) : World :=
  mkWorld l (maxLogEntries w) (environmentInfo w) (handlers w) (defaultOptions w)
          (logLevel w) (written w) (fetched w) (network w) (console w)
          (dispatched w) (invoked w).

Definition set_environmentInfo (e : option Environment) (w : World) : World :=
  mkWorld (logEntries w) (maxLogEntries w) e (handlers w) (defaultOptions w)
          (logLevel w) (written w) (fetched w) (network w) (console w)
          (dispatched w) (invoked w).

Definition set_handlers (h : gmap Key ExceptionHandlerEntry) (w : World) : World :=
  mkWorld (logEntries w) (maxLogEntries w) (environmentInfo w) h (defaultOptions w)
          (logLevel w) (written w) (fetched w) (network w) (console w)
          (dispatched w) (invoked w).

Definition set_defaultOptions (o : SafeFetchOptions) (w : World) : World :=
  mkWorld (logEntries w) (maxLogEntries w) (environmentInfo w) (handlers w) o
          (logLevel w) (written w) (fetched w) (network w) (console w)
          (dispatched w) (invoked w).

Definition set_written (n : nat) (w : World) : World :=
  mkWorld (logEntries w) (maxLogEntries w) (environmentInfo w) (handlers w)
          (defaultOptions w) (logLevel w) n (fetched w) (network w) (console w)
          (dispatched w) (invoked w).

Definition set_fetched (n : nat) (w : World) : World :=
  mkWorld (logEntries w) (maxLogEntries w) (environmentInfo w) (handlers w)
          (defaultOptions w) (logLevel w) (written w) n (network w) (console w)
          (dispatched w) (invoked w).

Definition set_network (l : list NetEvent) (w : World) : World :=
  mkWorld (logEntries w) (maxLogEntries w) (environmentInfo w) (handlers w)
          (defaultOptions w) (logLevel w) (written w) (fetched w) l (console w)
          (dispatched w) (invoked w).

Definition set_console (l : list LogEntry.t) (w : World) : World :=
  mkWorld (logEntries w) (maxLogEntries w) (environmentInfo w) (handlers w)
          (defaultOptions w) (logLevel w) (written w) (fetched w) (network w) l
          (dispatched w) (invoked w).

Definition set_dispatched (l : list LogEntry.t) (w : World) : World :=
  mkWorld (logEntries w) (maxLogEntries w) (environmentInfo w) (handlers w)
          (defaultOptions w) (logLevel w) (written w) (fetched w) (network w)
          (console w) l (invoked w).

Definition set_invoked (l : list Invocation) (w : World) : World :=
  mkWorld (logEntries w) (maxLogEntries w) (environmentInfo w) (handlers w)
          (defaultOptions w) (logLevel w) (written w) (fetched w) (network w)
          (console w) (dispatched w) l.

(* ===================================================================== *)
(** ** Computations: state, exceptions, fuel *)
(* ===================================================================== *)

(** How a computation ends: with a value, by throwing, or (for the loop
    only) because the fuel of the model ran out. *)
Inductive Outcome (A : Type) :=
| Ret (a : A)
| Throw (v : Value)
| OutOfFuel.

Arguments Ret {A} a.
Arguments Throw {A} v.
Arguments OutOfFuel {A}.

Definition M (S A : Type) : Type := S -> Outcome A * S.

Definition ret {S A} (a : A) : M S A := fun s => (Ret a, s).

Definition throw {S A} (v : Value) : M S A := fun s => (Throw v, s).

Definition out_of_fuel {S A} : M S A := fun s => (OutOfFuel, s).

Definition bind {S A B} (m : M S A) (k : A -> M S B) : M S B :=
  fun s =>
    match m s with
    | (Ret a, s') => k a s'
    | (Throw v, s') => (Throw v, s')
    | (OutOfFuel, s') => (OutOfFuel, s')
    end.

(** [try { m } catch (e) { h e }]: the state changes [m] made before it
    threw are kept. *)
Definition try_catch {S A} (m : M S A) (h : Value -> M S A) : M S A :=
  fun s =>
    match m s with
    | (Throw v, s') => h v s'
    | r => r
    end.

Definition get_state {S} : M S S := fun s => (Ret s, s).

Definition modify {S} (f : S -> S) : M S unit := fun s => (Ret tt, f s).

Declare Scope js_scope.
Delimit Scope js_scope with js.

Notation "x <- m ;; k" := (bind m (fun x => k))
  (at level 100, m at next level, right associativity) : js_scope.
Notation "m ;;; k" := (bind m (fun _ => k))
  (at level 100, right associativity) : js_scope.

Local Open Scope js_scope.

(* ===================================================================== *)
(** ** exception-logger.ts *)
(* ===================================================================== *)

Module ExceptionLogger.
Section WithPlatform.
Context {P : Platform}.

(** [initializeEnvironmentInfo]: where there is no [window] the field is
    set to [{}] and [navigator] is not read; otherwise it is set to the
    snapshot derived from [navigator]. *)
Definition initializeEnvironmentInfo : M World unit :=
  if has_window
  then modify (set_environmentInfo (Some (EnvSnapshot navigator_environment)))
  else modify (set_environmentInfo (Some EnvEmpty)).

(** [getEnvironmentInfo]: the field is set on first use and returned from
    then on ([{}] is truthy, so it is kept as well). *)
Definition getEnvironmentInfo : M World Environment :=
  w <- get_state ;;
  (match environmentInfo w with
   | Some _ => ret tt
   | None => initializeEnvironmentInfo
   end) ;;;
  w <- get_state ;;
  ret (default EnvEmpty (environmentInfo w)).

(** [consoleLog]. *)
Definition consoleLog (logEntry : LogEntry.t) : M World unit :=
  modify (fun w => set_console (console w ++ [logEntry]) w).

(** [sendToErrorCenter]: the event is raised only where [window] exists. *)
Definition sendToErrorCenter (logEntry : LogEntry.t) : M World unit :=
  if has_window
  then modify (fun w => set_dispatched (dispatched w ++ [logEntry]) w)
  else ret tt.

(** [Array.prototype.shift]. *)
Definition shift {A} (l : list A) : list A := tail l.

(** [ExceptionLogger.log].  [String(error)] returns for every value of
    the model, and the platform is complete, so the write returns; what a
    caller does when the write throws is outside this model. *)
Definition log (error : Value) (context : string) (extraInfo : Info) : M World unit :=
  let error := match error with
               | VError e => e
               | v => new_Error (String_of v)
               end in
  w <- get_state ;;
  modify (set_written (S (written w))) ;;;
  environment <- getEnvironmentInfo ;;
  let logEntry :=
    {| LogEntry.id := crypto_randomUUID (written w);
       LogEntry.timestamp := Date_now (written w);
       LogEntry.error := error;
       LogEntry.type := Classifier.determineExceptionType error;
       LogEntry.context := (extraInfo, context);
       LogEntry.environment := environment |} in
  modify (fun w => set_logEntries (logEntries w ++ [logEntry]) w) ;;;
  modify (fun w => if (maxLogEntries w <? length (logEntries w))%nat
                   then set_logEntries (shift (logEntries w)) w
                   else w) ;;;
  w <- get_state ;;
  (if logLevel w is level_debug then consoleLog logEntry else ret tt) ;;;
  sendToErrorCenter logEntry.

(** [getLogEntries] and [clearLogs]. *)
Definition getLogEntries : M World (list LogEntry.t) :=
  w <- get_state ;; ret (logEntries w).

Definition clearLogs : M World unit := modify (set_logEntries []).

End WithPlatform.
End ExceptionLogger.

(* ===================================================================== *)
(** ** exception-registry.ts *)
(* ===================================================================== *)

Module ExceptionRegistry.
Section WithPlatform.
Context {P : Platform}.

(** [registerHandler(type, handler, severity = 'medium')]. *)
Definition registerHandler (type : Key) (h : ExceptionHandler) (sev : option string)
  : M World unit :=
  modify (fun w =>
    set_handlers (<[type := mkEntry h (default "medium"%string sev)]> (handlers w)) w).

Definition unregisterHandler (type : Key) : M World unit :=
  modify (fun w => set_handlers (delete type (handlers w)) w).

(** [getHandler]: [this.handlers.get(type)?.handler]. *)
Definition getHandler (type : Key) (w : World) : option ExceptionHandler :=
  handler <$> (handlers w !! type).

(** [getSeverity]: an absent or empty severity reads as ['medium']. *)
Definition getSeverity (type : Key) (w : World) : string :=
  match severity <$> (handlers w !! type) with
  | Some s => if String.eqb s "" then "medium" else s
  | None => "medium"
  end.

Definition clearHandlers : M World unit := modify (set_handlers ∅).

(** Calling a handler: the call is observed, then it returns or throws. *)
Definition call_handler (h : ExceptionHandler) (error : Value) (context : string)
           (extraInfo : Info) : M World unit :=
  modify (fun w =>
    set_invoked (invoked w ++ [mkInvocation (handler_ref h) error context extraInfo]) w) ;;;
  match handler_call h error context extraInfo with
  | None => ret tt
  | Some thrown => throw thrown
  end.

(** The [catch] clause of a handler call.  The message of the report is
    built with a template literal, [`Custom handler failed: ${handlerError}`],
    which throws for a value that cannot be converted to a string; then
    nothing is logged and the [TypeError] leaves the clause. *)
Definition log_handler_failure (handlerError error : Value) (context : string)
           (extraInfo : Info) : M World unit :=
  match ToString handlerError with
  | inl e => throw (VError e)
  | inr s =>
      ExceptionLogger.log
        (VError (new_Error ("Custom handler failed: " +:+ s)))
        "handler-failure"
        (InfoHandlerFailure error context extraInfo)
  end.

(** [ExceptionRegistry.handleException]. *)
Definition handleException (error : Error) (context : string) (extraInfo : Info)
  : M World unit :=
  w <- get_state ;;
  let handler := getHandler (KFunction (constructor error)) w in
  let handler :=
    match handler with
    | Some h => Some h
    | None =>
        let exceptionType := Classifier.mapErrorToExceptionType error in
        getHandler (KType exceptionType) w
    end in
  match handler with
  | Some h =>
      try_catch (call_handler h (VError error) context extraInfo)
                (fun handlerError =>
                   log_handler_failure handlerError (VError error) context extraInfo)
  | None => ret tt
  end.

End WithPlatform.
End ExceptionRegistry.

(* ===================================================================== *)
(** ** exception-interceptor.ts *)
(* ===================================================================== *)

Module ExceptionInterceptor.
Section WithPlatform.
Context {P : Platform}.

(** [error.constructor] for an [error] of type [any]: reading a property of
    [undefined] or [null] throws a [TypeError]. *)
Definition constructor_of (error : Value) : M World Function :=
  match error with
  | VUndefined =>
      throw (VError (new_TypeError
        "Cannot read properties of undefined (reading 'constructor')"))
  | VNull =>
      throw (VError (new_TypeError
        "Cannot read properties of null (reading 'constructor')"))
  | VError e => ret (constructor e)
  | VSymbol _ => ret Symbol_ctor
  | VOther c _ => ret c
  end.

(** [ExceptionInterceptor.handleException].  The boolean tells whether the
    [try] block reached its [return]. *)
Definition handleException (error : Value) (context : string) (extraInfo : Info)
  : M World unit :=
  c <- constructor_of error ;;
  w <- get_state ;;
  let handler := ExceptionRegistry.getHandler (KFunction c) w in
  returned <-
    match handler with
    | Some h =>
        try_catch
          (ExceptionRegistry.call_handler h error context extraInfo ;;;
           ret true)
          (fun handlerError =>
             ExceptionRegistry.log_handler_failure handlerError error context extraInfo ;;;
             ret false)
    | None => ret false
    end ;;
  if returned : bool then ret tt
  else ExceptionLogger.log error context extraInfo.

End WithPlatform.
End ExceptionInterceptor.

(* ===================================================================== *)
(** ** safe-fetch.ts *)
(* ===================================================================== *)

Module SafeFetch.
Section WithPlatform.
Context {P : Platform}.

(** [setDefaultOptions]. *)
Definition setDefaultOptions (options : SafeFetchOptions) : M World unit :=
  modify (fun w => set_defaultOptions (spread (defaultOptions w) options) w).

(** One call of the global [fetch]: it is observed, then the promise is
    rejected or fulfilled. *)
Definition global_fetch_call (url : string) (body : option string)
  : M World Response.t :=
  w <- get_state ;;
  modify (fun w => set_fetched (S (fetched w))
                     (set_network (network w ++ [Call (mkRequest url body)]) w)) ;;;
  match global_fetch (fetched w) (mkRequest url body) with
  | Rejected reason => throw reason
  | Responded r => ret r
  end.

(** [await response.json()]. *)
Definition response_json {S} (r : Response.t) : M S json :=
  match Response.json r with
  | inl reason => throw reason
  | inr j => ret j
  end.

(** [delay(ms)]: the timer is observed; [None] is the [NaN] that an
    absent [retryDelay] gives. *)
Definition delay (ms : option Z) : M World unit :=
  modify (fun w => set_network (network w ++ [Delay ms]) w).

(** A string in a condition: absent and empty are falsy. *)
Definition truthy_string (s : option string) : bool :=
  match s with
  | Some s => negb (String.eqb s "")
  | None => false
  end.

(** [new Date(a) > new Date(b)]: false as soon as one date is invalid. *)
Definition date_gt (a b : json) : bool :=
  match Date_valueOf a, Date_valueOf b with
  | Some x, Some y => y <? x
  | _, _ => false
  end.

(** [a.updatedAt], read only where [a] is known to be truthy. *)
Definition updatedAt (a : json) : option json := get a "updatedAt".

(** The choice the ['timestamp'] case makes between the two documents. *)
Definition timestamp_choice (clientData : option json) (serverData : json) : json :=
  match clientData with
  | Some c =>
      if truthy c && truthy serverData
         && truthy_opt (updatedAt c) && truthy_opt (updatedAt serverData)
      then
        match updatedAt c, updatedAt serverData with
        | Some tc, Some ts => if date_gt tc ts then c else serverData
        | _, _ => serverData
        end
      else serverData
  | None => serverData
  end.

(** What the [try] block of [handleConflict] returns: a value, or the
    promise [clientResponse.json()], which is returned without [await] and
    so settles outside the [try]. *)
Inductive Returned :=
| Settled (v : option json)
| PendingJson (r : Response.t).

(** [SafeFetch.handleConflict]; [None] is [undefined]. *)
Definition handleConflict (url : string) (options : SafeFetchOptions)
           (response : Response.t) : M World (option json) :=
  r <- try_catch
         (serverData <- response_json response ;;
          clientData <-
            (if truthy_string (body options)
             then match JSON_parse (default ""%string (body options)) with
                  | inl e => throw (VError e)
                  | inr j => ret (Some j)
                  end
             else ret None) ;;
          match conflictResolution options with
          | Some server_wins => ret (Settled (Some serverData))
          | Some client_wins =>
              clientResponse <-
                global_fetch_call url (JSON_stringify <$> clientData) ;;
              if Response.ok clientResponse
              then ret (PendingJson clientResponse)
              else ret (Settled None)
          | Some timestamp =>
              ret (Settled (Some (timestamp_choice clientData serverData)))
          | None => ret (Settled (Some serverData))
          end)
         (fun error =>
            ExceptionLogger.log error "safe-fetch-conflict" (InfoUrlOptions url options) ;;;
            ret (Settled None)) ;;
  match r with
  | Settled v => ret v
  | PendingJson clientResponse => j <- response_json clientResponse ;; ret (Some j)
  end.

(** The local variables of [fetch]. *)
Record Locals := mkLocals {
  attempt : Z;
  lastError : option Value;
  lastStatus : option Z;
  lastHeaders : option Headers
}.

Definition set_attempt (n : Z) (l : Locals) : Locals :=
  mkLocals n (lastError l) (lastStatus l) (lastHeaders l).

(** [lastError = e]; assigning [undefined] leaves the variable undefined. *)
Definition set_lastError (e : Value) (l : Locals) : Locals :=
  mkLocals (attempt l) (defined e) (lastStatus l) (lastHeaders l).

Definition set_lastResponse (r : Response.t) (l : Locals) : Locals :=
  mkLocals (attempt l) (lastError l) (Some (Response.status r))
           (Some (Response.headers r)).

(** Inside [fetch] the state is the world together with the locals. *)
Definition Frame : Type := World * Locals.

Definition in_world {A} (m : M World A) : M Frame A :=
  fun s =>
    match m (fst s) with
    | (o, w') => (o, (w', snd s))
    end.

Definition locals : M Frame Locals := fun s => (Ret (snd s), s).

Definition assign (f : Locals -> Locals) : M Frame unit :=
  modify (fun s => (fst s, f (snd s))).

(** How one turn of the loop body ends: at a [return], or by falling
    through to [attempt++]. *)
Inductive Flow :=
| Return (r : SafeFetchResponse.t)
| Continue.

(** [attempt <= retryCount]; comparing with [undefined] is false. *)
Definition attempt_le (attempt : Z) (retryCount : option Z) : bool :=
  match retryCount with
  | Some n => attempt <=? n
  | None => false
  end.

(** [retryDelay * Math.pow(2, attempt - 1)]. *)
Definition backoff (retryDelay : option Z) (attempt : Z) : option Z :=
  (fun d => d * 2 ^ (attempt - 1)) <$> retryDelay.

(** [new Error(`HTTP error! status: ${response.status}`)]. *)
Definition http_error (status : Z) : Value :=
  VError (new_Error ("HTTP error! status: " +:+ pretty status)).

(** The [try]/[catch] statement in the body of the loop.  The timer that
    aborts the request after [timeout] milliseconds belongs to the platform:
    a call that is aborted is a call that is rejected. *)
Definition attempt_once (url : string) (options mergedOptions : SafeFetchOptions)
  : M Frame Flow :=
  try_catch
    (response <- in_world (global_fetch_call url (body mergedOptions)) ;;
     assign (set_lastResponse response) ;;;
     if Response.ok response then
       data <- response_json response ;;
       ret (Return {| SafeFetchResponse.data := Some data;
                      SafeFetchResponse.error := None;
                      SafeFetchResponse.status := Some (Response.status response);
                      SafeFetchResponse.headers := Some (Response.headers response) |})
     else
       resolvedData <-
         (if (Response.status response =? 409)
             && bool_decide (is_Some (conflictResolution mergedOptions))
          then in_world (handleConflict url mergedOptions response)
          else ret None) ;;
       match resolvedData with
       | Some d =>
           ret (Return {| SafeFetchResponse.data := Some d;
                          SafeFetchResponse.error := None;
                          SafeFetchResponse.status := Some 200;
                          SafeFetchResponse.headers := Some (Response.headers response) |})
       | None =>
           assign (set_lastError (http_error (Response.status response))) ;;;
           ret Continue
       end)
    (fun error =>
       assign (set_lastError error) ;;;
       l <- locals ;;
       in_world (ExceptionLogger.log error "safe-fetch" (InfoFetch url (attempt l) options)) ;;;
       ret Continue).

(** [while (attempt <= retryCount) { ... }]; the result is [Some r] when
    the loop is left by a [return], [None] when its condition fails. *)
Fixpoint retry_loop (fuel : nat) (url : string) (options mergedOptions : SafeFetchOptions)
  : M Frame (option SafeFetchResponse.t) :=
  match fuel with
  | O => out_of_fuel
  | S fuel' =>
      l <- locals ;;
      if attempt_le (attempt l) (retryCount mergedOptions) then
        flow <- attempt_once url options mergedOptions ;;
        match flow with
        | Return r => ret (Some r)
        | Continue =>
            assign (fun l => set_attempt (attempt l + 1) l) ;;;
            l <- locals ;;
            (if attempt_le (attempt l) (retryCount mergedOptions)
             then in_world (delay (backoff (retryDelay mergedOptions) (attempt l)))
             else ret tt) ;;;
            retry_loop fuel' url options mergedOptions
        end
      else ret None
  end.

(** The part of [fetch] after the loop: the fallback URL, then the
    fallback data. *)
Definition after_loop (options mergedOptions : SafeFetchOptions) (l : Locals)
  : M World SafeFetchResponse.t :=
  fromFallback <-
    (if truthy_string (fallbackUrl mergedOptions) then
       let url := default ""%string (fallbackUrl mergedOptions) in
       try_catch
         (response <- global_fetch_call url (body mergedOptions) ;;
          if Response.ok response then
            data <- response_json response ;;
            ret (Some {| SafeFetchResponse.data := Some data;
                         SafeFetchResponse.error := None;
                         SafeFetchResponse.status := Some (Response.status response);
                         SafeFetchResponse.headers := Some (Response.headers response) |})
          else ret None)
         (fun error =>
            ExceptionLogger.log error "safe-fetch-fallback" (InfoUrlOptions url options) ;;;
            ret None)
     else ret None) ;;
  match fromFallback with
  | Some r => ret r
  | None =>
      match fallbackData mergedOptions with
      | Some d =>
          ret {| SafeFetchResponse.data := Some d;
                 SafeFetchResponse.error := lastError l;
                 SafeFetchResponse.status := lastStatus l;
                 SafeFetchResponse.headers := lastHeaders l |}
      | None =>
          ret {| SafeFetchResponse.data := None;
                 SafeFetchResponse.error := lastError l;
                 SafeFetchResponse.status := lastStatus l;
                 SafeFetchResponse.headers := lastHeaders l |}
      end
  end.

(** Enough fuel for the loop: one turn per value of [attempt] from [0] to
    [retryCount], and one more for the test that ends it. *)
Definition turns (retryCount : option Z) : nat :=
  match retryCount with
  | Some n => Z.to_nat (n + 1)
  | None => 0
  end.

(** [SafeFetch.fetch], with the fuel of the loop made explicit. *)
Definition fetch_with (fuel : nat) (url : string) (options : SafeFetchOptions)
  : M World SafeFetchResponse.t :=
  fun w =>
    let mergedOptions := spread (defaultOptions w) options in
    let start := mkLocals 0 None None None in
    match retry_loop fuel url options mergedOptions (w, start) with
    | (Ret (Some r), (w', _)) => (Ret r, w')
    | (Ret None, (w', l)) => after_loop options mergedOptions l w'
    | (Throw v, (w', _)) => (Throw v, w')
    | (OutOfFuel, (w', _)) => (OutOfFuel, w')
    end.

(** [SafeFetch.fetch]. *)
Definition fetch (url : string) (options : SafeFetchOptions)
  : M World SafeFetchResponse.t :=
  fun w =>
    fetch_with (S (turns (retryCount (spread (defaultOptions w) options))))
               url options w.

End WithPlatform.
End SafeFetch.

(** [safeFetch], the convenience function. *)
Definition safeFetch {P : Platform} (url : string) (options : SafeFetchOptions)
  : M World SafeFetchResponse.t :=
  SafeFetch.fetch url options.


(* ===================================================================== *)
(** ** exception-logger.ts: statistics *)
(* ===================================================================== *)

From Stdlib Require QArith Qround.
From Stdlib Require Import Sorted.
From stdpp Require sorting.

Module Statistics.

(** [Object.values(ExceptionType)]: the members in declaration order. *)
Definition Object_values_ExceptionType : list ExceptionType :=
  [NULL_POINTER; TYPE_ERROR; RANGE_ERROR; SYNTAX_ERROR; REFERENCE_ERROR;
   NETWORK_ERROR; DATA_ERROR; RESOURCE_ERROR; GENERAL_ERROR].

(** An object in a condition is truthy; [entry.error] is always an
    [Error] object. *)
Definition Error_truthy (e : Error) : bool := true.

(** [Array.prototype.sort] with the comparator [([, a], [, b]) => b - a]:
    a stable sort by decreasing count.  Inserting [x], which stood before
    every element of [l], puts it in front of the first element whose count
    is not greater. *)
Fixpoint insert_desc (x : ExceptionType * nat) (l : list (ExceptionType * nat))
  : list (ExceptionType * nat) :=
  match l with
  | [] => [x]
  | y :: l' => if (snd y <=? snd x)%nat then x :: y :: l' else y :: insert_desc x l'
  end.

Fixpoint sort_desc (l : list (ExceptionType * nat)) : list (ExceptionType * nat) :=
  match l with
  | [] => []
  | x :: l' => insert_desc x (sort_desc l')
  end.

(** [Number.prototype.toFixed(2)] on the exact value of the number, for
    magnitudes below 10^21: the sign, the integer part, a point and two
    digits, rounding half up. *)
Definition two_digits (k : Z) : string :=
  if k <? 10 then "0" +:+ pretty k else pretty k.

Definition toFixed2 (x : QArith_base.Q) : string :=
  let body (y : QArith_base.Q) :=
    let n := Qround.Qfloor
               (QArith_base.Qplus (QArith_base.Qmult y (QArith_base.inject_Z 100))
                                  (QArith_base.Qmake 1 2)) in
    pretty (n / 100) +:+ "." +:+ two_digits (n mod 100) in
  match QArith_base.Qlt_le_dec x (QArith_base.inject_Z 0) with
  | left _ => "-" +:+ body (QArith_base.Qopp x)
  | right _ => body x
  end.

(** What [getStatistics] returns; [typeCounts] is the object with one key
    per member, in insertion order. *)
Record t := mk {
  totalExceptions : nat;
  typeCounts : list (ExceptionType * nat);
  topTypes : list ExceptionType;
  successRate : string
}.

(** [ExceptionLogger.getStatistics]; [today] is
    [new Date().setHours(0, 0, 0, 0)], the local midnight of the current
    day. *)
Definition getStatistics (today : Z) (w : World) : t :=
  let todayEntries :=
    List.filter (fun entry => today <=? LogEntry.timestamp entry) (logEntries w) in
  let typeCounts :=
    (fun type =>
       (type,
        length (List.filter (fun entry => bool_decide (LogEntry.type entry = type))
                            todayEntries)))
      <$> Object_values_ExceptionType in
  let topTypes := fst <$> take 3 (sort_desc typeCounts) in
  let networkEntries :=
    List.filter (fun entry => bool_decide (LogEntry.type entry = NETWORK_ERROR))
                (logEntries w) in
  let totalRequests :=
    (length networkEntries
     + length (List.filter
                 (fun entry =>
                    String.eqb (snd (LogEntry.context entry)) "safe-fetch"
                    && negb (Error_truthy (LogEntry.error entry)))
                 todayEntries))%nat in
  let successRate :=
    if (0 <? totalRequests)%nat
    then QArith_base.Qmult
           (QArith_base.Qdiv
              (QArith_base.Qminus (QArith_base.inject_Z (Z.of_nat totalRequests))
                                  (QArith_base.inject_Z (Z.of_nat (length networkEntries))))
              (QArith_base.inject_Z (Z.of_nat totalRequests)))
           (QArith_base.inject_Z 100)
    else QArith_base.inject_Z 100 in
  {| totalExceptions := length todayEntries;
     typeCounts := typeCounts;
     topTypes := topTypes;
     successRate := toFixed2 successRate |}.

End Statistics.

(* ===================================================================== *)
(** ** exception-interceptor.ts: the wrapping combinators *)
(* ===================================================================== *)

Module Wrappers.
Section WithPlatform.
Context {P : Platform}.

(** [context || fallback]: an absent or empty label gives the fallback. *)
Definition label_or (context : option string) (fallback : string) : string :=
  match context with
  | Some c => if String.eqb c "" then fallback else c
  | None => fallback
  end.

(** The object [{ args }]. *)
Definition args_info (args : list json) : Info :=
  InfoOther (JObj [("args"%string, JArr args)]).

(** [wrapSync(fn, context)(...args)]; the wrapped function is any
    computation on the program state; [None] is [undefined]. *)
Definition wrapSync {A} (fn : list json -> M World A) (context : option string)
           (args : list json) : M World (option A) :=
  try_catch
    (r <- fn args ;; ret (Some r))
    (fun error =>
       ExceptionInterceptor.handleException error (label_or context "sync-function")
         (args_info args) ;;;
       ret None).

(** [wrapAsync(fn, context)(...args)], awaited. *)
Definition wrapAsync {A} (fn : list json -> M World A) (context : option string)
           (args : list json) : M World (option A) :=
  try_catch
    (r <- fn args ;; ret (Some r))
    (fun error =>
       ExceptionInterceptor.handleException error (label_or context "async-function")
         (args_info args) ;;;
       ret None).

End WithPlatform.
End Wrappers.

(* ===================================================================== *)
(** ** The error boundary component: what it does with a caught error *)
(* ===================================================================== *)

Module ErrorBoundary.
Section WithPlatform.
Context {P : Platform}.

(** [props.onError]: absent, or a callback that returns ([None]) or
    throws. *)
Definition OnError : Type := option (Error -> Info -> option Value).

(** [componentDidCatch(error, errorInfo)]. *)
Definition componentDidCatch (onError : OnError) (error : Error) (errorInfo : Info)
  : M World unit :=
  ExceptionLogger.log (VError error) "react-component" errorInfo ;;;
  (match onError with
   | Some callback =>
       match callback error errorInfo with
       | None => ret tt
       | Some thrown => throw thrown
       end
   | None => ret tt
   end) ;;;
  w <- get_state ;;
  let handler := ExceptionRegistry.getHandler (KFunction (constructor error)) w in
  match handler with
  | Some h =>
      try_catch
        (ExceptionRegistry.call_handler h (VError error) "react-component" errorInfo)
        (fun handlerError =>
           ExceptionRegistry.log_handler_failure handlerError (VError error)
             "react-component" errorInfo)
  | None => ret tt
  end.

End WithPlatform.
End ErrorBoundary.

(* ===================================================================== *)
(** ** The ErrorCenter component: its list of recent records *)
(* ===================================================================== *)

Module ErrorCenter.

(** [Array.prototype.slice(0, end)] for an integer [end]: a negative [end]
    counts from the end of the array. *)
Definition slice_from_0 {A} (end_ : Z) (l : list A) : list A :=
  if end_ <? 0
  then take (Z.to_nat (Z.max (Z.of_nat (length l) + end_) 0)) l
  else take (Z.to_nat end_) l.

(** The state update of [handleExceptionLogged]:
    [[logEntry, ...prevLogs].slice(0, maxLogs)]. *)
Definition handleExceptionLogged (maxLogs : Z) (logEntry : LogEntry.t)
           (prevLogs : list LogEntry.t) : list LogEntry.t :=
  slice_from_0 maxLogs (logEntry :: prevLogs).

End ErrorCenter.

(* ===================================================================== *)
(** ** memory-guard.ts: the check of the DOM node count *)
(* ===================================================================== *)

Module MemoryGuard.
Section WithPlatform.
Context {P : Platform}.

(** [DomInfo]; the three counts are lengths of node lists. *)
Record DomInfo := mkDomInfo {
  totalNodes : nat;
  elementNodes : nat;
  textNodes : nat;
  otherNodes : Z
}.

Definition DomInfo_json (d : DomInfo) : json :=
  JObj [("totalNodes"%string, JNum (Z.of_nat (totalNodes d)));
        ("elementNodes"%string, JNum (Z.of_nat (elementNodes d)));
        ("textNodes"%string, JNum (Z.of_nat (textNodes d)));
        ("otherNodes"%string, JNum (otherNodes d))].

(** A [CustomEvent] dispatched on [window]: its type and its detail.  The
    guard's state is the program state with the events it dispatched. *)
Definition WindowEvent : Type := string * json.

Definition Page : Type := World * list WindowEvent.

Definition in_page {A} (m : M World A) : M Page A :=
  fun s =>
    match m (fst s) with
    | (o, w') => (o, (w', snd s))
    end.

Definition dispatchEvent (type : string) (detail : json) : M Page unit :=
  modify (fun s => (fst s, snd s ++ [(type, detail)])).

(** [dispatchDomEvent]. *)
Definition dispatchDomEvent (domInfo : DomInfo) : M Page unit :=
  dispatchEvent "dom-monitor" (DomInfo_json domInfo).

(** [handleDomWarning]; [maxDomNodes] is [this.options.maxDomNodes], an
    integer. *)
Definition handleDomWarning (maxDomNodes : Z) (domInfo : DomInfo) : M Page unit :=
  let error :=
    new_Error ("DOM node count exceeds threshold: " +:+ pretty (totalNodes domInfo)
               +:+ " / " +:+ pretty maxDomNodes) in
  in_page (ExceptionLogger.log (VError error) "memory-guard"
             (InfoOther (DomInfo_json domInfo))) ;;;
  dispatchEvent "dom-warning" (DomInfo_json domInfo).

(** [checkDomNodes]; [document] is absent, or answers the three
    [querySelectorAll] calls with lists of these lengths. *)
Definition checkDomNodes (maxDomNodes : Z) (document : option (nat * nat * nat))
  : M Page unit :=
  match document with
  | None => ret tt
  | Some (total, element, text) =>
      let domInfo :=
        mkDomInfo total element text (Z.of_nat total - Z.of_nat element - Z.of_nat text) in
      dispatchDomEvent domInfo ;;;
      if maxDomNodes <? Z.of_nat (totalNodes domInfo)
      then handleDomWarning maxDomNodes domInfo
      else ret tt
  end.

End WithPlatform.
End MemoryGuard.

(* ===================================================================== *)
(** * Vocabulary of the properties *)
(* ===================================================================== *)

(** The outcome of a computation and the state it leaves. *)
Definition outcome {S A} (m : M S A) (s : S) : Outcome A := fst (m s).
Definition after {S A} (m : M S A) (s : S) : S := snd (m s).

(** A computation that always returns a value: it neither throws nor
    runs out of fuel.  One that at least never runs out of fuel. *)
Definition returns {S A} (m : M S A) : Prop :=
  forall s, exists a, outcome m s = Ret a.

Definition settles {S A} (m : M S A) : Prop :=
  forall s, outcome m s <> OutOfFuel.

(** A computation that leaves an observation [f] of the state unchanged,
    however it ends. *)
Definition keeps {S A X} (f : S -> X) (m : M S A) : Prop :=
  forall s, f (after m s) = f s.

(** The claim C10 in the specification's words, at one exception: if none
    of the rules 1 to 8 matches it and its message contains "memory" or
    "DOM", the registry's classifier answers [RESOURCE_ERROR] and the log's
    [GENERAL_ERROR]. *)
Definition rule_9_asymmetry_as_stated (e : Error) : Prop :=
  Classifier.spec_rules_1_8 e = None ->
  contains (message e) "memory" \/ contains (message e) "DOM" ->
  Classifier.mapErrorToExceptionType e = RESOURCE_ERROR
  /\ Classifier.determineExceptionType e = GENERAL_ERROR.

Module LogSpec.
Section WithPlatform.
Context {P : Platform}.

(** What [initializeEnvironmentInfo] stores: [{}] where there is no
    [window], the snapshot derived from [navigator] otherwise. *)
Definition first_environment : Environment :=
  if has_window then EnvSnapshot navigator_environment else EnvEmpty.

(** The record a call [log(error, context, extraInfo)] builds in [w]. *)
Definition new_entry (w : World) (error : Value) (context : string)
           (extraInfo : Info) : LogEntry.t :=
  let error := match error with
               | VError e => e
               | v => new_Error (String_of v)
               end in
  {| LogEntry.id := crypto_randomUUID (written w);
     LogEntry.timestamp := Date_now (written w);
     LogEntry.error := error;
     LogEntry.type := Classifier.determineExceptionType error;
     LogEntry.context := (extraInfo, context);
     LogEntry.environment := default first_environment (environmentInfo w) |}.

(** The arguments of one log write. *)
Definition Input : Type := Value * string * Info.

(** A sequence of log writes, and the records they build, in order. *)
Fixpoint log_all (inputs : list Input) : M World unit :=
  match inputs with
  | [] => ret tt
  | (error, context, extraInfo) :: rest =>
      ExceptionLogger.log error context extraInfo ;;; log_all rest
  end.

Fixpoint records (w : World) (inputs : list Input) : list LogEntry.t :=
  match inputs with
  | [] => []
  | (error, context, extraInfo) :: rest =>
      new_entry w error context extraInfo
      :: records (after (ExceptionLogger.log error context extraInfo) w) rest
  end.

(** The [n] most recent elements of a list that is ordered oldest first. *)
Definition keep_last {A} (n : nat) (l : list A) : list A :=
  drop (length l - n) l.

End WithPlatform.
End LogSpec.

Module DispatchSpec.

(** The constructor of a thrown value, where it has one. *)
Definition constructor_value (v : Value) : option Function :=
  match v with
  | VUndefined | VNull => None
  | VError e => Some (constructor e)
  | VSymbol _ => Some Symbol_ctor
  | VOther c _ => Some c
  end.

(** The world once handler [h] has been called with these arguments. *)
Definition called (h : ExceptionHandler) (error : Value) (context : string)
           (extraInfo : Info) (w : World) : World :=
  set_invoked (invoked w ++ [mkInvocation (handler_ref h) error context extraInfo]) w.

(** The thrown value can be inserted in a template literal: it is not a
    symbol. *)
Definition convertible (thrown : Value) : bool :=
  match ToString thrown with
  | inr _ => true
  | inl _ => false
  end.

(** The error object that reports the failure of a handler that threw a
    convertible value. *)
Definition failure_report (thrown : Value) : Value :=
  VError (new_Error ("Custom handler failed: " +:+ String_of thrown)).

(** The claim C7 in the specification's words, for the interceptor's
    dispatch of one exception: by the time dispatch returns, the log has
    been written to. *)
Definition dispatch_always_logs_as_stated {P : Platform}
           (w : World) (error : Value) (context : string) (extraInfo : Info) : Prop :=
  (written w < written (after (ExceptionInterceptor.handleException
                                 error context extraInfo) w))%nat.

(** A handler that returns, and one that throws. *)
Definition quiet_handler : ExceptionHandler :=
  mkHandler (FnRef 100) (fun _ _ _ => None).

Definition failing_handler : ExceptionHandler :=
  mkHandler (FnRef 101) (fun _ _ _ => Some (VError (new_Error "handler broke"))).

(** [() => { throw Symbol('boom') }]. *)
Definition symbol_handler : ExceptionHandler :=
  mkHandler (FnRef 102) (fun _ _ _ => Some (VSymbol "boom")).

(** The freshly loaded program after
    [ExceptionRegistry.registerHandler(type, h)]. *)
Definition world_with {P : Platform} (type : Key) (h : ExceptionHandler) : World :=
  after (ExceptionRegistry.registerHandler type h None) initial_world.

(** [new TypeError('Cannot read property of null')]. *)
Definition null_read : Error := new_TypeError "Cannot read property of null".

End DispatchSpec.

Module FetchSpec.
Section WithPlatform.
Context {P : Platform}.

(** A call of the transport fails: the promise is rejected, or the
    response has an error status other than 409 (a 409 goes to conflict
    resolution), or it has a success status and a body that cannot be
    parsed. *)
Definition fails (o : FetchOutcome) : bool :=
  match o with
  | Rejected _ => true
  | Responded r =>
      if Response.ok r
      then match Response.json r with inl _ => true | inr _ => false end
      else negb (Response.status r =? 409)
  end.

(** The failure the engine records for a call that fails. *)
Definition failure_of (o : FetchOutcome) : Value :=
  match o with
  | Rejected reason => reason
  | Responded r =>
      match Response.ok r, Response.json r with
      | true, inl reason => reason
      | _, _ => SafeFetch.http_error (Response.status r)
      end
  end.

(** The response a call produced, if it produced one. *)
Definition response_of (o : FetchOutcome) : option Response.t :=
  match o with
  | Rejected _ => None
  | Responded r => Some r
  end.

(** The most recent response among the calls number [first], ...,
    [first + count - 1] made with request [rq]. *)
Fixpoint last_response (rq : Request) (first count : nat) : option Response.t :=
  match count with
  | O => None
  | S k =>
      match global_fetch (first + k) rq with
      | Responded r => Some r
      | Rejected _ => last_response rq first k
      end
  end.

(** The calls and timer delays of [retryCount + 1] attempts: the first
    call, then, for k = 1 .. retryCount, a delay of
    [retryDelay * 2^(k-1)] followed by the k-th retry. *)
Definition primary_schedule (rq : Request) (retryDelay retryCount : Z)
  : list NetEvent :=
  Call rq
  :: concat ((fun k => [Delay (Some (retryDelay * 2 ^ (k - 1))); Call rq])
               <$> seqZ 1 retryCount).

(** The single call to the fallback URL, when one is configured. *)
Definition fallback_call (m : SafeFetchOptions) : list NetEvent :=
  if SafeFetch.truthy_string (fallbackUrl m)
  then [Call (mkRequest (default ""%string (fallbackUrl m)) (body m))]
  else [].

Definition is_call (e : NetEvent) : bool :=
  match e with
  | Call _ => true
  | Delay _ => false
  end.

(** A call succeeds: a success status and a body that parses. *)
Definition succeeds (o : FetchOutcome) : bool :=
  match o with
  | Rejected _ => false
  | Responded r =>
      Response.ok r && match Response.json r with inl _ => false | inr _ => true end
  end.

(** The locals after an attempt that failed with outcome [o]. *)
Definition record_failure (o : FetchOutcome) (l : SafeFetch.Locals) : SafeFetch.Locals :=
  SafeFetch.set_lastError (failure_of o)
    match o with
    | Rejected _ => l
    | Responded r => SafeFetch.set_lastResponse r l
    end.

(** The client's document as [handleConflict] reads it from the options:
    none when there is no body (or an empty one), the parsed body when it
    parses. *)
Definition sent_document (m : SafeFetchOptions) (clientData : option json) : Prop :=
  match clientData with
  | None => SafeFetch.truthy_string (body m) = false
  | Some c =>
      SafeFetch.truthy_string (body m) = true
      /\ JSON_parse (default ""%string (body m)) = inr c
  end.

(** The two documents cannot be compared by timestamp: there is no client
    document, or one of the two [updatedAt] fields is missing (absent or
    falsy), or one of them is not a valid date. *)
Definition not_comparable (clientData : option json) (serverData : json) : Prop :=
  match clientData with
  | None => True
  | Some c =>
      truthy_opt (SafeFetch.updatedAt c) = false
      \/ truthy_opt (SafeFetch.updatedAt serverData) = false
      \/ exists tc ts,
           SafeFetch.updatedAt c = Some tc
           /\ SafeFetch.updatedAt serverData = Some ts
           /\ (Date_valueOf tc = None \/ Date_valueOf ts = None)
  end.

(** The result [fetch] synthesizes from a resolved conflict. *)
Definition resolved (v : json) (r : Response.t) : SafeFetchResponse.t :=
  {| SafeFetchResponse.data := Some v;
     SafeFetchResponse.error := None;
     SafeFetchResponse.status := Some 200;
     SafeFetchResponse.headers := Some (Response.headers r) |}.

(** The world once the global [fetch] has been called with [rq]. *)
Definition fetched_once (rq : Request) (w : World) : World :=
  set_fetched (S (fetched w)) (set_network (network w ++ [Call rq]) w).

End WithPlatform.
End FetchSpec.

(** A platform for the worked examples: every call of [fetch] is rejected
    with the same network error. *)
Definition example_environment : EnvironmentInfo :=
  mkEnvironmentInfo "Chrome" "120.0" "Linux" "Unknown" "Desktop" None "Mozilla/5.0".

Definition rejecting_platform : Platform :=
  {| global_fetch := fun _ _ => Rejected (VError (new_Error "Network error"));
     crypto_randomUUID := fun n => pretty n;
     Date_now := fun n => Z.of_nat n;
     navigator_environment := example_environment;
     has_window := true;
     JSON_parse := fun _ => inl (new_SyntaxError "Unexpected token");
     JSON_stringify := fun _ => ""%string;
     Date_valueOf := fun _ => None |}.

(** 1001 writes of the same error. *)
Definition booms : list (Value * string * Info) :=
  repeat (VError (new_Error "boom"), "test"%string, InfoNone) 1001.

(** A platform whose transport answers the first call with status 500 and
    rejects every later call. *)
Definition flaky_platform : Platform :=
  {| global_fetch := fun n _ =>
       match n with
       | O => Responded (Response.mk 500 [("content-type", "text/plain")]%string
                           (inl (VError (new_SyntaxError "Unexpected token"))))
       | S _ => Rejected (VError (new_TypeError "Failed to fetch"))
       end;
     crypto_randomUUID := fun n => pretty n;
     Date_now := fun n => Z.of_nat n;
     navigator_environment := example_environment;
     has_window := true;
     JSON_parse := fun _ => inl (new_SyntaxError "Unexpected token");
     JSON_stringify := fun _ => ""%string;
     Date_valueOf := fun _ => None |}.

(** [{ retryCount: 2 }], [{ retryCount: 1 }] and
    [{ retryCount: 1, fallbackData: 'cached' }]. *)
Definition retry_twice : SafeFetchOptions :=
  mkOptions (Some 2) None None None None None None.

Definition retry_once : SafeFetchOptions :=
  mkOptions (Some 1) None None None None None None.

Definition retry_once_with_data : SafeFetchOptions :=
  mkOptions (Some 1) None None (Some (JStr "cached")) None None None.

(** The second half of the claim C3 in the specification's words, for one
    call: when the transport fails on every attempt and no fallback is
    configured, the result has no data, and its error, status and headers
    are those of the last attempt. *)
Definition result_from_last_attempt_as_stated {P : Platform}
           (w : World) (url : string) (options : SafeFetchOptions) : Prop :=
  let m := spread (defaultOptions w) options in
  let rq := mkRequest url (body m) in
  forall rc : Z,
    retryCount m = Some rc ->
    0 <= rc ->
    (forall n, FetchSpec.fails (global_fetch n rq) = true) ->
    SafeFetch.truthy_string (fallbackUrl m) = false ->
    let last := global_fetch (fetched w + Z.to_nat rc) rq in
    exists r,
      outcome (SafeFetch.fetch url options) w = Ret r
      /\ SafeFetchResponse.data r = fallbackData m
      /\ SafeFetchResponse.error r = defined (FetchSpec.failure_of last)
      /\ SafeFetchResponse.status r = Response.status <$> FetchSpec.response_of last
      /\ SafeFetchResponse.headers r = Response.headers <$> FetchSpec.response_of last.

(** A platform whose server answers every call with a conflict: status 409
    and a document last updated at time 100.  Every request body parses to
    a document last updated at time 200; a number is a valid date. *)
Definition server_document : json :=
  JObj [("updatedAt", JNum 100); ("title", JStr "server")]%string.

Definition client_document : json :=
  JObj [("updatedAt", JNum 200); ("title", JStr "client")]%string.

Definition conflict_response : Response.t :=
  Response.mk 409 [("content-type", "application/json")]%string (inr server_document).

Definition conflict_platform : Platform :=
  {| global_fetch := fun _ _ => Responded conflict_response;
     crypto_randomUUID := fun n => pretty n;
     Date_now := fun n => Z.of_nat n;
     navigator_environment := example_environment;
     has_window := true;
     JSON_parse := fun _ => inr client_document;
     JSON_stringify := fun _ => "{}"%string;
     Date_valueOf := fun j => match j with JNum n => Some n | _ => None end |}.

(** [{ method: 'PUT', body: '...' }], with the default ['timestamp']. *)
Definition put_document : SafeFetchOptions :=
  mkOptions None None None None None None (Some "{...}"%string).

(** The second case of the claim C4 in the specification's words, for one
    409 response under ['timestamp'] whose body is the document [s]: when
    the [updatedAt] of either document is missing, conflict resolution
    yields the server body.  The client's [updatedAt] is missing when the
    client sent no document that has one. *)
Definition client_updatedAt {P : Platform} (m : SafeFetchOptions) : option json :=
  if SafeFetch.truthy_string (body m)
  then match JSON_parse (default ""%string (body m)) with
       | inr c => SafeFetch.updatedAt c
       | inl _ => None
       end
  else None.

Definition server_body_when_updatedAt_missing_as_stated {P : Platform}
           (w : World) (url : string) (m : SafeFetchOptions) (r : Response.t)
           (s : json) : Prop :=
  conflictResolution m = Some timestamp ->
  Response.json r = inr s ->
  client_updatedAt m = None \/ SafeFetch.updatedAt s = None ->
  outcome (SafeFetch.handleConflict url m r) w = Ret (Some s).



(* ===================================================================== *)
(** * Vocabulary of the further properties *)
(* ===================================================================== *)

Module StatisticsSpec.

(** The records of today, and how many of them have a given type. *)
Definition today_entries (today : Z) (w : World) : list LogEntry.t :=
  List.filter (fun entry => today <=? LogEntry.timestamp entry) (logEntries w).

Definition today_count (today : Z) (w : World) (t : ExceptionType) : nat :=
  length (List.filter (fun entry => bool_decide (LogEntry.type entry = t))
                      (today_entries today w)).

(** [t1] ranks before [t2]: more records today, or as many and declared
    earlier in the enumeration. *)
Definition ranks_before (today : Z) (w : World) (t1 t2 : ExceptionType) : Prop :=
  (today_count today w t2 < today_count today w t1)%nat
  \/ (today_count today w t1 = today_count today w t2
      /\ (ExceptionType_index t1 < ExceptionType_index t2)%nat).

(** Some record of the buffer has type [NETWORK_ERROR]. *)
Definition has_network_error (w : World) : bool :=
  existsb (fun entry => bool_decide (LogEntry.type entry = NETWORK_ERROR)) (logEntries w).

(** The order the sort establishes on the entries of the table. *)
Definition entry_before (x y : ExceptionType * nat) : Prop :=
  (snd y < snd x)%nat
  \/ (snd x = snd y /\ (ExceptionType_index (fst x) < ExceptionType_index (fst y))%nat).

End StatisticsSpec.

Module RegistrySpec.

(** The severity [getSeverity] reads back for a registration with this
    severity argument. *)
Definition severity_read (sev : option string) : string :=
  match sev with
  | Some s => if String.eqb s "" then "medium" else s
  | None => "medium"
  end.

End RegistrySpec.

Module BoundarySpec.

(** What calling [props.onError], when there is one, comes to: it returns
    ([None]) or throws. *)
Definition onError_call (onError : ErrorBoundary.OnError) (error : Error)
           (errorInfo : Info) : option Value :=
  match onError with
  | Some callback => callback error errorInfo
  | None => None
  end.

End BoundarySpec.

Module ErrorCenterSpec.

(** The component's list once its listener has received these events in
    order, starting from the initial, empty list. *)
Definition received (maxLogs : Z) (events : list LogEntry.t) : list LogEntry.t :=
  foldl (fun logs logEntry => ErrorCenter.handleExceptionLogged maxLogs logEntry logs)
        [] events.

End ErrorCenterSpec.

Module FetchMoreSpec.
Section WithPlatform.
Context {P : Platform}.

(** A call makes the attempt end in the [catch] clause: the promise is
    rejected, or the response has a success status and a body that cannot
    be parsed. *)
Definition throws (o : FetchOutcome) : bool :=
  match o with
  | Rejected _ => true
  | Responded r =>
      Response.ok r && match Response.json r with inl _ => true | inr _ => false end
  end.

(** How many of the calls number [first], ..., [first + count - 1] with
    request [rq] end in the [catch] clause. *)
Fixpoint thrown_among (rq : Request) (first count : nat) : nat :=
  match count with
  | O => 0
  | S k => (if throws (global_fetch first rq) then 1 else 0) + thrown_among rq (S first) k
  end.

(** The world after an attempt, number [a], that failed with outcome
    [out]: the call has been made, and the failure logged if it was
    thrown. *)
Definition failed_attempt (url : string) (options : SafeFetchOptions) (rq : Request)
           (a : Z) (out : FetchOutcome) (w : World) : World :=
  if throws out
  then after (ExceptionLogger.log (FetchSpec.failure_of out) "safe-fetch"
                (InfoFetch url a options))
             (FetchSpec.fetched_once rq w)
  else FetchSpec.fetched_once rq w.

(** The events of the failed attempts before attempt number [a + k], each
    followed by the delay before the next one, where the next one is still
    within [retryCount]. *)
Definition failed_attempts (rq : Request) (m : SafeFetchOptions) (a : Z) (k : nat)
  : list NetEvent :=
  concat ((fun j => Call rq
                    :: (if SafeFetch.attempt_le j (retryCount m)
                        then [Delay (SafeFetch.backoff (retryDelay m) j)]
                        else []))
            <$> seqZ (a + 1) (Z.of_nat k)).

(** What the program is configured with, and the handler calls made so
    far. *)
Definition configuration (w : World)
  : gmap Key ExceptionHandlerEntry * SafeFetchOptions * nat * LogLevel * list Invocation :=
  (handlers w, defaultOptions w, maxLogEntries w, logLevel w, invoked w).

(** The sum of the timer delays among some events; an undefined delay
    counts for nothing. *)
Definition total_delay (events : list NetEvent) : Z :=
  foldr (fun e acc => match e with
                      | Delay (Some ms) => ms + acc
                      | _ => acc
                      end) 0 events.

End WithPlatform.
End FetchMoreSpec.

(** A platform whose transport rejects the first call and answers every
    later call with status 200 and the document [{"ok": true}]. *)
Definition recovering_platform : Platform :=
  {| global_fetch := fun n _ =>
       match n with
       | O => Rejected (VError (new_TypeError "Failed to fetch"))
       | S _ => Responded (Response.mk 200 [("content-type", "application/json")]%string
                             (inr (JObj [("ok"%string, JBool true)])))
       end;
     crypto_randomUUID := fun n => pretty n;
     Date_now := fun n => Z.of_nat n;
     navigator_environment := example_environment;
     has_window := true;
     JSON_parse := fun _ => inl (new_SyntaxError "Unexpected token");
     JSON_stringify := fun _ => ""%string;
     Date_valueOf := fun _ => None |}.

(** [{ retryCount: -1 }], and a PUT of a document under ['server-wins']
    and under ['client-wins']. *)
Definition no_attempts : SafeFetchOptions :=
  mkOptions (Some (-1)) None None None None None None.

Definition put_server_wins : SafeFetchOptions :=
  mkOptions None None None None None (Some server_wins) (Some "{...}"%string).

Definition put_client_wins : SafeFetchOptions :=
  mkOptions None None None None None (Some client_wins) (Some "{...}"%string).

(** [{ retryCount: 0, fallbackUrl: 'https://backup.example.com/test' }]. *)
Definition no_retry_with_fallback : SafeFetchOptions :=
  mkOptions (Some 0) None None None (Some "https://backup.example.com/test"%string)
            None None.

Module TextSpec.

(** The character [c] occurs in [s]. *)
Fixpoint has_char (c : Ascii.ascii) (s : string) : bool :=
  match s with
  | EmptyString => false
  | String a s' => Ascii.eqb c a || has_char c s'
  end.

(** The characters a decimal numeral is written with. *)
Definition numeral_char (c : Ascii.ascii) : bool := has_char c "-0123456789".

End TextSpec.
(* ===================================================================== *)
(** * Properties *)
(* ===================================================================== *)

(** ** Computations *)

Lemma returns_settles {S A} (m : M S A) : returns m -> settles m.
Proof. intros H s. destruct (H s) as [a Ha]. rewrite Ha. discriminate. Qed.

Lemma ret_returns {S A} (a : A) : returns (ret (S:=S) a).
Proof. intros s. exists a. reflexivity. Qed.

Lemma modify_returns {S} (f : S -> S) : returns (modify f).
Proof. intros s. exists tt. reflexivity. Qed.

Lemma get_state_returns {S} : returns (get_state (S:=S)).
Proof. intros s. exists s. reflexivity. Qed.

Lemma throw_settles {S A} (v : Value) : settles (throw (S:=S) (A:=A) v).
Proof. intros s. discriminate. Qed.

Lemma bind_returns {S A B} (m : M S A) (k : A -> M S B) :
  returns m -> (forall a, returns (k a)) -> returns (bind m k).
Proof.
  unfold returns, settles, outcome, bind in *. intros Hm Hk s.
  specialize (Hm s). destruct (m s) as [o s']. simpl in Hm.
  destruct Hm as [a ->]. apply Hk.
Qed.

Lemma bind_settles {S A B} (m : M S A) (k : A -> M S B) :
  settles m -> (forall a, settles (k a)) -> settles (bind m k).
Proof.
  unfold returns, settles, outcome, bind in *. intros Hm Hk s.
  specialize (Hm s). destruct (m s) as [[a|v|] s']; simpl in *.
  - apply Hk.
  - discriminate.
  - congruence.
Qed.

(** A [try] whose handler always returns, around a block that settles,
    always returns: nothing escapes it. *)
Lemma try_catch_returns {S A} (m : M S A) (h : Value -> M S A) :
  settles m -> (forall v, returns (h v)) -> returns (try_catch m h).
Proof.
  unfold returns, settles, outcome, try_catch in *. intros Hm Hh s.
  specialize (Hm s). destruct (m s) as [[a|v|] s']; simpl in *.
  - exists a. reflexivity.
  - apply Hh.
  - congruence.
Qed.

Lemma try_catch_settles {S A} (m : M S A) (h : Value -> M S A) :
  settles m -> (forall v, settles (h v)) -> settles (try_catch m h).
Proof.
  unfold returns, settles, outcome, try_catch in *. intros Hm Hh s.
  specialize (Hm s). destruct (m s) as [[a|v|] s']; simpl in *.
  - discriminate.
  - apply Hh.
  - congruence.
Qed.

Lemma keeps_ret {S A X} (f : S -> X) (a : A) : keeps f (ret a).
Proof. intros s. reflexivity. Qed.

Lemma keeps_throw {S A X} (f : S -> X) (v : Value) : keeps f (throw (A:=A) v).
Proof. intros s. reflexivity. Qed.

Lemma keeps_bind {S A B X} (f : S -> X) (m : M S A) (k : A -> M S B) :
  keeps f m -> (forall a, keeps f (k a)) -> keeps f (bind m k).
Proof.
  unfold keeps, after, bind. intros Hm Hk s.
  specialize (Hm s). destruct (m s) as [[a|v|] s']; simpl in *.
  - rewrite Hk. exact Hm.
  - exact Hm.
  - exact Hm.
Qed.

Lemma keeps_try_catch {S A X} (f : S -> X) (m : M S A) (h : Value -> M S A) :
  keeps f m -> (forall v, keeps f (h v)) -> keeps f (try_catch m h).
Proof.
  unfold keeps, after, try_catch. intros Hm Hh s.
  specialize (Hm s). destruct (m s) as [[a|v|] s']; simpl in *.
  - exact Hm.
  - rewrite Hh. exact Hm.
  - exact Hm.
Qed.

(** ** Strings *)

Lemma starts_with_spec (p s : string) :
  starts_with p s = true <-> exists post, s = p +:+ post.
Proof.
  revert s. induction p as [|a p IH]; intros s; simpl.
  - split; [intros _; exists s; reflexivity | reflexivity].
  - destruct s as [|b s].
    + split; [discriminate | intros [post H]; discriminate].
    + destruct (Ascii.eqb_spec a b) as [->|Hab].
      * rewrite IH. split; intros [post H]; exists post.
        -- simpl. now rewrite H.
        -- simpl in H. now injection H.
      * split; [discriminate | intros [post H]; simpl in H; injection H as H1 H2; congruence].
Qed.

Lemma includes_spec (s sub : string) :
  includes s sub = true <-> contains s sub.
Proof.
  unfold contains. induction s as [|c s IH]; simpl.
  - rewrite orb_false_r, starts_with_spec. split.
    + intros [post H]. exists ""%string, post. exact H.
    + intros [pre [post H]]. destruct pre; simpl in H.
      * exists post. exact H.
      * discriminate.
  - rewrite orb_true_iff, starts_with_spec, IH. split.
    + intros [[post H] | [pre [post H]]].
      * exists ""%string, post. exact H.
      * exists (String c pre), post. simpl. now rewrite H.
    + intros [pre [post H]]. destruct pre as [|c' pre]; simpl in H.
      * left. exists post. exact H.
      * right. exists pre, post. now injection H.
Qed.

(** ** The classifiers *)

Module ClassifierProps.
Import Classifier.

(** C9. An exception whose name is "TypeError" and whose message contains
    "null" is classified [NULL_POINTER], by the log's classifier and by the
    registry's alike, whatever else the message contains: the test on
    "null" is the first one made. *)
Theorem typeerror_null_is_null_pointer (e : Error) :
  name e = "TypeError"%string ->
  contains (message e) "null" ->
  determineExceptionType e = NULL_POINTER
  /\ mapErrorToExceptionType e = NULL_POINTER.
Proof.
  intros Hname Hmsg. apply includes_spec in Hmsg.
  unfold determineExceptionType, mapErrorToExceptionType.
  rewrite Hname, Hmsg. simpl. split; reflexivity.
Qed.

Lemma typeerror_null_is_null_pointer_witness :
  determineExceptionType
    (new_TypeError "null is not a function; fetch JSON memory") = NULL_POINTER
  /\ mapErrorToExceptionType
    (new_TypeError "null is not a function; fetch JSON memory") = NULL_POINTER.
Proof.
  apply typeerror_null_is_null_pointer.
  - reflexivity.
  - exists ""%string, " is not a function; fetch JSON memory"%string. reflexivity.
Defined.

(** The two classifiers differ only in their last test. *)
Lemma mapError_determine (e : Error) :
  mapErrorToExceptionType e =
    if negb (String.eqb (name e) "TypeError")
       && bool_decide (determineExceptionType e = GENERAL_ERROR)
       && spec_rule_9 e
    then RESOURCE_ERROR
    else determineExceptionType e.
Proof.
  unfold mapErrorToExceptionType, determineExceptionType, spec_rule_9.
  repeat (match goal with
          | |- context [if ?b then _ else _] =>
              lazymatch b with
              | context [if _ then _ else _] => fail
              | _ => destruct b eqn:?
              end
          end; simpl; try reflexivity; try discriminate).
Qed.

(** When none of the rules 1 to 8 applies, the log's classifier answers
    [GENERAL_ERROR]; for a name other than "TypeError" the converse holds
    too. *)
Lemma determine_general_of_rules (e : Error) :
  spec_rules_1_8 e = None -> determineExceptionType e = GENERAL_ERROR.
Proof.
  unfold spec_rules_1_8, determineExceptionType.
  destruct (String.eqb (name e) "TypeError"); simpl.
  - destruct (includes (message e) "null" || includes (message e) "undefined");
      [discriminate|].
    destruct (includes (message e) "is not a function"); [discriminate|].
    reflexivity.
  - repeat (match goal with
            | |- context [if ?b then _ else _] => destruct b
            end; try discriminate; try reflexivity).
Qed.

Lemma rules_of_determine_general (e : Error) :
  String.eqb (name e) "TypeError" = false ->
  determineExceptionType e = GENERAL_ERROR -> spec_rules_1_8 e = None.
Proof.
  unfold spec_rules_1_8, determineExceptionType. intros ->. simpl.
  repeat (match goal with
          | |- context [if ?b then _ else _] => destruct b
          end; try discriminate; try reflexivity).
Qed.

(** Where the two classifiers differ.  They agree on every exception but
    these: the name is not "TypeError", none of the rules 1 to 8 applies,
    and the message contains "memory" or "DOM"; there the registry's
    classifier answers [RESOURCE_ERROR] and the log's [GENERAL_ERROR]. *)
Lemma classifiers_differ_only_at_rule_9 (e : Error) :
  (name e <> "TypeError"%string ->
   spec_rules_1_8 e = None ->
   contains (message e) "memory" \/ contains (message e) "DOM" ->
   mapErrorToExceptionType e = RESOURCE_ERROR
   /\ determineExceptionType e = GENERAL_ERROR)
  /\ (mapErrorToExceptionType e <> determineExceptionType e ->
      name e <> "TypeError"%string
      /\ spec_rules_1_8 e = None
      /\ (contains (message e) "memory" \/ contains (message e) "DOM")).
Proof.
  assert (H9 : spec_rule_9 e = true <->
               contains (message e) "memory" \/ contains (message e) "DOM").
  { unfold spec_rule_9. rewrite orb_true_iff, !includes_spec. reflexivity. }
  split.
  - intros Hname Hrules Hmsg. apply H9 in Hmsg.
    pose proof (determine_general_of_rules e Hrules) as Hgen.
    rewrite mapError_determine, Hgen, Hmsg.
    apply String.eqb_neq in Hname. rewrite Hname.
    rewrite bool_decide_eq_true_2 by reflexivity. simpl. split; reflexivity.
  - rewrite mapError_determine. intros Hne.
    destruct (String.eqb (name e) "TypeError") eqn:Hname; simpl in Hne;
      [congruence|].
    destruct (bool_decide (determineExceptionType e = GENERAL_ERROR)) eqn:Hgen;
      simpl in Hne; [|congruence].
    destruct (spec_rule_9 e) eqn:Hr9; [|congruence].
    apply bool_decide_eq_true_1 in Hgen.
    split; [now apply String.eqb_neq|].
    split; [now apply rules_of_determine_general|].
    now apply H9.
Qed.

(** A [TypeError] that matches neither rule 1 nor rule 2 leaves the chain
    of tests at once: the registry's classifier never looks for "memory". *)
Lemma rule_9_asymmetry_counterexample :
  ~ rule_9_asymmetry_as_stated (new_TypeError "out of memory").
Proof.
  intros H.
  destruct H as [Hmap _].
  - reflexivity.
  - left. exists "out of "%string, ""%string. reflexivity.
  - vm_compute in Hmap. discriminate.
Qed.

Lemma classifiers_differ_only_at_rule_9_witness :
  mapErrorToExceptionType (new_Error "out of memory") = RESOURCE_ERROR
  /\ determineExceptionType (new_Error "out of memory") = GENERAL_ERROR.
Proof.
  apply (proj1 (classifiers_differ_only_at_rule_9 (new_Error "out of memory"))).
  - discriminate.
  - reflexivity.
  - left. exists "out of "%string, ""%string. reflexivity.
Defined.

(** In both classifiers the tests that follow the two for a [TypeError]
    hang off the [else] of [if (error.name === 'TypeError')]: an exception
    named "TypeError" that passes neither of the two gets [GENERAL_ERROR]
    from both, whatever else its message contains. *)
Lemma typeerror_skips_the_later_rules (e : Error) :
  name e = "TypeError"%string ->
  includes (message e) "null" = false ->
  includes (message e) "undefined" = false ->
  includes (message e) "is not a function" = false ->
  mapErrorToExceptionType e = GENERAL_ERROR
  /\ determineExceptionType e = GENERAL_ERROR.
Proof.
  intros Hname Hnull Hundef Hfn.
  unfold mapErrorToExceptionType, determineExceptionType.
  rewrite Hname, Hnull, Hundef, Hfn. split; reflexivity.
Qed.

(** C10, at [new TypeError('out of memory')].  None of the rules 1 to 8
    matches it and its message contains "memory", yet the registry's
    classifier answers [GENERAL_ERROR], as the log's does: the test for
    "memory" is never reached for an exception named "TypeError".  The same
    message under the name "Error" is classified [RESOURCE_ERROR] by the
    registry.  The tests of the rules before it are skipped in the same
    way: [new TypeError('Failed to fetch')] is [GENERAL_ERROR] for both
    classifiers, [new Error('Failed to fetch')] is [NETWORK_ERROR]. *)
Lemma typeerror_never_reaches_rule_9 :
  spec_rules_1_8 (new_TypeError "out of memory") = None
  /\ spec_rule_9 (new_TypeError "out of memory") = true
  /\ mapErrorToExceptionType (new_TypeError "out of memory") = GENERAL_ERROR
  /\ determineExceptionType (new_TypeError "out of memory") = GENERAL_ERROR
  /\ mapErrorToExceptionType (new_Error "out of memory") = RESOURCE_ERROR
  /\ mapErrorToExceptionType (new_TypeError "Failed to fetch") = GENERAL_ERROR
  /\ determineExceptionType (new_TypeError "Failed to fetch") = GENERAL_ERROR
  /\ mapErrorToExceptionType (new_Error "Failed to fetch") = NETWORK_ERROR
  /\ determineExceptionType (new_Error "Failed to fetch") = NETWORK_ERROR.
Proof. repeat split; vm_compute; reflexivity. Qed.

End ClassifierProps.

(** ** The log *)

Module LogProps.
Import LogSpec.
Section WithPlatform.
Context {P : Platform}.

(** Running [log] on an explicit world, by cases on what it tests. *)
Ltac run_log :=
  unfold outcome, after, ExceptionLogger.log, ExceptionLogger.getEnvironmentInfo,
    ExceptionLogger.initializeEnvironmentInfo,
    ExceptionLogger.consoleLog, ExceptionLogger.sendToErrorCenter,
    ExceptionLogger.shift, new_entry, first_environment, bind, ret, modify, get_state;
  cbn;
  repeat (match goal with
          | |- context [match ?o with Some _ => _ | None => _ end] =>
              is_var o; destruct o
          | |- context [if ?b then _ else _] => destruct b eqn:?
          | |- context [match ?x with level_debug => _ | _ => _ end] =>
              is_var x; destruct x
          end; cbn);
  try reflexivity.

(** A log write returns, for every value of the model. *)
Lemma log_outcome (v : Value) (c : string) (i : Info) (w : World) :
  outcome (ExceptionLogger.log v c i) w = Ret tt.
Proof. destruct w. run_log. Qed.

(** The buffer after a write: the new record is pushed, and the oldest one
    is shifted out when the length exceeds the cap. *)
Lemma log_logEntries (v : Value) (c : string) (i : Info) (w : World) :
  logEntries (after (ExceptionLogger.log v c i) w) =
    let l := logEntries w ++ [new_entry w v c i] in
    if (maxLogEntries w <? length l)%nat then tail l else l.
Proof. destruct w. run_log. Qed.

(** What a log write leaves alone. *)
Lemma log_frame (v : Value) (c : string) (i : Info) (w : World) :
  let w' := after (ExceptionLogger.log v c i) w in
  maxLogEntries w' = maxLogEntries w
  /\ handlers w' = handlers w
  /\ defaultOptions w' = defaultOptions w
  /\ logLevel w' = logLevel w
  /\ fetched w' = fetched w
  /\ network w' = network w
  /\ invoked w' = invoked w
  /\ written w' = S (written w).
Proof. destruct w. run_log; repeat split. Qed.

(** A log write, as a step from one world to the next. *)
Lemma log_run (v : Value) (c : string) (i : Info) (w : World) :
  ExceptionLogger.log v c i w = (Ret tt, after (ExceptionLogger.log v c i) w).
Proof.
  pose proof (log_outcome v c i w) as Hout. unfold outcome, after in *.
  destruct (ExceptionLogger.log v c i w) as [out w']. cbn in *. subst out. reflexivity.
Qed.

Lemma keep_last_length {A} (n : nat) (l : list A) :
  (length (keep_last n l) <= n)%nat.
Proof. unfold keep_last. rewrite length_drop. lia. Qed.

Lemma keep_last_app {A} (n : nat) (a b : list A) :
  keep_last n (keep_last n a ++ b) = keep_last n (a ++ b).
Proof.
  unfold keep_last.
  rewrite <- (drop_app_le a b (length a - n)) by lia.
  rewrite drop_drop. f_equal.
  rewrite length_drop, !length_app. lia.
Qed.

Lemma push_shift_keep_last {A} (n : nat) (l : list A) (x : A) :
  (length l <= n)%nat ->
  (let l' := l ++ [x] in if (n <? length l')%nat then tail l' else l')
  = keep_last n (l ++ [x]).
Proof.
  intros Hlen. cbv zeta. unfold keep_last. rewrite length_app. simpl.
  destruct (Nat.ltb_spec n (length l + 1)) as [Hlt|Hge].
  - replace (length l + 1 - n)%nat with 1%nat by lia.
    destruct l; reflexivity.
  - replace (length l + 1 - n)%nat with 0%nat by lia. reflexivity.
Qed.

(** Running a sequence of writes is running them one after the other. *)
Lemma after_log_all_cons (v : Value) (c : string) (i : Info)
      (rest : list Input) (w : World) :
  after (log_all ((v, c, i) :: rest)) w
  = after (log_all rest) (after (ExceptionLogger.log v c i) w).
Proof.
  pose proof (log_outcome v c i w) as H.
  unfold after, outcome in *. simpl. unfold bind.
  destruct (ExceptionLogger.log v c i w) as [o w']. simpl in *. subst o.
  reflexivity.
Qed.

(** Whatever is written, the buffer holds the [maxLogEntries] most recent
    records, oldest first. *)
Lemma log_all_logEntries (inputs : list Input) (w : World) :
  (length (logEntries w) <= maxLogEntries w)%nat ->
  logEntries (after (log_all inputs) w)
  = keep_last (maxLogEntries w) (logEntries w ++ records w inputs).
Proof.
  revert w. induction inputs as [|[[v c] i] rest IH]; intros w Hlen.
  - simpl. rewrite app_nil_r. unfold keep_last.
    replace (length (logEntries w) - maxLogEntries w)%nat with 0%nat by lia.
    reflexivity.
  - rewrite after_log_all_cons.
    pose proof (log_logEntries v c i w) as Hstep.
    rewrite push_shift_keep_last in Hstep by exact Hlen.
    destruct (log_frame v c i w) as [Hmax _]. cbv zeta in Hmax.
    rewrite IH.
    + rewrite Hmax, Hstep, keep_last_app, <- app_assoc. reflexivity.
    + rewrite Hmax, Hstep. apply keep_last_length.
Qed.

(** The [k]-th record of a sequence of writes carries the [k]-th
    identifier drawn from the platform. *)
Lemma records_id (inputs : list Input) (w : World) (k : nat) (e : LogEntry.t) :
  records w inputs !! k = Some e ->
  LogEntry.id e = crypto_randomUUID (written w + k).
Proof.
  revert w k. induction inputs as [|[[v c] i] rest IH]; intros w k Hk; [discriminate|].
  destruct k as [|k]; simpl in Hk.
  - injection Hk as <-. simpl. rewrite Nat.add_0_r. reflexivity.
  - apply IH in Hk. rewrite Hk.
    destruct (log_frame v c i w) as (_ & _ & _ & _ & _ & _ & _ & Hwr).
    cbv zeta in Hwr. rewrite Hwr. f_equal. lia.
Qed.

(** C8. The log keeps at most [maxLogEntries] records, 1000 in a freshly
    loaded program: a write into a buffer within the cap leaves it within
    the cap; and 1001 writes into an empty buffer with cap 1000 leave
    exactly 1000 records, namely all the records written but the first,
    in the order they were written (most recent last); the first record
    is gone (identifiers being distinct). *)
Theorem log_is_bounded_fifo :
  maxLogEntries initial_world = 1000%nat
  /\ (forall (w : World) (v : Value) (c : string) (i : Info),
        (length (logEntries w) <= maxLogEntries w)%nat ->
        let w' := after (ExceptionLogger.log v c i) w in
        (length (logEntries w') <= maxLogEntries w')%nat)
  /\ (forall (w : World) (inputs : list Input),
        logEntries w = [] ->
        maxLogEntries w = 1000%nat ->
        length inputs = 1001%nat ->
        let w' := after (log_all inputs) w in
        logEntries w' = tail (records w inputs)
        /\ length (logEntries w') = 1000%nat
        /\ ((forall a b, crypto_randomUUID a = crypto_randomUUID b -> a = b) ->
            forall oldest, head (records w inputs) = Some oldest ->
                           oldest ∉ logEntries w')).
Proof.
  split; [reflexivity|]. split.
  - intros w v c i Hlen w'. subst w'.
    destruct (log_frame v c i w) as [Hmax _]. cbv zeta in Hmax.
    rewrite Hmax, log_logEntries, push_shift_keep_last by exact Hlen.
    apply keep_last_length.
  - intros w inputs Hempty Hmax Hn w'. subst w'.
    assert (Hrec : forall (l : list Input) (w0 : World),
               length (records w0 l) = length l).
    { induction l as [|[[v c] i] l IH]; intros w0; simpl; [|rewrite IH]; reflexivity. }
    rewrite log_all_logEntries by (rewrite Hempty; simpl; lia).
    rewrite Hempty, Hmax. simpl. unfold keep_last.
    rewrite Hrec, Hn.
    replace (1001 - 1000)%nat with 1%nat by lia.
    split; [|split].
    + destruct (records w inputs); reflexivity.
    + rewrite length_drop, Hrec, Hn. lia.
    + intros Hinj oldest Hhd Hin.
      apply list_elem_of_lookup in Hin. destruct Hin as [k Hk].
      rewrite lookup_drop in Hk.
      apply records_id in Hk.
      rewrite head_lookup in Hhd. apply records_id in Hhd.
      rewrite Hhd in Hk. apply Hinj in Hk. lia.
Qed.

End WithPlatform.
End LogProps.

(** ** Dispatch: the registry and the interceptor *)

Module DispatchProps.
Import DispatchSpec.
Section WithPlatform.
Context {P : Platform}.

(** A convertible value is inserted as [String] gives it. *)
Lemma ToString_convertible (thrown : Value) :
  convertible thrown = true -> ToString thrown = inr (String_of thrown).
Proof. destruct thrown; try reflexivity. discriminate. Qed.

Lemma ToString_not_convertible (thrown : Value) :
  convertible thrown = false -> exists e, ToString thrown = inl e.
Proof. destruct thrown; try discriminate. intros _. eexists. reflexivity. Qed.

(** The [catch] clause of a handler call: it throws when the thrown value
    cannot be converted, and writes the report otherwise. *)
Lemma log_handler_failure_run (thrown error : Value) (c : string) (i : Info)
      (w : World) :
  ExceptionRegistry.log_handler_failure thrown error c i w =
    match ToString thrown with
    | inl e => (Throw (VError e), w)
    | inr _ =>
        ExceptionLogger.log (failure_report thrown) "handler-failure"
          (InfoHandlerFailure error c i) w
    end.
Proof. destruct thrown; reflexivity. Qed.

(** The handler [ExceptionRegistry.handleException] settles on. *)
Lemma registry_dispatch_run (e : Error) (c : string) (i : Info) (w : World) :
  ExceptionRegistry.handleException e c i w =
    match
      match ExceptionRegistry.getHandler (KFunction (constructor e)) w with
      | Some h => Some h
      | None =>
          ExceptionRegistry.getHandler
            (KType (Classifier.mapErrorToExceptionType e)) w
      end
    with
    | None => (Ret tt, w)
    | Some h =>
        match handler_call h (VError e) c i with
        | None => (Ret tt, called h (VError e) c i w)
        | Some thrown =>
            match ToString thrown with
            | inl e' => (Throw (VError e'), called h (VError e) c i w)
            | inr _ =>
                ExceptionLogger.log (failure_report thrown) "handler-failure"
                  (InfoHandlerFailure (VError e) c i) (called h (VError e) c i w)
            end
        end
    end.
Proof.
  unfold ExceptionRegistry.handleException. unfold bind at 1. unfold get_state at 1.
  destruct (ExceptionRegistry.getHandler (KFunction (constructor e)) w) as [h|];
    [|destruct (ExceptionRegistry.getHandler
                  (KType (Classifier.mapErrorToExceptionType e)) w) as [h|]];
    try reflexivity;
    unfold try_catch, ExceptionRegistry.call_handler, bind, modify;
    fold (called h (VError e) c i w);
    (destruct (handler_call h (VError e) c i) as [thrown|]; [|reflexivity]);
    unfold throw; apply log_handler_failure_run.
Qed.

(** What [ExceptionInterceptor.handleException] does with a value that has
    a constructor. *)
Lemma interceptor_dispatch_run (v : Value) (fn : Function) (c : string)
      (i : Info) (w : World) :
  constructor_value v = Some fn ->
  ExceptionInterceptor.handleException v c i w =
    match ExceptionRegistry.getHandler (KFunction fn) w with
    | None => ExceptionLogger.log v c i w
    | Some h =>
        match handler_call h v c i with
        | None => (Ret tt, called h v c i w)
        | Some thrown =>
            match ToString thrown with
            | inl e => (Throw (VError e), called h v c i w)
            | inr _ =>
                ExceptionLogger.log v c i
                  (after (ExceptionLogger.log (failure_report thrown) "handler-failure"
                            (InfoHandlerFailure v c i))
                         (called h v c i w))
            end
        end
    end.
Proof.
  intros Hfn.
  assert (Hc : ExceptionInterceptor.constructor_of v = ret fn).
  { destruct v; simpl in Hfn; try discriminate; injection Hfn as <-; reflexivity. }
  unfold ExceptionInterceptor.handleException. rewrite Hc.
  unfold ExceptionRegistry.call_handler, bind, try_catch, modify, get_state, throw, ret.
  destruct (ExceptionRegistry.getHandler (KFunction fn) w) as [h|]; [|reflexivity].
  fold (called h v c i w).
  destruct (handler_call h v c i) as [thrown|]; [|reflexivity].
  rewrite log_handler_failure_run.
  destruct (ToString thrown) as [e|s]; [reflexivity|].
  pose proof (LogProps.log_outcome (failure_report thrown) "handler-failure"
                (InfoHandlerFailure v c i) (called h v c i w)) as Hout.
  unfold after, outcome in *.
  destruct (ExceptionLogger.log (failure_report thrown) "handler-failure"
              (InfoHandlerFailure v c i) (called h v c i w)) as [o w1].
  simpl in Hout. subst o. reflexivity.
Qed.

(** [ExceptionRegistry.handleException] looks a handler up under the
    exception's constructor first; only when there is none does it classify
    the exception and look one up under the resulting [ExceptionType].  So
    a handler registered under the constructor is the one (and the only
    one) called, whatever is registered under the kind; a handler
    registered under kind K is called for an exception classified K that
    has no handler under its constructor; with neither, no handler runs. *)
Theorem dispatch_prefers_constructor_then_kind
        (w : World) (e : Error) (c : string) (i : Info) :
  let by_constructor := ExceptionRegistry.getHandler (KFunction (constructor e)) w in
  let by_kind :=
    ExceptionRegistry.getHandler (KType (Classifier.mapErrorToExceptionType e)) w in
  let w' := after (ExceptionRegistry.handleException e c i) w in
  (forall h, by_constructor = Some h ->
             invoked w' = invoked w ++ [mkInvocation (handler_ref h) (VError e) c i])
  /\ (forall h, by_constructor = None -> by_kind = Some h ->
                invoked w' = invoked w ++ [mkInvocation (handler_ref h) (VError e) c i])
  /\ (by_constructor = None -> by_kind = None -> invoked w' = invoked w).
Proof.
  cbv zeta. unfold after. rewrite registry_dispatch_run.
  assert (Hcall : forall h,
    invoked (snd match handler_call h (VError e) c i with
                 | None => (Ret tt, called h (VError e) c i w)
                 | Some thrown =>
                     match ToString thrown with
                     | inl e' => (Throw (VError e'), called h (VError e) c i w)
                     | inr _ =>
                         ExceptionLogger.log (failure_report thrown) "handler-failure"
                           (InfoHandlerFailure (VError e) c i) (called h (VError e) c i w)
                     end
                 end)
    = invoked w ++ [mkInvocation (handler_ref h) (VError e) c i]).
  { intros h. destruct (handler_call h (VError e) c i) as [thrown|]; [|reflexivity].
    destruct (ToString thrown); [reflexivity|].
    destruct (LogProps.log_frame (failure_report thrown) "handler-failure"
                (InfoHandlerFailure (VError e) c i) (called h (VError e) c i w))
      as (_ & _ & _ & _ & _ & _ & Hinv & _).
    exact Hinv. }
  repeat split.
  - intros h ->. apply Hcall.
  - intros h -> ->. apply Hcall.
  - intros -> ->. reflexivity.
Qed.

(** The interceptor's own [handleException] consults the constructor key
    only: a handler registered under a kind is not called by it. *)
Lemma interceptor_ignores_kind_handlers
      (w : World) (v : Value) (fn : Function) (c : string) (i : Info) :
  constructor_value v = Some fn ->
  ExceptionRegistry.getHandler (KFunction fn) w = None ->
  invoked (after (ExceptionInterceptor.handleException v c i) w) = invoked w.
Proof.
  intros Hfn Hnone. unfold after.
  rewrite (interceptor_dispatch_run v fn c i w Hfn), Hnone.
  destruct (LogProps.log_frame v c i w) as (_ & _ & _ & _ & _ & _ & Hinv & _).
  exact Hinv.
Qed.

(** A handler that throws, when dispatch calls it, a value that can be
    converted to a string: dispatch still returns normally; the handler has
    been called once and no other handler is called; and the log has been
    written exactly once, with a record whose context is "handler-failure"
    and that carries the original exception, context and extra
    information.  In the interceptor's [handleException] the same holds of
    the handler-failure record, which is followed by the record of the
    exception itself. *)
Lemma failing_handler_is_isolated
      (w : World) (h : ExceptionHandler) (c : string) (i : Info) (thrown : Value) :
  convertible thrown = true ->
  (forall e : Error,
      ExceptionRegistry.getHandler (KFunction (constructor e)) w = Some h
      \/ (ExceptionRegistry.getHandler (KFunction (constructor e)) w = None
          /\ ExceptionRegistry.getHandler
               (KType (Classifier.mapErrorToExceptionType e)) w = Some h) ->
      handler_call h (VError e) c i = Some thrown ->
      let dispatch := ExceptionRegistry.handleException e c i in
      outcome dispatch w = Ret tt
      /\ after dispatch w
         = after (ExceptionLogger.log (failure_report thrown) "handler-failure"
                    (InfoHandlerFailure (VError e) c i))
                 (called h (VError e) c i w)
      /\ invoked (after dispatch w)
         = invoked w ++ [mkInvocation (handler_ref h) (VError e) c i]
      /\ written (after dispatch w) = S (written w)
      /\ logEntries (after dispatch w)
         = (let l := logEntries w
                     ++ [LogSpec.new_entry w (failure_report thrown) "handler-failure"
                           (InfoHandlerFailure (VError e) c i)] in
            if (maxLogEntries w <? length l)%nat then tail l else l))
  /\ (forall (v : Value) (fn : Function),
        constructor_value v = Some fn ->
        ExceptionRegistry.getHandler (KFunction fn) w = Some h ->
        handler_call h v c i = Some thrown ->
        let dispatch := ExceptionInterceptor.handleException v c i in
        outcome dispatch w = Ret tt
        /\ after dispatch w
           = after (ExceptionLogger.log v c i)
               (after (ExceptionLogger.log (failure_report thrown) "handler-failure"
                         (InfoHandlerFailure v c i))
                      (called h v c i w))
        /\ invoked (after dispatch w)
           = invoked w ++ [mkInvocation (handler_ref h) v c i]
        /\ written (after dispatch w) = S (S (written w))).
Proof.
  intros Hconv. apply ToString_convertible in Hconv. split.
  - intros e Hsel Hthrow dispatch. subst dispatch.
    unfold outcome, after. rewrite registry_dispatch_run.
    assert (Hh : match ExceptionRegistry.getHandler (KFunction (constructor e)) w with
                 | Some h0 => Some h0
                 | None => ExceptionRegistry.getHandler
                             (KType (Classifier.mapErrorToExceptionType e)) w
                 end = Some h).
    { destruct Hsel as [->|[-> ->]]; reflexivity. }
    rewrite Hh, Hthrow, Hconv.
    set (w1 := called h (VError e) c i w).
    pose proof (LogProps.log_outcome (failure_report thrown) "handler-failure"
                  (InfoHandlerFailure (VError e) c i) w1) as Hout.
    pose proof (LogProps.log_logEntries (failure_report thrown) "handler-failure"
                  (InfoHandlerFailure (VError e) c i) w1) as Hent.
    destruct (LogProps.log_frame (failure_report thrown) "handler-failure"
                (InfoHandlerFailure (VError e) c i) w1)
      as (_ & _ & _ & _ & _ & _ & Hinv & Hwr).
    unfold outcome, after in *.
    repeat split; try assumption.
  - intros v fn Hfn Hget Hthrow dispatch. subst dispatch.
    unfold outcome, after.
    rewrite (interceptor_dispatch_run v fn c i w Hfn), Hget, Hthrow, Hconv.
    set (w1 := called h v c i w).
    set (w2 := after (ExceptionLogger.log (failure_report thrown) "handler-failure"
                        (InfoHandlerFailure v c i)) w1).
    destruct (LogProps.log_frame (failure_report thrown) "handler-failure"
                (InfoHandlerFailure v c i) w1)
      as (_ & _ & _ & _ & _ & _ & Hinv1 & Hwr1).
    destruct (LogProps.log_frame v c i w2) as (_ & _ & _ & _ & _ & _ & Hinv2 & Hwr2).
    pose proof (LogProps.log_outcome v c i w2) as Hout.
    unfold outcome, after in *. fold w2 in Hinv1, Hwr1.
    repeat split.
    + exact Hout.
    + rewrite Hinv2. exact Hinv1.
    + rewrite Hwr2. f_equal. exact Hwr1.
Qed.

(** A handler that throws, when dispatch calls it, a value that cannot be
    converted to a string (a symbol): the [catch] clause throws while it
    builds the report, so dispatch throws a [TypeError] to its caller, and
    nothing has been written to the log. *)
Lemma unconvertible_failure_escapes
      (w : World) (h : ExceptionHandler) (c : string) (i : Info) (thrown : Value)
      (t : Error) :
  ToString thrown = inl t ->
  (forall e : Error,
      ExceptionRegistry.getHandler (KFunction (constructor e)) w = Some h
      \/ (ExceptionRegistry.getHandler (KFunction (constructor e)) w = None
          /\ ExceptionRegistry.getHandler
               (KType (Classifier.mapErrorToExceptionType e)) w = Some h) ->
      handler_call h (VError e) c i = Some thrown ->
      ExceptionRegistry.handleException e c i w
      = (Throw (VError t), called h (VError e) c i w))
  /\ (forall (v : Value) (fn : Function),
        constructor_value v = Some fn ->
        ExceptionRegistry.getHandler (KFunction fn) w = Some h ->
        handler_call h v c i = Some thrown ->
        ExceptionInterceptor.handleException v c i w
        = (Throw (VError t), called h v c i w)).
Proof.
  intros Hconv. split.
  - intros e Hsel Hthrow. rewrite registry_dispatch_run.
    destruct Hsel as [->|[-> ->]]; rewrite Hthrow, Hconv; reflexivity.
  - intros v fn Hfn Hget Hthrow.
    rewrite (interceptor_dispatch_run v fn c i w Hfn), Hget, Hthrow, Hconv.
    reflexivity.
Qed.

(** C7, as the code has it.  A value with a constructor that enters the
    interceptor's [handleException].  When dispatch finds no handler, it
    returns with the value logged directly, under its own context.  When
    the handler it finds returns, dispatch returns and nothing is written
    to the log.  When that handler throws a value that can be converted to
    a string, dispatch returns with the handler-failure record written and
    the value itself logged after it.  When that handler throws a value
    that cannot be converted, dispatch does not return: it throws. *)
Theorem interceptor_logs_unless_handled
        (w : World) (v : Value) (fn : Function) (c : string) (i : Info) :
  constructor_value v = Some fn ->
  let dispatch := ExceptionInterceptor.handleException v c i in
  let found := ExceptionRegistry.getHandler (KFunction fn) w in
  (found = None ->
   outcome dispatch w = Ret tt
   /\ after dispatch w = after (ExceptionLogger.log v c i) w
   /\ written (after dispatch w) = S (written w)
   /\ logEntries (after dispatch w)
      = (let l := logEntries w ++ [LogSpec.new_entry w v c i] in
         if (maxLogEntries w <? length l)%nat then tail l else l))
  /\ (forall h, found = Some h ->
                handler_call h v c i = None ->
                outcome dispatch w = Ret tt
                /\ after dispatch w = called h v c i w
                /\ written (after dispatch w) = written w
                /\ logEntries (after dispatch w) = logEntries w)
  /\ (forall h thrown,
         found = Some h ->
         handler_call h v c i = Some thrown ->
         convertible thrown = true ->
         outcome dispatch w = Ret tt
         /\ after dispatch w
            = after (ExceptionLogger.log v c i)
                (after (ExceptionLogger.log (failure_report thrown) "handler-failure"
                          (InfoHandlerFailure v c i))
                       (called h v c i w))
         /\ written (after dispatch w) = S (S (written w)))
  /\ (forall h thrown,
         found = Some h ->
         handler_call h v c i = Some thrown ->
         convertible thrown = false ->
         exists t, dispatch w = (Throw t, called h v c i w)).
Proof.
  intros Hfn dispatch found. subst dispatch found. unfold outcome, after.
  rewrite (interceptor_dispatch_run v fn c i w Hfn).
  split; [|split; [|split]].
  - intros ->.
    pose proof (LogProps.log_outcome v c i w) as Hout.
    pose proof (LogProps.log_logEntries v c i w) as Hent.
    destruct (LogProps.log_frame v c i w) as (_ & _ & _ & _ & _ & _ & _ & Hwr).
    unfold outcome, after in *. repeat split; assumption.
  - intros h -> ->. repeat split.
  - intros h thrown -> -> Hconv. rewrite (ToString_convertible thrown Hconv).
    set (w2 := after (ExceptionLogger.log (failure_report thrown) "handler-failure"
                        (InfoHandlerFailure v c i)) (called h v c i w)).
    destruct (LogProps.log_frame (failure_report thrown) "handler-failure"
                (InfoHandlerFailure v c i) (called h v c i w))
      as (_ & _ & _ & _ & _ & _ & _ & Hwr1).
    destruct (LogProps.log_frame v c i w2) as (_ & _ & _ & _ & _ & _ & _ & Hwr2).
    fold w2 in Hwr1.
    split; [apply LogProps.log_outcome|]. split; [reflexivity|].
    change (written (after (ExceptionLogger.log v c i) w2) = S (S (written w))).
    rewrite Hwr2. f_equal. exact Hwr1.
  - intros h thrown -> -> Hconv.
    destruct (ToString_not_convertible thrown Hconv) as [t ->].
    eexists. reflexivity.
Qed.

(** [ExceptionRegistry.handleException] by itself never logs the exception
    it dispatches: with no handler it leaves the world as it was. *)
Lemma registry_dispatch_without_handler
      (w : World) (e : Error) (c : string) (i : Info) :
  ExceptionRegistry.getHandler (KFunction (constructor e)) w = None ->
  ExceptionRegistry.getHandler (KType (Classifier.mapErrorToExceptionType e)) w = None ->
  ExceptionRegistry.handleException e c i w = (Ret tt, w).
Proof. intros H1 H2. rewrite registry_dispatch_run, H1, H2. reflexivity. Qed.

(** Reading [error.constructor] of [null] or [undefined] throws before
    anything is looked up or logged. *)
Lemma interceptor_dispatch_of_nullish (w : World) (v : Value) (c : string) (i : Info) :
  constructor_value v = None ->
  exists t : Value,
    ExceptionInterceptor.handleException v c i w = (Throw t, w).
Proof.
  destruct v; simpl; try discriminate; intros _; eexists; reflexivity.
Qed.

End WithPlatform.
End DispatchProps.

Lemma log_is_bounded_fifo_witness :
  logEntries (after (LogSpec.log_all (P:=rejecting_platform) booms) initial_world)
  = tail (LogSpec.records (P:=rejecting_platform) initial_world booms)
  /\ length (logEntries
               (after (LogSpec.log_all (P:=rejecting_platform) booms) initial_world))
     = 1000%nat.
Proof.
  destruct (proj2 (proj2 (LogProps.log_is_bounded_fifo (P:=rejecting_platform)))
              initial_world booms eq_refl eq_refl eq_refl) as (Hentries & Hlength & _).
  split; [exact Hentries | exact Hlength].
Defined.

Section DispatchExamples.
Import DispatchSpec.
#[local] Existing Instance rejecting_platform.

Lemma dispatch_prefers_constructor_then_kind_witness :
  invoked (after (ExceptionRegistry.handleException null_read "test-context" InfoNone)
                 (world_with (KType NULL_POINTER) quiet_handler))
  = [mkInvocation (handler_ref quiet_handler) (VError null_read) "test-context" InfoNone].
Proof.
  apply (proj1 (proj2 (DispatchProps.dispatch_prefers_constructor_then_kind
                         (world_with (KType NULL_POINTER) quiet_handler)
                         null_read "test-context" InfoNone)) quiet_handler);
    reflexivity.
Defined.

Lemma failing_handler_is_isolated_witness :
  outcome (ExceptionRegistry.handleException null_read "test-context" InfoNone)
          (world_with (KType NULL_POINTER) failing_handler) = Ret tt
  /\ written (after (ExceptionRegistry.handleException null_read "test-context" InfoNone)
                    (world_with (KType NULL_POINTER) failing_handler)) = 1%nat.
Proof.
  destruct (proj1 (DispatchProps.failing_handler_is_isolated
                     (world_with (KType NULL_POINTER) failing_handler)
                     failing_handler "test-context" InfoNone
                     (VError (new_Error "handler broke")) eq_refl)
                  null_read)
    as (Hout & _ & _ & Hwr & _).
  - right. split; reflexivity.
  - reflexivity.
  - split; [exact Hout | exact Hwr].
Defined.

(** A handler registered under [TypeError] that returns: the interceptor
    hands it the exception and writes nothing to the log. *)
Lemma dispatch_always_logs_counterexample :
  ~ dispatch_always_logs_as_stated
      (world_with (KFunction TypeError_ctor) quiet_handler)
      (VError null_read) "test-context" InfoNone.
Proof.
  unfold dispatch_always_logs_as_stated. vm_compute. lia.
Qed.

Lemma interceptor_logs_unless_handled_witness :
  logEntries (after (ExceptionInterceptor.handleException
                       (VError null_read) "test-context" InfoNone)
                    (world_with (KFunction TypeError_ctor) quiet_handler)) = []
  /\ length (logEntries (after (ExceptionInterceptor.handleException
                       (VError null_read) "test-context" InfoNone)
                    initial_world)) = 1%nat.
Proof.
  pose proof (DispatchProps.interceptor_logs_unless_handled
                (world_with (KFunction TypeError_ctor) quiet_handler)
                (VError null_read) TypeError_ctor "test-context" InfoNone eq_refl)
    as Hquiet.
  pose proof (DispatchProps.interceptor_logs_unless_handled
                initial_world
                (VError null_read) TypeError_ctor "test-context" InfoNone eq_refl)
    as Hnone.
  cbv zeta in Hquiet, Hnone.
  destruct Hquiet as (_ & Hquiet & _). destruct Hnone as (Hnone & _).
  split.
  - apply (Hquiet quiet_handler); reflexivity.
  - destruct (Hnone eq_refl) as (_ & _ & _ & ->). reflexivity.
Defined.

(** C5, at the interceptor.  A handler is registered under the kind
    [NULL_POINTER] and none under [TypeError]; the exception is classified
    [NULL_POINTER].  [ExceptionRegistry.handleException] calls the handler;
    [ExceptionInterceptor.handleException], which looks handlers up under
    the constructor only, does not call it and logs the exception. *)
Lemma interceptor_skips_kind_handler :
  let w := world_with (KType NULL_POINTER) quiet_handler in
  Classifier.mapErrorToExceptionType null_read = NULL_POINTER
  /\ ExceptionRegistry.getHandler (KFunction (constructor null_read)) w = None
  /\ ExceptionRegistry.getHandler (KType NULL_POINTER) w = Some quiet_handler
  /\ invoked (after (ExceptionRegistry.handleException
                       null_read "test-context" InfoNone) w)
     = [mkInvocation (handler_ref quiet_handler) (VError null_read)
                     "test-context" InfoNone]
  /\ invoked (after (ExceptionInterceptor.handleException
                       (VError null_read) "test-context" InfoNone) w) = []
  /\ length (logEntries (after (ExceptionInterceptor.handleException
                                  (VError null_read) "test-context" InfoNone) w))
     = 1%nat.
Proof. cbv zeta. repeat split; vm_compute; reflexivity. Qed.

(** C6, at a handler that throws a symbol.  The handler is registered
    under [TypeError] and throws [Symbol('boom')] when it is called.  Both
    [ExceptionRegistry.handleException] and
    [ExceptionInterceptor.handleException] call it, and then throw a
    [TypeError] to their caller: the [catch] clause fails while it builds
    the message of the report, and no record, neither the handler-failure
    record nor any other, has been written to the log. *)
Lemma handler_throwing_symbol_escapes :
  let w := world_with (KFunction TypeError_ctor) symbol_handler in
  let escaped := VError (new_TypeError "Cannot convert a Symbol value to a string") in
  let by_registry := ExceptionRegistry.handleException null_read "test-context" InfoNone in
  let by_interceptor :=
    ExceptionInterceptor.handleException (VError null_read) "test-context" InfoNone in
  ExceptionRegistry.getHandler (KFunction (constructor null_read)) w = Some symbol_handler
  /\ handler_call symbol_handler (VError null_read) "test-context" InfoNone
     = Some (VSymbol "boom")
  /\ outcome by_registry w = Throw escaped
  /\ invoked (after by_registry w)
     = [mkInvocation (handler_ref symbol_handler) (VError null_read)
                     "test-context" InfoNone]
  /\ logEntries (after by_registry w) = []
  /\ written (after by_registry w) = 0%nat
  /\ outcome by_interceptor w = Throw escaped
  /\ logEntries (after by_interceptor w) = []
  /\ written (after by_interceptor w) = 0%nat.
Proof. cbv zeta. repeat split; vm_compute; reflexivity. Qed.

End DispatchExamples.

(** ** The request engine returns a result *)

Module FetchTotal.
Section WithPlatform.
Context {P : Platform}.

Lemma log_returns (v : Value) (c : string) (i : Info) :
  returns (ExceptionLogger.log v c i).
Proof. intros w. exists tt. apply LogProps.log_outcome. Qed.

Lemma in_world_returns {A} (m : M World A) :
  returns m -> returns (SafeFetch.in_world m).
Proof.
  unfold returns, outcome, SafeFetch.in_world. intros H [w l]. simpl.
  specialize (H w). destruct (m w) as [o w']. exact H.
Qed.

Lemma in_world_settles {A} (m : M World A) :
  settles m -> settles (SafeFetch.in_world m).
Proof.
  unfold settles, outcome, SafeFetch.in_world. intros H [w l]. simpl.
  specialize (H w). destruct (m w) as [o w']. exact H.
Qed.

(** Settling is proved by following the structure of the code. *)
Ltac settle :=
  repeat first
    [ progress intros
    | apply returns_settles, log_returns
    | apply in_world_settles
    | apply try_catch_settles
    | apply throw_settles
    | apply returns_settles, ret_returns
    | apply returns_settles, modify_returns
    | apply returns_settles, get_state_returns
    | apply bind_settles
    | match goal with
      | |- settles (match ?x with _ => _ end) => destruct x
      | |- settles (if ?b then _ else _) => destruct b
      end ].

Lemma global_fetch_call_settles (url : string) (b : option string) :
  settles (SafeFetch.global_fetch_call url b).
Proof. unfold SafeFetch.global_fetch_call. settle. Qed.

Lemma response_json_settles {S} (r : Response.t) :
  settles (SafeFetch.response_json (S:=S) r).
Proof. unfold SafeFetch.response_json. settle. Qed.

Lemma handleConflict_settles (url : string) (m : SafeFetchOptions) (r : Response.t) :
  settles (SafeFetch.handleConflict url m r).
Proof.
  unfold SafeFetch.handleConflict. settle;
    try apply response_json_settles; try apply global_fetch_call_settles.
Qed.

(** One turn of the loop body always ends at its [return] or falls
    through: the [catch] clause takes every thrown value. *)
Lemma attempt_once_returns (url : string) (o m : SafeFetchOptions) :
  returns (SafeFetch.attempt_once url o m).
Proof.
  unfold SafeFetch.attempt_once. apply try_catch_returns.
  - settle; try apply response_json_settles;
      try apply global_fetch_call_settles; try apply handleConflict_settles.
  - intros v. unfold SafeFetch.assign, SafeFetch.locals.
    repeat (apply bind_returns; [|intros]).
    + apply modify_returns.
    + intros s. eexists. reflexivity.
    + apply in_world_returns, log_returns.
    + apply ret_returns.
Qed.

(** The part after the loop always returns a result. *)
Lemma after_loop_returns (o m : SafeFetchOptions) (l : SafeFetch.Locals) :
  returns (SafeFetch.after_loop o m l).
Proof.
  unfold SafeFetch.after_loop. apply bind_returns.
  - destruct (SafeFetch.truthy_string (fallbackUrl m)); [|apply ret_returns].
    apply try_catch_returns.
    + settle; try apply response_json_settles; apply global_fetch_call_settles.
    + intros v. apply bind_returns; [apply log_returns | intros; apply ret_returns].
  - intros [r|]; [apply ret_returns|].
    destruct (fallbackData m); apply ret_returns.
Qed.

(** The loop body does not touch [attempt]. *)
Lemma attempt_once_keeps_attempt (url : string) (o m : SafeFetchOptions) :
  keeps (fun s : SafeFetch.Frame => SafeFetch.attempt (snd s))
        (SafeFetch.attempt_once url o m).
Proof.
  assert (Hin : forall A (c : M World A),
             keeps (fun s : SafeFetch.Frame => SafeFetch.attempt (snd s))
                   (SafeFetch.in_world c)).
  { intros A c [w l]. unfold after, SafeFetch.in_world. simpl.
    destruct (c w). reflexivity. }
  assert (Hjson : forall r,
             keeps (fun s : SafeFetch.Frame => SafeFetch.attempt (snd s))
                   (SafeFetch.response_json r)).
  { intros r. unfold SafeFetch.response_json.
    destruct (Response.json r); [apply keeps_throw | apply keeps_ret]. }
  unfold SafeFetch.attempt_once.
  repeat first
    [ progress intros
    | apply Hin
    | apply Hjson
    | apply keeps_ret
    | apply keeps_try_catch
    | apply keeps_bind
    | match goal with
      | |- keeps _ (match ?x with _ => _ end) => destruct x
      | |- keeps _ (if ?b then _ else _) => destruct b
      | |- keeps _ (SafeFetch.assign _) => intros [? ?]; reflexivity
      | |- keeps _ SafeFetch.locals => intros [? ?]; reflexivity
      end ].
Qed.

(** One turn of the loop, spelled out. *)
Lemma retry_loop_step (fuel : nat) (url : string) (o m : SafeFetchOptions)
      (w : World) (l : SafeFetch.Locals) :
  SafeFetch.retry_loop (S fuel) url o m (w, l) =
    if SafeFetch.attempt_le (SafeFetch.attempt l) (retryCount m) then
      match SafeFetch.attempt_once url o m (w, l) with
      | (Ret (SafeFetch.Return r), s1) => (Ret (Some r), s1)
      | (Ret SafeFetch.Continue, (w1, l1)) =>
          let l2 := SafeFetch.set_attempt (SafeFetch.attempt l1 + 1) l1 in
          let w2 :=
            if SafeFetch.attempt_le (SafeFetch.attempt l2) (retryCount m)
            then after (SafeFetch.delay
                          (SafeFetch.backoff (retryDelay m) (SafeFetch.attempt l2))) w1
            else w1 in
          SafeFetch.retry_loop fuel url o m (w2, l2)
      | (Throw v, s1) => (Throw v, s1)
      | (OutOfFuel, s1) => (OutOfFuel, s1)
      end
    else (Ret None, (w, l)).
Proof.
  cbn [SafeFetch.retry_loop].
  unfold bind at 1. unfold SafeFetch.locals at 1. cbn [snd].
  destruct (SafeFetch.attempt_le (SafeFetch.attempt l) (retryCount m)); [|reflexivity].
  unfold bind at 1.
  destruct (SafeFetch.attempt_once url o m (w, l)) as [[[r|]|v|] [w1 l1]];
    try reflexivity.
  unfold bind, SafeFetch.assign, SafeFetch.locals, modify. cbn [fst snd].
  destruct (SafeFetch.attempt_le _ (retryCount m)); reflexivity.
Qed.

(** The turns the loop still has to make. *)
Lemma retry_loop_returns (fuel : nat) (url : string) (o m : SafeFetchOptions)
      (w : World) (l : SafeFetch.Locals) :
  (match retryCount m with
   | Some n => Z.to_nat (n + 1 - SafeFetch.attempt l)
   | None => 0%nat
   end < fuel)%nat ->
  exists r, outcome (SafeFetch.retry_loop fuel url o m) (w, l) = Ret r.
Proof.
  revert w l. induction fuel as [|fuel IH]; intros w l Hfuel; [lia|].
  unfold outcome. rewrite retry_loop_step.
  destruct (SafeFetch.attempt_le (SafeFetch.attempt l) (retryCount m)) eqn:Hle;
    [|eexists; reflexivity].
  destruct (attempt_once_returns url o m (w, l)) as [flow Hflow].
  pose proof (attempt_once_keeps_attempt url o m (w, l)) as Hatt.
  unfold outcome, after in *.
  destruct (SafeFetch.attempt_once url o m (w, l)) as [out [w1 l1]].
  simpl in Hflow, Hatt. subst out.
  destruct flow as [r|]; [eexists; reflexivity|].
  cbv zeta. apply IH. simpl. rewrite Hatt.
  unfold SafeFetch.attempt_le in Hle.
  destruct (retryCount m) as [n|]; [|discriminate].
  apply Z.leb_le in Hle. lia.
Qed.

(** Fuel beyond what the loop needs changes nothing. *)
Lemma retry_loop_fuel (fuel fuel' : nat) (url : string) (o m : SafeFetchOptions)
      (s : SafeFetch.Frame) :
  outcome (SafeFetch.retry_loop fuel url o m) s <> OutOfFuel ->
  (fuel <= fuel')%nat ->
  SafeFetch.retry_loop fuel' url o m s = SafeFetch.retry_loop fuel url o m s.
Proof.
  revert fuel' s. induction fuel as [|fuel IH]; intros fuel' [w l] Hout Hle.
  - exfalso. apply Hout. reflexivity.
  - destruct fuel' as [|fuel']; [lia|].
    unfold outcome in Hout. rewrite retry_loop_step in Hout.
    rewrite !retry_loop_step.
    destruct (SafeFetch.attempt_le (SafeFetch.attempt l) (retryCount m)); [|reflexivity].
    destruct (SafeFetch.attempt_once url o m (w, l)) as [[[r|]|v|] [w1 l1]];
      try reflexivity.
    cbv zeta in *. apply IH; [exact Hout | lia].
Qed.

(** The [catch] clause of the loop: the thrown value becomes [lastError],
    it is logged, and the turn falls through. *)
Lemma catch_clause_run (url : string) (o : SafeFetchOptions) (v : Value)
      (w : World) (l : SafeFetch.Locals) :
  (SafeFetch.assign (SafeFetch.set_lastError v) ;;;
   l <- SafeFetch.locals ;;
   SafeFetch.in_world
     (ExceptionLogger.log v "safe-fetch" (InfoFetch url (SafeFetch.attempt l) o)) ;;;
   ret SafeFetch.Continue) (w, l)
  = (Ret SafeFetch.Continue,
     (after (ExceptionLogger.log v "safe-fetch" (InfoFetch url (SafeFetch.attempt l) o)) w,
      SafeFetch.set_lastError v l)).
Proof.
  unfold bind, SafeFetch.assign, SafeFetch.locals, modify, SafeFetch.in_world.
  cbn [fst snd SafeFetch.attempt SafeFetch.set_lastError].
  pose proof (LogProps.log_outcome v "safe-fetch"
                (InfoFetch url (SafeFetch.attempt l) o) w) as Hout.
  unfold outcome, after in *.
  destruct (ExceptionLogger.log v "safe-fetch"
              (InfoFetch url (SafeFetch.attempt l) o) w) as [out w1].
  simpl in Hout. subst out. reflexivity.
Qed.

(** With enough fuel for the loop, [fetch] returns a result. *)
Lemma fetch_with_returns (fuel : nat) (url : string) (o : SafeFetchOptions) (w : World) :
  (SafeFetch.turns (retryCount (spread (defaultOptions w) o)) < fuel)%nat ->
  exists r, outcome (SafeFetch.fetch_with fuel url o) w = Ret r.
Proof.
  intros Hfuel. unfold outcome, SafeFetch.fetch_with.
  set (m := spread (defaultOptions w) o) in *.
  destruct (retry_loop_returns fuel url o m w (SafeFetch.mkLocals 0 None None None))
    as [r Hr].
  { cbn [SafeFetch.attempt]. unfold SafeFetch.turns in Hfuel.
    destruct (retryCount m); [|exact Hfuel].
    replace (z + 1 - 0) with (z + 1) by lia. exact Hfuel. }
  unfold outcome in Hr.
  destruct (SafeFetch.retry_loop fuel url o m (w, SafeFetch.mkLocals 0 None None None))
    as [out [w' l']].
  simpl in Hr. subst out.
  destruct r as [r|].
  - exists r. reflexivity.
  - apply (after_loop_returns o m l' w').
Qed.

(** In the model [SafeFetch.fetch] returns a [SafeFetchResponse], whatever
    the URL, the options, the state of the program and the behaviour of the
    transport: every throwing operation sits inside a [try] whose [catch]
    clause logs and goes on, and the loop ends after [retryCount + 1] turns.
    Giving the loop more fuel than [fetch] gives it does not change the
    result.  This is about the values and options of the model: a log
    write returns for each of them, and [retryCount] is an integer. *)
Lemma fetch_always_returns (url : string) (options : SafeFetchOptions) (w : World) :
  (exists r : SafeFetchResponse.t, outcome (SafeFetch.fetch url options) w = Ret r)
  /\ (forall fuel : nat,
        (SafeFetch.turns (retryCount (spread (defaultOptions w) options)) < fuel)%nat ->
        SafeFetch.fetch_with fuel url options w = SafeFetch.fetch url options w).
Proof.
  split.
  - apply fetch_with_returns. lia.
  - intros fuel Hfuel. unfold SafeFetch.fetch, SafeFetch.fetch_with.
    set (m := spread (defaultOptions w) options) in *.
    rewrite (retry_loop_fuel (S (SafeFetch.turns (retryCount m))) fuel); [reflexivity| |lia].
    destruct (retry_loop_returns (S (SafeFetch.turns (retryCount m))) url options m w
                (SafeFetch.mkLocals 0 None None None)) as [r Hr].
    + cbn [SafeFetch.attempt]. unfold SafeFetch.turns.
      destruct (retryCount m); [|lia].
      replace (z + 1 - 0) with (z + 1) by lia. lia.
    + rewrite Hr. discriminate.
Qed.

End WithPlatform.
End FetchTotal.

(** ** The request engine against a transport that always fails *)

Module FetchProps.
Import FetchSpec.
Section WithPlatform.
Context {P : Platform}.

Lemma in_world_run {A} (m : M World A) (w : World) (l : SafeFetch.Locals) :
  SafeFetch.in_world m (w, l) = (outcome m w, (after m w, l)).
Proof. unfold SafeFetch.in_world, outcome, after. simpl. destruct (m w). reflexivity. Qed.

(** The world once the global [fetch] has been called with [rq]. *)
Lemma global_fetch_call_run (url : string) (b : option string) (w : World) :
  SafeFetch.global_fetch_call url b w =
    (match global_fetch (fetched w) (mkRequest url b) with
     | Rejected reason => Throw reason
     | Responded r => Ret r
     end,
     set_fetched (S (fetched w)) (set_network (network w ++ [Call (mkRequest url b)]) w)).
Proof.
  unfold SafeFetch.global_fetch_call, bind, get_state, modify. cbn.
  destruct (global_fetch (fetched w) (mkRequest url b)); reflexivity.
Qed.

(** A failing attempt falls through to [attempt++]: the failure is
    recorded in the locals, one call has been made, and nothing else has
    gone over the network. *)
Lemma attempt_once_fails (url : string) (o m : SafeFetchOptions)
      (w : World) (l : SafeFetch.Locals) :
  fails (global_fetch (fetched w) (mkRequest url (body m))) = true ->
  exists w1,
    SafeFetch.attempt_once url o m (w, l)
    = (Ret SafeFetch.Continue,
       (w1, record_failure (global_fetch (fetched w) (mkRequest url (body m))) l))
    /\ network w1 = network w ++ [Call (mkRequest url (body m))]
    /\ fetched w1 = S (fetched w)
    /\ defaultOptions w1 = defaultOptions w.
Proof.
  intros Hfail.
  unfold SafeFetch.attempt_once, try_catch.
  unfold bind at 1. rewrite in_world_run.
  unfold outcome, after. rewrite global_fetch_call_run. cbn [fst snd].
  set (w0 := set_fetched _ _).
  destruct (global_fetch (fetched w) (mkRequest url (body m))) as [reason|r];
    simpl in Hfail.
  - unfold bind, SafeFetch.assign, SafeFetch.locals, modify. cbn [fst snd].
    rewrite in_world_run, LogProps.log_outcome.
    eexists. split; [reflexivity|].
    destruct (LogProps.log_frame reason "safe-fetch"
                (InfoFetch url (SafeFetch.attempt (SafeFetch.set_lastError reason l)) o) w0)
      as (_ & _ & Hdef & _ & Hfet & Hnet & _).
    rewrite Hnet, Hfet, Hdef. repeat split.
  - unfold record_failure, failure_of.
    destruct (Response.ok r) eqn:Hok.
    + destruct (Response.json r) as [reason|j] eqn:Hjson; [|discriminate].
      unfold bind, SafeFetch.assign, SafeFetch.locals, modify,
        SafeFetch.response_json. rewrite Hjson. cbn [fst snd throw].
      rewrite in_world_run, LogProps.log_outcome.
      eexists. split; [reflexivity|].
      match goal with
      | |- context [after (ExceptionLogger.log ?v ?c ?i) ?w] =>
          destruct (LogProps.log_frame v c i w) as (_ & _ & Hdef & _ & Hfet & Hnet & _)
      end.
      rewrite Hnet, Hfet, Hdef. repeat split.
    + apply negb_true_iff in Hfail.
      unfold bind, SafeFetch.assign, SafeFetch.locals, modify. rewrite Hfail.
      cbn [fst snd andb ret].
      eexists. split; [reflexivity|]. repeat split.
Qed.

(** Scanning the calls for the most recent response, from either end. *)
Lemma last_response_first (rq : Request) (first count : nat) :
  last_response rq first (S count)
  = match last_response rq (S first) count with
    | Some r => Some r
    | None => response_of (global_fetch first rq)
    end.
Proof.
  induction count as [|k IH].
  - simpl. rewrite Nat.add_0_r. destruct (global_fetch first rq); reflexivity.
  - change (last_response rq first (S (S k)))
      with (match global_fetch (first + S k) rq with
            | Responded r => Some r
            | Rejected _ => last_response rq first (S k)
            end).
    change (last_response rq (S first) (S k))
      with (match global_fetch (S first + k) rq with
            | Responded r => Some r
            | Rejected _ => last_response rq (S first) k
            end).
    replace (first + S k)%nat with (S first + k)%nat by lia.
    destruct (global_fetch (S first + k) rq); [exact IH | reflexivity].
Qed.

(** The events of the attempts [a], [a+1], ... when [k] of them remain. *)
Lemma retry_loop_always_fails (url : string) (o m : SafeFetchOptions) (rc : Z) :
  let rq := mkRequest url (body m) in
  let later a k :=
    match k with
    | O => []
    | S k' =>
        Call rq
        :: concat ((fun j => [Delay (SafeFetch.backoff (retryDelay m) j); Call rq])
                     <$> seqZ (a + 1) (Z.of_nat k'))
    end in
  retryCount m = Some rc ->
  (forall n, fails (global_fetch n rq) = true) ->
  forall (k fuel : nat) (w : World) (l : SafeFetch.Locals),
    SafeFetch.attempt l + Z.of_nat k = rc + 1 ->
    (k < fuel)%nat ->
    exists w' l',
      SafeFetch.retry_loop fuel url o m (w, l) = (Ret None, (w', l'))
      /\ network w' = network w ++ later (SafeFetch.attempt l) k
      /\ fetched w' = (fetched w + k)%nat
      /\ defaultOptions w' = defaultOptions w
      /\ SafeFetch.lastError l'
         = match k with
           | O => SafeFetch.lastError l
           | S k' => defined (failure_of (global_fetch (fetched w + k') rq))
           end
      /\ SafeFetch.lastStatus l'
         = match last_response rq (fetched w) k with
           | Some r => Some (Response.status r)
           | None => SafeFetch.lastStatus l
           end
      /\ SafeFetch.lastHeaders l'
         = match last_response rq (fetched w) k with
           | Some r => Some (Response.headers r)
           | None => SafeFetch.lastHeaders l
           end.
Proof.
  intros rq later Hrc Hfails k.
  induction k as [|k IH]; intros fuel w l Hk Hfuel;
    (destruct fuel as [|fuel]; [lia|]); rewrite FetchTotal.retry_loop_step;
    unfold SafeFetch.attempt_le; rewrite Hrc.
  - destruct (Z.leb_spec (SafeFetch.attempt l) rc) as [Hle|Hgt]; [lia|].
    exists w, l. simpl. rewrite app_nil_r, Nat.add_0_r. repeat split.
  - destruct (Z.leb_spec (SafeFetch.attempt l) rc) as [Hle|Hgt]; [|lia].
    destruct (attempt_once_fails url o m w l (Hfails (fetched w)))
      as (w1 & Hrun & Hnet1 & Hfet1 & Hdef1).
    fold rq in Hrun, Hnet1. rewrite Hrun. cbv zeta.
    set (l1 := record_failure (global_fetch (fetched w) rq) l).
    assert (Hatt1 : SafeFetch.attempt l1 = SafeFetch.attempt l).
    { unfold l1, record_failure. destruct (global_fetch (fetched w) rq); reflexivity. }
    set (l2 := SafeFetch.set_attempt (SafeFetch.attempt l1 + 1) l1).
    set (w2 := if SafeFetch.attempt l2 <=? rc
               then after (SafeFetch.delay
                             (SafeFetch.backoff (retryDelay m) (SafeFetch.attempt l2))) w1
               else w1).
    assert (Hatt2 : SafeFetch.attempt l2 = SafeFetch.attempt l + 1).
    { unfold l2, SafeFetch.set_attempt. cbn [SafeFetch.attempt]. rewrite Hatt1. reflexivity. }
    destruct (IH fuel w2 l2) as (w' & l' & Hloop & Hnet & Hfet & Hdef & Herr & Hst & Hhd);
      [lia | lia |].
    exists w', l'. split; [exact Hloop|].
    assert (Hw2 : network w2
                  = network w1
                    ++ match k with
                       | O => []
                       | S _ => [Delay (SafeFetch.backoff (retryDelay m)
                                          (SafeFetch.attempt l + 1))]
                       end
                  /\ fetched w2 = fetched w1 /\ defaultOptions w2 = defaultOptions w1).
    { unfold w2. rewrite Hatt2.
      destruct (Z.leb_spec (SafeFetch.attempt l + 1) rc) as [Hle2|Hgt2].
      - destruct k as [|k']; [lia|].
        unfold after, SafeFetch.delay, modify. simpl. repeat split.
      - destruct k as [|k']; [|lia]. rewrite app_nil_r. repeat split. }
    destruct Hw2 as (Hnet2 & Hfet2 & Hdef2).
    repeat split.
    + rewrite Hnet, Hnet2, Hnet1, Hatt2. unfold later.
      destruct k as [|k'].
      * simpl. rewrite !app_nil_r. reflexivity.
      * rewrite (seqZ_cons (SafeFetch.attempt l + 1) (Z.of_nat (S k'))) by lia.
        rewrite fmap_cons. cbn [concat].
        replace (Z.pred (Z.of_nat (S k'))) with (Z.of_nat k') by lia.
        replace (Z.succ (SafeFetch.attempt l + 1)) with (SafeFetch.attempt l + 1 + 1) by lia.
        rewrite <- !app_assoc. reflexivity.
    + rewrite Hfet, Hfet2, Hfet1. lia.
    + rewrite Hdef, Hdef2, Hdef1. reflexivity.
    + rewrite Herr, Hfet2, Hfet1. destruct k as [|k'].
      * rewrite Nat.add_0_r. reflexivity.
      * replace (S (fetched w) + k')%nat with (fetched w + S k')%nat by lia.
        reflexivity.
    + rewrite Hst, Hfet2, Hfet1, last_response_first.
      destruct (last_response rq (S (fetched w)) k); [reflexivity|].
      unfold l2, l1, record_failure.
      destruct (global_fetch (fetched w) rq); reflexivity.
    + rewrite Hhd, Hfet2, Hfet1, last_response_first.
      destruct (last_response rq (S (fetched w)) k); [reflexivity|].
      unfold l2, l1, record_failure.
      destruct (global_fetch (fetched w) rq); reflexivity.
Qed.

(** After the loop: the only traffic is the one call to the fallback URL,
    when there is one. *)
Lemma after_loop_network (o m : SafeFetchOptions) (l : SafeFetch.Locals) (w : World) :
  network (after (SafeFetch.after_loop o m l) w) = network w ++ fallback_call m.
Proof.
  unfold after, SafeFetch.after_loop, fallback_call, bind, try_catch.
  destruct (SafeFetch.truthy_string (fallbackUrl m)).
  - rewrite global_fetch_call_run.
    set (w0 := set_fetched _ _).
    destruct (global_fetch (fetched w) _) as [reason|r].
    + match goal with
      | |- context [ExceptionLogger.log ?v ?c ?i ?w] =>
          pose proof (LogProps.log_outcome v c i w) as Ho;
          destruct (LogProps.log_frame v c i w) as (_ & _ & _ & _ & _ & Hnet & _);
          unfold outcome, after in *;
          destruct (ExceptionLogger.log v c i w) as [out w1] eqn:Hrun
      end.
      simpl in Ho, Hnet. subst out. cbn.
      destruct (fallbackData m); cbn; exact Hnet.
    + destruct (Response.ok r); cbn -[ExceptionLogger.log].
      * unfold SafeFetch.response_json.
        destruct (Response.json r) as [reason|j]; cbn -[ExceptionLogger.log].
        -- match goal with
           | |- context [ExceptionLogger.log ?v ?c ?i ?w] =>
               pose proof (LogProps.log_outcome v c i w) as Ho;
               destruct (LogProps.log_frame v c i w) as (_ & _ & _ & _ & _ & Hnet & _);
               unfold outcome, after in *;
               destruct (ExceptionLogger.log v c i w) as [out w1] eqn:Hrun
           end.
           simpl in Ho, Hnet. subst out. cbn.
           destruct (fallbackData m); cbn; exact Hnet.
        -- reflexivity.
      * destruct (fallbackData m); reflexivity.
  - cbn. rewrite app_nil_r. destruct (fallbackData m); reflexivity.
Qed.

(** After the loop, when the fallback URL (if any) does not succeed: the
    result carries the fallback data, if any, and the locals. *)
Lemma after_loop_degraded (o m : SafeFetchOptions) (l : SafeFetch.Locals) (w : World) :
  (SafeFetch.truthy_string (fallbackUrl m) = true ->
   succeeds (global_fetch (fetched w)
               (mkRequest (default ""%string (fallbackUrl m)) (body m))) = false) ->
  outcome (SafeFetch.after_loop o m l) w
  = Ret {| SafeFetchResponse.data := fallbackData m;
           SafeFetchResponse.error := SafeFetch.lastError l;
           SafeFetchResponse.status := SafeFetch.lastStatus l;
           SafeFetchResponse.headers := SafeFetch.lastHeaders l |}.
Proof.
  intros Hfb.
  unfold outcome, SafeFetch.after_loop, bind, try_catch.
  destruct (SafeFetch.truthy_string (fallbackUrl m)).
  - specialize (Hfb eq_refl). rewrite global_fetch_call_run.
    set (w0 := set_fetched _ _).
    destruct (global_fetch (fetched w) _) as [reason|r]; simpl in Hfb.
    + match goal with
      | |- context [ExceptionLogger.log ?v ?c ?i ?w] =>
          pose proof (LogProps.log_outcome v c i w) as Ho;
          unfold outcome in Ho;
          destruct (ExceptionLogger.log v c i w) as [out w1] eqn:Hrun
      end.
      simpl in Ho. subst out. cbn.
      destruct (fallbackData m); reflexivity.
    + destruct (Response.ok r); cbn -[ExceptionLogger.log].
      * unfold SafeFetch.response_json.
        destruct (Response.json r) as [reason|j]; [|discriminate].
        cbn -[ExceptionLogger.log].
        match goal with
        | |- context [ExceptionLogger.log ?v ?c ?i ?w] =>
            pose proof (LogProps.log_outcome v c i w) as Ho;
            unfold outcome in Ho;
            destruct (ExceptionLogger.log v c i w) as [out w1] eqn:Hrun
        end.
        simpl in Ho. subst out. cbn.
        destruct (fallbackData m); reflexivity.
      * destruct (fallbackData m); reflexivity.
  - cbn. destruct (fallbackData m); reflexivity.
Qed.

(** [fetch] against a transport that always fails, in one statement: the
    loop makes its [retryCount + 1] attempts and falls through to the part
    after the loop. *)
Lemma fetch_always_fails (url : string) (options : SafeFetchOptions) (w : World) (rc : Z) :
  let m := spread (defaultOptions w) options in
  let rq := mkRequest url (body m) in
  retryCount m = Some rc ->
  0 <= rc ->
  (forall n, fails (global_fetch n rq) = true) ->
  exists w1 l1,
    SafeFetch.fetch url options w = SafeFetch.after_loop options m l1 w1
    /\ network w1
       = network w
         ++ Call rq
            :: concat ((fun j => [Delay (SafeFetch.backoff (retryDelay m) j); Call rq])
                         <$> seqZ 1 rc)
    /\ fetched w1 = (fetched w + Z.to_nat (rc + 1))%nat
    /\ SafeFetch.lastError l1
       = defined (failure_of (global_fetch (fetched w + Z.to_nat rc) rq))
    /\ SafeFetch.lastStatus l1
       = Response.status <$> last_response rq (fetched w) (Z.to_nat (rc + 1))
    /\ SafeFetch.lastHeaders l1
       = Response.headers <$> last_response rq (fetched w) (Z.to_nat (rc + 1)).
Proof.
  intros m rq Hrc Hpos Hfails.
  unfold SafeFetch.fetch, SafeFetch.fetch_with. fold m. rewrite Hrc.
  unfold SafeFetch.turns.
  destruct (retry_loop_always_fails url options m rc Hrc Hfails
              (Z.to_nat (rc + 1)) (S (Z.to_nat (rc + 1))) w
              (SafeFetch.mkLocals 0 None None None))
    as (w1 & l1 & Hloop & Hnet & Hfet & _ & Herr & Hst & Hhd).
  { cbn [SafeFetch.attempt]. lia. }
  { lia. }
  rewrite Hloop. exists w1, l1. split; [reflexivity|].
  replace (Z.to_nat (rc + 1)) with (S (Z.to_nat rc)) in * by lia.
  cbn [SafeFetch.attempt SafeFetch.lastStatus SafeFetch.lastHeaders] in *.
  rewrite Z2Nat.id in Hnet by lia.
  repeat split; try assumption.
Qed.

(** The schedule has one call per chunk, and its chunks sit at the even
    positions. *)
Lemma schedule_calls (rq : Request) (d : Z) (ks : list Z) :
  length (filter (fun e => is_call e = true)
            (concat ((fun k => [Delay (Some (d * 2 ^ (k - 1))); Call rq]) <$> ks)))
  = length ks.
Proof.
  induction ks as [|k ks IH]; [reflexivity|].
  rewrite fmap_cons. cbn [concat app].
  rewrite filter_cons_False by (simpl; discriminate).
  rewrite filter_cons_True by reflexivity.
  simpl. rewrite IH. reflexivity.
Qed.

Lemma schedule_lookup (rq : Request) (d : Z) (ks : list Z) (j : nat) (k : Z) :
  ks !! j = Some k ->
  concat ((fun k => [Delay (Some (d * 2 ^ (k - 1))); Call rq]) <$> ks) !! (2 * j)%nat
  = Some (Delay (Some (d * 2 ^ (k - 1))))
  /\ concat ((fun k => [Delay (Some (d * 2 ^ (k - 1))); Call rq]) <$> ks) !! (2 * j + 1)%nat
    = Some (Call rq).
Proof.
  revert j. induction ks as [|k0 ks IH]; intros j Hj; [discriminate|].
  rewrite fmap_cons. cbn [concat app].
  destruct j as [|j].
  - simpl in Hj. injection Hj as ->. split; reflexivity.
  - simpl in Hj. destruct (IH j Hj) as [H1 H2].
    replace (2 * S j)%nat with (S (S (2 * j))) by lia.
    replace (S (S (2 * j)) + 1)%nat with (S (S (2 * j + 1))) by lia.
    split; assumption.
Qed.

(** C1. Against a transport that fails on every call, [fetch] makes
    exactly [retryCount + 1] primary calls before the fallback call (if a
    fallback URL is configured), and waits [retryDelay * 2^(k-1)] before the
    k-th retry, for k = 1 .. retryCount: the traffic it adds is the primary
    schedule followed by the fallback call. *)
Theorem always_failing_transport_schedule
        (url : string) (options : SafeFetchOptions) (w : World) (rc d : Z) :
  let m := spread (defaultOptions w) options in
  let rq := mkRequest url (body m) in
  retryCount m = Some rc ->
  0 <= rc ->
  retryDelay m = Some d ->
  (forall n, fails (global_fetch n rq) = true) ->
  network (after (SafeFetch.fetch url options) w)
  = network w ++ primary_schedule rq d rc ++ fallback_call m
  /\ length (filter (fun e => is_call e = true) (primary_schedule rq d rc))
     = Z.to_nat (rc + 1)
  /\ (forall k, 1 <= k <= rc ->
        primary_schedule rq d rc !! Z.to_nat (2 * k - 1)
        = Some (Delay (Some (d * 2 ^ (k - 1))))
        /\ primary_schedule rq d rc !! Z.to_nat (2 * k) = Some (Call rq)).
Proof.
  intros m rq Hrc Hpos Hd Hfails.
  split; [|split].
  - destruct (fetch_always_fails url options w rc Hrc Hpos Hfails)
      as (w1 & l1 & Hrun & Hnet & _).
    unfold after. rewrite Hrun.
    change (network (after (SafeFetch.after_loop options m l1) w1)
            = network w ++ primary_schedule rq d rc ++ fallback_call m).
    rewrite after_loop_network, Hnet. fold m rq. rewrite Hd.
    unfold primary_schedule, SafeFetch.backoff. cbn [fmap option_fmap option_map].
    rewrite <- app_assoc. reflexivity.
  - unfold primary_schedule.
    rewrite filter_cons_True by reflexivity.
    cbn [length]. rewrite schedule_calls, length_seqZ. lia.
  - intros k Hk. unfold primary_schedule.
    assert (Hlk : seqZ 1 rc !! Z.to_nat (k - 1) = Some k).
    { rewrite lookup_seqZ. split; lia. }
    destruct (schedule_lookup rq d (seqZ 1 rc) (Z.to_nat (k - 1)) k Hlk) as [H1 H2].
    replace (Z.to_nat (2 * k - 1)) with (S (2 * Z.to_nat (k - 1))) by lia.
    replace (Z.to_nat (2 * k)) with (S (2 * Z.to_nat (k - 1) + 1)) by lia.
    split; assumption.
Qed.

(** C3, as the code has it.  Against a transport that fails on every
    primary attempt, and with no success from the fallback URL, [fetch]
    returns the configured fallback data (none if none is configured)
    together with the failure of the last attempt as [error] (the value it
    was raised with: no [error] when that value is [undefined]); [status]
    and [headers] are those of the most recent attempt that got a response,
    absent if no attempt got one. *)
Theorem degraded_result
        (url : string) (options : SafeFetchOptions) (w : World) (rc : Z) :
  let m := spread (defaultOptions w) options in
  let rq := mkRequest url (body m) in
  let fallback := mkRequest (default ""%string (fallbackUrl m)) (body m) in
  retryCount m = Some rc ->
  0 <= rc ->
  (forall n, fails (global_fetch n rq) = true) ->
  (SafeFetch.truthy_string (fallbackUrl m) = true ->
   forall n, succeeds (global_fetch n fallback) = false) ->
  outcome (SafeFetch.fetch url options) w
  = Ret {| SafeFetchResponse.data := fallbackData m;
           SafeFetchResponse.error :=
             defined (failure_of (global_fetch (fetched w + Z.to_nat rc) rq));
           SafeFetchResponse.status :=
             Response.status <$> last_response rq (fetched w) (Z.to_nat (rc + 1));
           SafeFetchResponse.headers :=
             Response.headers <$> last_response rq (fetched w) (Z.to_nat (rc + 1)) |}
  /\ (forall D, fallbackData options = Some D -> fallbackData m = Some D).
Proof.
  intros m rq fallback Hrc Hpos Hfails Hfb. split.
  - destruct (fetch_always_fails url options w rc Hrc Hpos Hfails)
      as (w1 & l1 & Hrun & _ & _ & Herr & Hst & Hhd).
    unfold outcome. rewrite Hrun.
    change (outcome (SafeFetch.after_loop options m l1) w1 = Ret
      {| SafeFetchResponse.data := fallbackData m;
         SafeFetchResponse.error :=
           defined (failure_of (global_fetch (fetched w + Z.to_nat rc) rq));
         SafeFetchResponse.status :=
           Response.status <$> last_response rq (fetched w) (Z.to_nat (rc + 1));
         SafeFetchResponse.headers :=
           Response.headers <$> last_response rq (fetched w) (Z.to_nat (rc + 1)) |}).
    rewrite after_loop_degraded by (intros Hurl; apply Hfb, Hurl).
    rewrite Herr, Hst, Hhd. reflexivity.
  - intros D HD. unfold m, spread. cbn [fallbackData]. rewrite HD. reflexivity.
Qed.

(** ** Conflict resolution *)

(** A document that has an [updatedAt] property is an object, hence truthy. *)
Lemma updatedAt_truthy (j t : json) : SafeFetch.updatedAt j = Some t -> truthy j = true.
Proof. destruct j; simpl; try discriminate. reflexivity. Qed.

(** Under ['timestamp'], with a server body that parses and a client body
    that is absent or parses, [handleConflict] yields the document
    [timestamp_choice] picks, and touches nothing. *)
Lemma handleConflict_timestamp (url : string) (m : SafeFetchOptions) (r : Response.t)
      (w : World) (s : json) (clientData : option json) :
  conflictResolution m = Some timestamp ->
  Response.json r = inr s ->
  sent_document m clientData ->
  SafeFetch.handleConflict url m r w
  = (Ret (Some (SafeFetch.timestamp_choice clientData s)), w).
Proof.
  intros Hcr Hjson Hsent.
  unfold SafeFetch.handleConflict, bind, try_catch, SafeFetch.response_json.
  rewrite Hjson, Hcr. cbn [ret].
  destruct clientData as [c|]; simpl in Hsent.
  - destruct Hsent as [-> ->]. reflexivity.
  - rewrite Hsent. reflexivity.
Qed.

Lemma timestamp_choice_client (c s t1 t2 : json) (T1 T2 : Z) :
  SafeFetch.updatedAt s = Some t1 ->
  SafeFetch.updatedAt c = Some t2 ->
  truthy t1 = true ->
  truthy t2 = true ->
  Date_valueOf t1 = Some T1 ->
  Date_valueOf t2 = Some T2 ->
  T1 < T2 ->
  SafeFetch.timestamp_choice (Some c) s = c.
Proof.
  intros Hs Hc Ht1 Ht2 HT1 HT2 Hlt. unfold SafeFetch.timestamp_choice.
  rewrite (updatedAt_truthy c t2 Hc), (updatedAt_truthy s t1 Hs), Hc, Hs.
  simpl. rewrite Ht1, Ht2. simpl.
  unfold SafeFetch.date_gt. rewrite HT1, HT2.
  destruct (Z.ltb_spec T1 T2); [reflexivity | lia].
Qed.

Lemma timestamp_choice_server (clientData : option json) (s : json) :
  not_comparable clientData s ->
  SafeFetch.timestamp_choice clientData s = s.
Proof.
  unfold not_comparable, SafeFetch.timestamp_choice.
  destruct clientData as [c|]; [|reflexivity].
  intros [Hc | [Hs | (tc & ts & Hc & Hs & Hdate)]].
  - rewrite Hc, andb_false_r. reflexivity.
  - rewrite Hs, andb_false_r. reflexivity.
  - rewrite Hc, Hs.
    destruct (truthy c && truthy s && truthy_opt (Some tc) && truthy_opt (Some ts));
      [|reflexivity].
    unfold SafeFetch.date_gt.
    destruct Hdate as [-> | ->]; [reflexivity|].
    destruct (Date_valueOf tc); reflexivity.
Qed.

(** A 409 whose conflict resolution yields a value ends the loop at once. *)
Lemma retry_loop_conflict_resolved (fuel : nat) (url : string) (o m : SafeFetchOptions)
      (w w2 : World) (l : SafeFetch.Locals) (r : Response.t) (v : json) :
  let rq := mkRequest url (body m) in
  SafeFetch.attempt_le (SafeFetch.attempt l) (retryCount m) = true ->
  global_fetch (fetched w) rq = Responded r ->
  Response.status r = 409 ->
  is_Some (conflictResolution m) ->
  SafeFetch.handleConflict url m r (fetched_once rq w) = (Ret (Some v), w2) ->
  SafeFetch.retry_loop (S fuel) url o m (w, l)
  = (Ret (Some (resolved v r)), (w2, SafeFetch.set_lastResponse r l)).
Proof.
  intros rq Hle Hout H409 Hcr Hres.
  rewrite FetchTotal.retry_loop_step, Hle.
  unfold SafeFetch.attempt_once, try_catch.
  unfold bind at 1. rewrite in_world_run.
  unfold outcome, after. rewrite global_fetch_call_run. fold rq. rewrite Hout.
  cbn [fst snd]. fold (fetched_once rq w).
  unfold bind at 1. unfold SafeFetch.assign at 1, modify at 1. cbn [fst snd].
  assert (Hok : Response.ok r = false).
  { unfold Response.ok. rewrite H409. reflexivity. }
  rewrite Hok. unfold bind at 1.
  rewrite H409. rewrite bool_decide_eq_true_2 by exact Hcr.
  cbn [Z.eqb Pos.eqb andb].
  rewrite in_world_run. unfold outcome, after. rewrite Hres. reflexivity.
Qed.

(** C4, as the code has it.  Conflict resolution under ['timestamp'], for
    a 409 response whose body parses to [s] and a client body that is
    absent or parses: when both documents have an [updatedAt] (a field
    that is present and truthy) and the client's is the later date, the
    client's document is yielded; when either [updatedAt] is missing or the
    two cannot be compared, the server's document is yielded.  Whenever
    conflict resolution (under any strategy) yields a value, the loop is
    left at once and [fetch] returns that value with status 200 and no
    error, in the state conflict resolution left: no delay, no further
    call.  When the body of the response or the client body cannot be
    parsed, conflict resolution yields nothing: the failure is logged under
    'safe-fetch-conflict'. *)
Theorem timestamp_conflict_resolution
        (url : string) (o m : SafeFetchOptions) (w : World) (l : SafeFetch.Locals)
        (r : Response.t) (s : json) :
  let rq := mkRequest url (body m) in
  (conflictResolution m = Some timestamp ->
   Response.json r = inr s ->
   (forall (c t1 t2 : json) (T1 T2 : Z),
       sent_document m (Some c) ->
       SafeFetch.updatedAt s = Some t1 ->
       SafeFetch.updatedAt c = Some t2 ->
       truthy t1 = true ->
       truthy t2 = true ->
       Date_valueOf t1 = Some T1 ->
       Date_valueOf t2 = Some T2 ->
       T1 < T2 ->
       SafeFetch.handleConflict url m r w = (Ret (Some c), w))
   /\ (forall clientData : option json,
         sent_document m clientData ->
         not_comparable clientData s ->
         SafeFetch.handleConflict url m r w = (Ret (Some s), w)))
  /\ (forall (fuel : nat) (v : json) (w2 : World),
        SafeFetch.attempt_le (SafeFetch.attempt l) (retryCount m) = true ->
        global_fetch (fetched w) rq = Responded r ->
        Response.status r = 409 ->
        is_Some (conflictResolution m) ->
        SafeFetch.handleConflict url m r (fetched_once rq w) = (Ret (Some v), w2) ->
        SafeFetch.retry_loop (S fuel) url o m (w, l)
        = (Ret (Some (resolved v r)), (w2, SafeFetch.set_lastResponse r l)))
  /\ (forall (v : json) (w2 : World),
        m = spread (defaultOptions w) o ->
        SafeFetch.attempt_le 0 (retryCount m) = true ->
        global_fetch (fetched w) rq = Responded r ->
        Response.status r = 409 ->
        is_Some (conflictResolution m) ->
        SafeFetch.handleConflict url m r (fetched_once rq w) = (Ret (Some v), w2) ->
        SafeFetch.fetch url o w = (Ret (resolved v r), w2))
  /\ (forall reason,
        Response.json r = inl reason ->
        SafeFetch.handleConflict url m r w
        = (Ret None,
           after (ExceptionLogger.log reason "safe-fetch-conflict"
                    (InfoUrlOptions url m)) w))
  /\ (forall e,
        Response.json r = inr s ->
        SafeFetch.truthy_string (body m) = true ->
        JSON_parse (default ""%string (body m)) = inl e ->
        SafeFetch.handleConflict url m r w
        = (Ret None,
           after (ExceptionLogger.log (VError e) "safe-fetch-conflict"
                    (InfoUrlOptions url m)) w)).
Proof.
  intros rq. split; [|split; [|split; [|split]]].
  - intros Hcr Hjson. split.
    + intros c t1 t2 T1 T2 Hsent Hs Hc Ht1 Ht2 HT1 HT2 Hlt.
      rewrite (handleConflict_timestamp url m r w s (Some c) Hcr Hjson Hsent).
      rewrite (timestamp_choice_client c s t1 t2 T1 T2) by assumption.
      reflexivity.
    + intros clientData Hsent Hnc.
      rewrite (handleConflict_timestamp url m r w s clientData Hcr Hjson Hsent).
      rewrite timestamp_choice_server by exact Hnc.
      reflexivity.
  - intros fuel v w2. apply retry_loop_conflict_resolved.
  - intros v w2 -> Hle Hout H409 Hcr Hres.
    unfold SafeFetch.fetch, SafeFetch.fetch_with.
    rewrite (retry_loop_conflict_resolved _ url o (spread (defaultOptions w) o)
               w w2 (SafeFetch.mkLocals 0 None None None) r v Hle Hout H409 Hcr Hres).
    reflexivity.
  - intros reason Hjson.
    unfold SafeFetch.handleConflict, try_catch, SafeFetch.response_json.
    rewrite Hjson. unfold bind, throw. rewrite LogProps.log_run. reflexivity.
  - intros e Hjson Hbody Hparse.
    unfold SafeFetch.handleConflict, try_catch, SafeFetch.response_json.
    rewrite Hjson, Hbody, Hparse. unfold bind, throw, ret.
    rewrite LogProps.log_run. reflexivity.
Qed.

End WithPlatform.
End FetchProps.

Section FetchExamples.
Import FetchSpec.

Lemma always_failing_transport_schedule_witness :
  network (after (SafeFetch.fetch (P:=rejecting_platform)
                    "https://api.example.com/test" retry_twice) initial_world)
  = [Call (mkRequest "https://api.example.com/test" None); Delay (Some 1000);
     Call (mkRequest "https://api.example.com/test" None); Delay (Some 2000);
     Call (mkRequest "https://api.example.com/test" None)]
  /\ length (filter (fun e => is_call e = true)
               (primary_schedule (mkRequest "https://api.example.com/test" None) 1000 2))
     = 3%nat.
Proof.
  destruct (FetchProps.always_failing_transport_schedule (P:=rejecting_platform)
              "https://api.example.com/test" retry_twice initial_world 2 1000
              eq_refl ltac:(lia) eq_refl (fun _ => eq_refl))
    as (Hnet & Hcalls & _).
  split; [exact Hnet | exact Hcalls].
Defined.

(** The first attempt is answered with status 500, the second one is
    rejected: the result pairs the second attempt's error with the first
    attempt's status. *)
Lemma result_from_last_attempt_counterexample :
  ~ result_from_last_attempt_as_stated (P:=flaky_platform)
      initial_world "https://api.example.com/test" retry_once.
Proof.
  intros H.
  destruct (H 1 eq_refl ltac:(lia)) as (r & Hr & _ & _ & Hst & _).
  - intros [|n]; reflexivity.
  - reflexivity.
  - vm_compute in Hr. injection Hr as <-. discriminate Hst.
Qed.

Lemma degraded_result_witness :
  outcome (SafeFetch.fetch (P:=flaky_platform) "https://api.example.com/test"
             retry_once_with_data) initial_world
  = Ret {| SafeFetchResponse.data := Some (JStr "cached");
           SafeFetchResponse.error := Some (VError (new_TypeError "Failed to fetch"));
           SafeFetchResponse.status := Some 500;
           SafeFetchResponse.headers := Some [("content-type", "text/plain")]%string |}.
Proof.
  refine (proj1 (FetchProps.degraded_result (P:=flaky_platform)
                   "https://api.example.com/test" retry_once_with_data initial_world 1
                   eq_refl ltac:(lia) _ _)).
  - intros [|n]; reflexivity.
  - discriminate.
Defined.

Lemma timestamp_conflict_resolution_witness :
  SafeFetch.handleConflict (P:=conflict_platform) "https://api.example.com/doc"
    (spread (defaultOptions initial_world) put_document) conflict_response
    (fetched_once (mkRequest "https://api.example.com/doc" (Some "{...}"%string))
                  initial_world)
  = (Ret (Some client_document),
     fetched_once (mkRequest "https://api.example.com/doc" (Some "{...}"%string))
                  initial_world)
  /\ SafeFetch.fetch (P:=conflict_platform) "https://api.example.com/doc" put_document
       initial_world
     = (Ret (resolved client_document conflict_response),
        fetched_once (mkRequest "https://api.example.com/doc" (Some "{...}"%string))
                     initial_world).
Proof.
  pose proof (FetchProps.timestamp_conflict_resolution (P:=conflict_platform)
                "https://api.example.com/doc" put_document
                (spread (defaultOptions initial_world) put_document)
                (fetched_once (mkRequest "https://api.example.com/doc" (Some "{...}"%string))
                              initial_world)
                (SafeFetch.mkLocals 0 None None None)
                conflict_response server_document) as (Hconflict & _ & _).
  pose proof (FetchProps.timestamp_conflict_resolution (P:=conflict_platform)
                "https://api.example.com/doc" put_document
                (spread (defaultOptions initial_world) put_document)
                initial_world
                (SafeFetch.mkLocals 0 None None None)
                conflict_response server_document) as (_ & _ & Hfetch & _).
  destruct (Hconflict eq_refl eq_refl) as (Hclient & _).
  assert (H := Hclient client_document (JNum 100) (JNum 200) 100 200
                 (conj eq_refl eq_refl) eq_refl eq_refl eq_refl eq_refl eq_refl eq_refl
                 eq_refl).
  split; [exact H|].
  apply Hfetch.
  - reflexivity.
  - reflexivity.
  - reflexivity.
  - reflexivity.
  - eexists; reflexivity.
  - exact H.
Defined.

(** The client body is not JSON: under ['timestamp'] conflict resolution
    yields nothing, not the server body. *)
Lemma server_body_when_updatedAt_missing_counterexample :
  ~ server_body_when_updatedAt_missing_as_stated (P:=rejecting_platform)
      initial_world "https://api.example.com/doc"
      (spread (defaultOptions initial_world) put_document) conflict_response
      server_document.
Proof.
  intros H. specialize (H eq_refl eq_refl (or_introl eq_refl)).
  vm_compute in H. discriminate H.
Qed.


End FetchExamples.

(* ===================================================================== *)
(** * Further properties of the same code *)
(* ===================================================================== *)

(** ** The log: what a write leaves in the buffer and what it announces *)

Module LogMore.
Import LogSpec.
Section WithPlatform.
Context {P : Platform}.

(** Everything a log write does to the state, field by field. *)
Lemma log_effects (v : Value) (c : string) (i : Info) (w : World) :
  let w' := after (ExceptionLogger.log v c i) w in
  environmentInfo w' = Some (default first_environment (environmentInfo w))
  /\ console w' = console w ++ (if logLevel w is level_debug
                               then [new_entry w v c i] else [])
  /\ dispatched w' = dispatched w ++ (if has_window then [new_entry w v c i] else []).
Proof.
  destruct w as [entries cap env hs opts lvl wr ft net con dis inv].
  unfold after, ExceptionLogger.log, ExceptionLogger.getEnvironmentInfo,
    ExceptionLogger.initializeEnvironmentInfo,
    ExceptionLogger.consoleLog, ExceptionLogger.sendToErrorCenter,
    ExceptionLogger.shift, new_entry, first_environment, bind, ret, modify, get_state.
  cbn.
  destruct env as [e|]; cbn;
    repeat (match goal with
            | |- context [if ?b then _ else _] => destruct b eqn:?
            end; cbn);
    destruct lvl; cbn; rewrite ?app_nil_r; repeat split.
Qed.

(** X1. After a log write into a buffer whose cap is at least 1, the
    newest (last) record of the buffer is the one this write built: it
    carries the context label as [component] beside the extra information,
    and its type is the log classifier's verdict on the stored error.  A
    value that is not an [Error] is stored as an [Error] named "Error" whose
    message is the string form of the value. *)
Theorem log_newest_is_last (v : Value) (c : string) (i : Info) (w : World) :
  (0 < maxLogEntries w)%nat ->
  exists entry,
    last (logEntries (after (ExceptionLogger.log v c i) w)) = Some entry
    /\ LogEntry.context entry = (i, c)
    /\ LogEntry.type entry = Classifier.determineExceptionType (LogEntry.error entry)
    /\ LogEntry.id entry = crypto_randomUUID (written w)
    /\ (forall e, v = VError e -> LogEntry.error entry = e)
    /\ ((forall e, v <> VError e) ->
        LogEntry.error entry = mkError Error_ctor "Error" (String_of v)).
Proof.
  intros Hcap. exists (new_entry w v c i).
  rewrite LogProps.log_logEntries. cbv zeta.
  split.
  - destruct (Nat.ltb_spec (maxLogEntries w)
                (length (logEntries w ++ [new_entry w v c i]))) as [Hlt|Hge].
    + rewrite length_app in Hlt. simpl in Hlt.
      destruct (logEntries w) as [|e0 rest]; simpl in *; [lia|].
      apply last_snoc.
    + apply last_snoc.
  - unfold new_entry. cbn. repeat split.
    + intros e ->. reflexivity.
    + intros Hne. destruct v; try reflexivity. exfalso. apply (Hne e). reflexivity.
Qed.

(** The records a sequence of writes builds all carry one environment
    snapshot. *)
Lemma records_environment (inputs : list Input) (w : World) :
  Forall (fun e => LogEntry.environment e
                   = default first_environment (environmentInfo w))
         (records w inputs).
Proof.
  revert w. induction inputs as [|[[v c] i] rest IH]; intros w; simpl.
  - constructor.
  - constructor; [reflexivity|].
    destruct (log_effects v c i w) as (Henv & _). cbv zeta in Henv.
    specialize (IH (after (ExceptionLogger.log v c i) w)).
    rewrite Henv in IH. exact IH.
Qed.

(** X2. The environment is determined once: whatever is written into an
    empty buffer, every record in it carries the same environment.  It is
    the cached one if there is one; otherwise it is the empty object [{}]
    where there is no [window] ([navigator] is not read there), and the
    snapshot derived from [navigator] where there is one.  After a write
    it is cached. *)
Theorem environment_snapshot_is_shared (inputs : list Input) (w : World) :
  logEntries w = [] ->
  let w' := after (log_all inputs) w in
  let snapshot :=
    default (if has_window then EnvSnapshot navigator_environment else EnvEmpty)
            (environmentInfo w) in
  (forall e, e ∈ logEntries w' -> LogEntry.environment e = snapshot)
  /\ (inputs <> [] -> environmentInfo w' = Some snapshot).
Proof.
  intros Hempty w' snapshot. subst w' snapshot. split.
  - intros e He.
    rewrite LogProps.log_all_logEntries in He by (rewrite Hempty; simpl; lia).
    rewrite Hempty in He. simpl in He. unfold keep_last in He.
    apply list_elem_of_lookup in He. destruct He as [k Hk].
    rewrite lookup_drop in Hk.
    pose proof (records_environment inputs w) as Hall.
    rewrite Forall_lookup in Hall. exact (Hall _ _ Hk).
  - clear Hempty. revert w.
    induction inputs as [|[[v c] i] rest IH]; intros w Hne; [congruence|].
    rewrite LogProps.after_log_all_cons.
    destruct (log_effects v c i w) as (Henv & _). cbv zeta in Henv.
    destruct rest as [|x rest'].
    + exact Henv.
    + rewrite IH by discriminate. rewrite Henv. reflexivity.
Qed.

(** What a sequence of writes announces. *)
Lemma log_all_dispatched (inputs : list Input) (w : World) :
  dispatched (after (log_all inputs) w)
  = dispatched w ++ (if has_window then records w inputs else [])
  /\ console (after (log_all inputs) w)
    = console w ++ (if logLevel w is level_debug then records w inputs else []).
Proof.
  revert w. induction inputs as [|[[v c] i] rest IH]; intros w.
  - simpl. destruct has_window, (logLevel w); rewrite ?app_nil_r; split; reflexivity.
  - rewrite LogProps.after_log_all_cons.
    destruct (IH (after (ExceptionLogger.log v c i) w)) as [Hd Hc].
    destruct (log_effects v c i w) as (_ & Hc1 & Hd1). cbv zeta in Hc1, Hd1.
    destruct (LogProps.log_frame v c i w) as (_ & _ & _ & Hlvl & _). cbv zeta in Hlvl.
    rewrite Hd, Hc, Hd1, Hc1, Hlvl. simpl.
    destruct has_window, (logLevel w); rewrite <- ?app_assoc; split; reflexivity.
Qed.

(** X3. Every record a write builds is announced by exactly one
    'exception-logged' event where [window] exists (none where it does not),
    in the order of the writes, whether or not the buffer still holds it;
    and the buffer is always the [maxLogEntries] most recent of the records
    announced.  At log level 'debug' the console receives the same
    records. *)
Theorem buffer_is_tail_of_announcements (inputs : list Input) (w : World) :
  logEntries w = [] ->
  dispatched w = [] ->
  console w = [] ->
  let w' := after (log_all inputs) w in
  (has_window = true ->
   length (dispatched w') = length inputs
   /\ logEntries w' = keep_last (maxLogEntries w) (dispatched w'))
  /\ (has_window = false -> dispatched w' = [])
  /\ (logLevel w = level_debug ->
      length (console w') = length inputs
      /\ logEntries w' = keep_last (maxLogEntries w) (console w'))
  /\ (logLevel w <> level_debug -> console w' = []).
Proof.
  intros Hempty Hdis Hcon w'. subst w'.
  destruct (log_all_dispatched inputs w) as [Hd Hc].
  rewrite Hdis in Hd. rewrite Hcon in Hc. simpl in Hd, Hc.
  assert (Hrec : forall (l : list Input) (w0 : World),
             length (records w0 l) = length l).
  { induction l as [|[[v c] i] l IH]; intros w0; simpl; [|rewrite IH]; reflexivity. }
  split; [|split; [|split]].
  - intros Hwin. rewrite Hd, Hwin. split; [apply Hrec|].
    rewrite LogProps.log_all_logEntries by (rewrite Hempty; simpl; lia).
    rewrite Hempty. reflexivity.
  - intros Hwin. rewrite Hd, Hwin. reflexivity.
  - intros Hlvl. rewrite Hc, Hlvl. split; [apply Hrec|].
    rewrite LogProps.log_all_logEntries by (rewrite Hempty; simpl; lia).
    rewrite Hempty. reflexivity.
  - intros Hlvl. rewrite Hc. destruct (logLevel w); try reflexivity. congruence.
Qed.

(** The log's classifier has no rule that answers [RESOURCE_ERROR]. *)
Lemma determine_never_resource (e : Error) :
  Classifier.determineExceptionType e <> RESOURCE_ERROR.
Proof.
  unfold Classifier.determineExceptionType.
  repeat (match goal with
          | |- context [if ?b then _ else _] => destruct b
          end; try discriminate).
Qed.

(** X4. No record the log writes is ever classified [RESOURCE_ERROR]: a
    buffer without such a record has none after any sequence of writes, and
    the statistics then count 0 for that type. *)
Theorem log_never_records_resource_error (inputs : list Input) (w : World) (today : Z) :
  (forall e, e ∈ logEntries w -> LogEntry.type e <> RESOURCE_ERROR) ->
  let w' := after (log_all inputs) w in
  (forall e, e ∈ logEntries w' -> LogEntry.type e <> RESOURCE_ERROR)
  /\ (RESOURCE_ERROR, 0%nat) ∈ Statistics.typeCounts (Statistics.getStatistics today w').
Proof.
  intros Hw w'.
  assert (Hinv : forall e, e ∈ logEntries w' -> LogEntry.type e <> RESOURCE_ERROR).
  { subst w'. revert w Hw. induction inputs as [|[[v c] i] rest IH]; intros w Hw.
    - exact Hw.
    - rewrite LogProps.after_log_all_cons. apply IH.
      intros e He. rewrite LogProps.log_logEntries in He. cbv zeta in He.
      assert (Hin : e ∈ logEntries w ++ [new_entry w v c i]).
      { destruct (maxLogEntries w <? _)%nat; [|exact He].
        destruct (logEntries w ++ [new_entry w v c i]) as [|x l0];
          [exact He | simpl in He; right; exact He]. }
      apply elem_of_app in Hin. destruct Hin as [Hin|Hin].
      + apply Hw, Hin.
      + apply list_elem_of_singleton in Hin. subst e. apply determine_never_resource. }
  split; [exact Hinv|].
  unfold Statistics.getStatistics. cbn [Statistics.typeCounts].
  apply list_elem_of_fmap. exists RESOURCE_ERROR. split.
  - f_equal. symmetry. apply length_zero_iff_nil.
    set (l := List.filter _ (logEntries w')).
    assert (Hl : forall e, In e l -> LogEntry.type e <> RESOURCE_ERROR).
    { intros e He. apply filter_In in He. apply Hinv, list_elem_of_In, He. }
    clearbody l. induction l as [|x l IHl]; [reflexivity|].
    simpl. rewrite bool_decide_eq_false_2 by (apply Hl; left; reflexivity).
    apply IHl. intros e He. apply Hl. right. exact He.
  - unfold Statistics.Object_values_ExceptionType. set_solver.
Qed.

End WithPlatform.
End LogMore.

(** ** The statistics *)

Module StatisticsProps.
Import StatisticsSpec.

(** Each record is counted under exactly one type. *)
Lemma counts_partition (l : list LogEntry.t) :
  sum_list ((fun t => length (List.filter
                                (fun entry => bool_decide (LogEntry.type entry = t)) l))
              <$> Statistics.Object_values_ExceptionType)
  = length l.
Proof.
  induction l as [|e l IH]; [reflexivity|].
  unfold Statistics.Object_values_ExceptionType in *. cbn [fmap list_fmap sum_list] in *.
  cbn [List.filter].
  destruct (LogEntry.type e);
    repeat first [ rewrite bool_decide_eq_true_2 by reflexivity
                 | rewrite bool_decide_eq_false_2 by discriminate ];
    cbn [length]; unfold id in *; lia.
Qed.

(** X5. In the statistics the counts per type add up to
    [totalExceptions], the number of records written today: every record
    is counted under exactly one of the nine types, and the table lists the
    types in declaration order. *)
Theorem statistics_counts_add_up (today : Z) (w : World) :
  let s := Statistics.getStatistics today w in
  sum_list (snd <$> Statistics.typeCounts s) = Statistics.totalExceptions s
  /\ fst <$> Statistics.typeCounts s = Statistics.Object_values_ExceptionType
  /\ (forall t, (t, today_count today w t) ∈ Statistics.typeCounts s)
  /\ (Statistics.totalExceptions s <= length (logEntries w))%nat.
Proof.
  cbv zeta. unfold Statistics.getStatistics.
  cbn [Statistics.typeCounts Statistics.totalExceptions].
  split; [|split; [|split]].
  - rewrite <- list_fmap_compose. apply counts_partition.
  - rewrite <- list_fmap_compose. reflexivity.
  - intros t. apply list_elem_of_fmap. exists t. split; [reflexivity|].
    unfold Statistics.Object_values_ExceptionType. destruct t; set_solver.
  - apply filter_length_le.
Qed.

(** X6. The success rate the statistics report is "0.00" as soon as the
    buffer holds a record of type [NETWORK_ERROR], and "100.00" otherwise:
    the count of successful requests it adds is a count of records without
    an error, and every record has one. *)
Theorem success_rate_is_all_or_nothing (today : Z) (w : World) :
  Statistics.successRate (Statistics.getStatistics today w)
  = if has_network_error w then "0.00"%string else "100.00"%string.
Proof.
  unfold Statistics.getStatistics, has_network_error. cbn [Statistics.successRate].
  set (net := List.filter _ (logEntries w)).
  set (ok := List.filter _ (List.filter _ (logEntries w))).
  assert (Hok : ok = []).
  { subst ok. set (l := List.filter _ (logEntries w)). clearbody l.
    induction l as [|e l IH]; [reflexivity|].
    cbn [List.filter]. unfold Statistics.Error_truthy. cbn [negb].
    rewrite andb_false_r. exact IH. }
  rewrite Hok. cbn [length]. rewrite Nat.add_0_r.
  assert (Hnet : existsb (fun entry => bool_decide (LogEntry.type entry = NETWORK_ERROR))
                         (logEntries w)
                 = (0 <? length net)%nat).
  { subst net. clear ok Hok. induction (logEntries w) as [|e l IH]; [reflexivity|].
    simpl. destruct (bool_decide (LogEntry.type e = NETWORK_ERROR)); simpl.
    - reflexivity.
    - exact IH. }
  rewrite Hnet.
  destruct (length net) as [|n]; [reflexivity|].
  cbn [Nat.ltb Nat.leb].
  unfold Statistics.toFixed2.
  destruct (QArith_base.Qlt_le_dec _ _) as [Hneg|Hpos].
  - exfalso. revert Hneg.
    unfold QArith_base.Qlt, QArith_base.Qmult, QArith_base.Qdiv, QArith_base.Qminus,
      QArith_base.Qplus, QArith_base.Qopp, QArith_base.Qinv, QArith_base.inject_Z.
    cbn. lia.
  - unfold QArith_base.Qmult, QArith_base.Qdiv, QArith_base.Qminus,
      QArith_base.Qplus, QArith_base.Qopp, QArith_base.Qinv, QArith_base.inject_Z,
      Qround.Qfloor.
    cbn -[Z.div Z.modulo pretty Z.mul Z.add Z.of_nat].
    replace (Z.of_nat (S n) * 1 + - Z.of_nat (S n) * 1) with 0 by lia.
    cbn -[Z.div Z.modulo pretty].
    match goal with
    | |- context [?a / ?b] =>
        replace (a / b) with 0 by (symmetry; apply Z.div_small; lia)
    end.
    reflexivity.
Qed.

Lemma insert_desc_perm (x : ExceptionType * nat) (l : list (ExceptionType * nat)) :
  Statistics.insert_desc x l ≡ₚ x :: l.
Proof.
  induction l as [|y l IH]; simpl; [reflexivity|].
  destruct (snd y <=? snd x)%nat; [reflexivity|].
  rewrite IH. apply Permutation_swap.
Qed.

Lemma sort_desc_perm (l : list (ExceptionType * nat)) : Statistics.sort_desc l ≡ₚ l.
Proof.
  induction l as [|x l IH]; simpl; [reflexivity|].
  rewrite insert_desc_perm, IH. reflexivity.
Qed.

Lemma insert_desc_sorted (x : ExceptionType * nat) (l : list (ExceptionType * nat)) :
  StronglySorted entry_before l ->
  Forall (fun y => (ExceptionType_index (fst x) < ExceptionType_index (fst y))%nat) l ->
  StronglySorted entry_before (Statistics.insert_desc x l).
Proof.
  induction l as [|y l IH]; intros Hsorted Hidx; simpl.
  - repeat constructor.
  - apply StronglySorted_inv in Hsorted. destruct Hsorted as [Hl Hy].
    apply Forall_cons in Hidx. destruct Hidx as [Hxy Hxl].
    destruct (Nat.leb_spec (snd y) (snd x)) as [Hle|Hgt].
    + constructor; [constructor; assumption|].
      constructor.
      * unfold entry_before. lia.
      * rewrite Forall_forall in *. intros z Hz.
        specialize (Hy z Hz). specialize (Hxl z Hz).
        unfold entry_before in *. lia.
    + constructor; [apply IH; assumption|].
      rewrite insert_desc_perm. constructor.
      * unfold entry_before. lia.
      * exact Hy.
Qed.

Lemma sort_desc_sorted (l : list (ExceptionType * nat)) :
  StronglySorted (fun x y => (ExceptionType_index (fst x) < ExceptionType_index (fst y))%nat) l ->
  StronglySorted entry_before (Statistics.sort_desc l).
Proof.
  induction l as [|x l IH]; intros Hl; simpl; [constructor|].
  apply StronglySorted_inv in Hl. destruct Hl as [Hl Hx].
  apply insert_desc_sorted; [apply IH, Hl|].
  rewrite sort_desc_perm. exact Hx.
Qed.

Lemma sorted_lookup {A} (R : A -> A -> Prop) (l : list A) (i j : nat) (x y : A) :
  StronglySorted R l -> (i < j)%nat -> l !! i = Some x -> l !! j = Some y -> R x y.
Proof.
  intros Hl. revert i j. induction Hl as [|a l Hl IH Ha]; intros i j Hij Hi Hj.
  - discriminate.
  - destruct j as [|j]; [lia|]. destruct i as [|i]; simpl in Hi, Hj.
    + injection Hi as <-. rewrite Forall_forall in Ha.
      apply Ha. eapply list_elem_of_lookup_2, Hj.
    + apply (IH i j); [lia|assumption..].
Qed.

(** X7. [topTypes] names three types, the three that rank first when the
    types are ordered by the number of today's records, more records first,
    types with as many records in declaration order: the list is in that
    order, and each type it names ranks before each type it leaves out.
    With no record today these are the first three declared. *)
Theorem top_types_are_the_three_first (today : Z) (w : World) :
  let top := Statistics.topTypes (Statistics.getStatistics today w) in
  length top = 3%nat
  /\ (forall i j ti tj, (i < j)%nat -> top !! i = Some ti -> top !! j = Some tj ->
                         ranks_before today w ti tj)
  /\ (forall t t', t ∈ top -> t' ∉ top -> ranks_before today w t t')
  /\ (today_entries today w = [] -> top = [NULL_POINTER; TYPE_ERROR; RANGE_ERROR]).
Proof.
  cbv zeta. unfold Statistics.getStatistics. cbn [Statistics.topTypes].
  fold (today_entries today w).
  set (table := (fun type => (type, _)) <$> Statistics.Object_values_ExceptionType).
  assert (Htable : forall x, x ∈ table -> snd x = today_count today w (fst x)).
  { intros x Hx. subst table. apply list_elem_of_fmap in Hx.
    destruct Hx as (t & -> & _). reflexivity. }
  assert (Hall : forall t, (t, today_count today w t) ∈ table).
  { intros t. subst table. apply list_elem_of_fmap. exists t. split; [reflexivity|].
    unfold Statistics.Object_values_ExceptionType. destruct t; set_solver. }
  assert (Hsorted : StronglySorted entry_before (Statistics.sort_desc table)).
  { apply sort_desc_sorted. subst table.
    unfold Statistics.Object_values_ExceptionType. cbn [fmap list_fmap].
    repeat (constructor; [|repeat constructor; simpl; lia]). constructor. }
  assert (Hlen : length (Statistics.sort_desc table) = 9%nat).
  { rewrite sort_desc_perm. reflexivity. }
  assert (Hrank : forall x y, x ∈ Statistics.sort_desc table ->
                              y ∈ Statistics.sort_desc table ->
                              entry_before x y -> ranks_before today w (fst x) (fst y)).
  { intros x y Hx Hy Hxy. rewrite sort_desc_perm in Hx, Hy.
    unfold entry_before in Hxy. rewrite (Htable x Hx), (Htable y Hy) in Hxy.
    exact Hxy. }
  split; [|split; [|split]].
  - rewrite length_fmap, length_take. lia.
  - intros i j ti tj Hij Hi Hj.
    apply list_lookup_fmap_Some in Hi, Hj.
    destruct Hi as (x & -> & Hx), Hj as (y & -> & Hy).
    apply lookup_take_Some in Hx, Hy. destruct Hx as [Hx _], Hy as [Hy _].
    apply Hrank; [eapply list_elem_of_lookup_2, Hx|eapply list_elem_of_lookup_2, Hy|].
    exact (sorted_lookup _ _ i j x y Hsorted Hij Hx Hy).
  - intros t t' Ht Ht'.
    apply list_elem_of_fmap in Ht. destruct Ht as (x & -> & Hx).
    specialize (Hall t'). rewrite <- sort_desc_perm in Hall.
    rewrite <- (take_drop 3 (Statistics.sort_desc table)) in Hall, Hsorted.
    apply elem_of_app in Hall. destruct Hall as [Hin|Hin].
    { exfalso. apply Ht'. apply list_elem_of_fmap. eexists. split; [|exact Hin]. reflexivity. }
    apply sorting.StronglySorted_app in Hsorted. destruct Hsorted as (Hcross & _ & _).
    apply (Hrank x (t', today_count today w t')).
    + eapply subseteq_take, Hx.
    + eapply subseteq_drop, Hin.
    + apply Hcross; assumption.
  - intros Hnone. subst table. rewrite Hnone. reflexivity.
Qed.

End StatisticsProps.

(* ===================================================================== *)
(** ** The handler table: registration, removal and dispatch together *)
(* ===================================================================== *)

Module RegistryMore.
Import DispatchSpec RegistrySpec.
Section WithPlatform.
Context {P : Platform}.

(** X8. Reading back a registration: after
    [registerHandler(type, h, severity)], [getHandler(type)] is [h] and
    [getSeverity(type)] is the severity given, or 'medium' when none or the
    empty string was given; every other key reads as before; and a second
    registration under the same key replaces the first altogether. *)
Theorem registration_reads_back
        (type : Key) (h : ExceptionHandler) (sev : option string) (w : World) :
  let w' := after (ExceptionRegistry.registerHandler type h sev) w in
  ExceptionRegistry.getHandler type w' = Some h
  /\ ExceptionRegistry.getSeverity type w' = severity_read sev
  /\ (forall other, other <> type ->
        ExceptionRegistry.getHandler other w' = ExceptionRegistry.getHandler other w
        /\ ExceptionRegistry.getSeverity other w' = ExceptionRegistry.getSeverity other w)
  /\ (forall h0 sev0,
        after (ExceptionRegistry.registerHandler type h sev)
              (after (ExceptionRegistry.registerHandler type h0 sev0) w) = w').
Proof.
  cbv zeta. unfold after, ExceptionRegistry.registerHandler, modify,
    ExceptionRegistry.getHandler, ExceptionRegistry.getSeverity. cbn [snd].
  destruct w; cbn. split; [|split; [|split]].
  - rewrite lookup_insert_eq. reflexivity.
  - rewrite lookup_insert_eq. destruct sev; reflexivity.
  - intros other Hother. rewrite lookup_insert_ne by congruence. split; reflexivity.
  - intros h0 sev0. rewrite insert_insert_eq. reflexivity.
Qed.

(** X9. Removal: after [unregisterHandler(type)] the key has no handler
    and reads severity 'medium', and every other key reads as before;
    removing a key that was registered on top of a table without it gives
    back the very state from before the registration. *)
Theorem unregistration_forgets (type : Key) (w : World) :
  let w' := after (ExceptionRegistry.unregisterHandler type) w in
  ExceptionRegistry.getHandler type w' = None
  /\ ExceptionRegistry.getSeverity type w' = "medium"%string
  /\ (forall other, other <> type ->
        ExceptionRegistry.getHandler other w' = ExceptionRegistry.getHandler other w
        /\ ExceptionRegistry.getSeverity other w' = ExceptionRegistry.getSeverity other w)
  /\ (forall h sev,
        ExceptionRegistry.getHandler type w = None ->
        after (ExceptionRegistry.unregisterHandler type)
              (after (ExceptionRegistry.registerHandler type h sev) w) = w).
Proof.
  cbv zeta. unfold after, ExceptionRegistry.unregisterHandler,
    ExceptionRegistry.registerHandler, modify,
    ExceptionRegistry.getHandler, ExceptionRegistry.getSeverity. cbn [snd].
  destruct w; cbn. split; [|split; [|split]].
  - rewrite lookup_delete_eq. reflexivity.
  - rewrite lookup_delete_eq. reflexivity.
  - intros other Hother. rewrite lookup_delete_ne by congruence. split; reflexivity.
  - intros h sev Hnone. rewrite delete_insert_eq.
    rewrite delete_id; [reflexivity|].
    destruct (_ !! type); [discriminate|reflexivity].
Qed.

(** X10. After [clearHandlers] no key has a handler; the registry's
    dispatch then does nothing at all for any error, and the interceptor's
    dispatch of a value that has a constructor is exactly one call of the
    logger. *)
Theorem cleared_table_dispatches_nothing (w : World) :
  let w0 := after ExceptionRegistry.clearHandlers w in
  (forall type, ExceptionRegistry.getHandler type w0 = None
                /\ ExceptionRegistry.getSeverity type w0 = "medium"%string)
  /\ (forall e c i, ExceptionRegistry.handleException e c i w0 = (Ret tt, w0))
  /\ (forall v fn c i,
        constructor_value v = Some fn ->
        ExceptionInterceptor.handleException v c i w0 = ExceptionLogger.log v c i w0).
Proof.
  cbv zeta.
  assert (Hnone : forall type,
             ExceptionRegistry.getHandler type
               (after ExceptionRegistry.clearHandlers w) = None).
  { intros type. unfold after, ExceptionRegistry.clearHandlers, modify,
      ExceptionRegistry.getHandler. destruct w; cbn. rewrite lookup_empty. reflexivity. }
  split; [|split].
  - intros type. split; [apply Hnone|].
    specialize (Hnone type). unfold ExceptionRegistry.getHandler in Hnone.
    unfold ExceptionRegistry.getSeverity.
    destruct (handlers _ !! type); [discriminate|reflexivity].
  - intros e c i. apply DispatchProps.registry_dispatch_without_handler; apply Hnone.
  - intros v fn c i Hfn.
    rewrite (DispatchProps.interceptor_dispatch_run v fn c i _ Hfn), Hnone. reflexivity.
Qed.

(** X11. The registry's dispatch, for handlers that only return or throw
    (a handler's own effects are outside the model).  It calls at most one
    handler.  When it calls none, or the handler it calls returns, it
    returns and the log is as before.  When the handler throws a value
    that can be converted to a string, it returns and has written exactly
    one record.  When the handler throws a value that cannot be converted,
    it throws, and the log is as before. *)
Theorem registry_dispatch_is_contained
        (w : World) (e : Error) (c : string) (i : Info) :
  let dispatch := ExceptionRegistry.handleException e c i in
  let w' := after dispatch w in
  let selected :=
    match ExceptionRegistry.getHandler (KFunction (constructor e)) w with
    | Some h => Some h
    | None =>
        ExceptionRegistry.getHandler (KType (Classifier.mapErrorToExceptionType e)) w
    end in
  (length (invoked w') <= S (length (invoked w)))%nat
  /\ match selected ≫= (fun h => handler_call h (VError e) c i) with
     | None =>
         outcome dispatch w = Ret tt
         /\ written w' = written w /\ logEntries w' = logEntries w
     | Some thrown =>
         if convertible thrown
         then outcome dispatch w = Ret tt /\ written w' = S (written w)
         else (exists t, outcome dispatch w = Throw t)
              /\ written w' = written w /\ logEntries w' = logEntries w
     end.
Proof.
  cbv zeta. unfold outcome, after. rewrite DispatchProps.registry_dispatch_run.
  destruct (match ExceptionRegistry.getHandler (KFunction (constructor e)) w with
            | Some h => Some h
            | None => ExceptionRegistry.getHandler
                        (KType (Classifier.mapErrorToExceptionType e)) w
            end) as [h|]; cbn [mbind option_bind].
  2: { cbn. repeat split; lia. }
  destruct (handler_call h (VError e) c i) as [thrown|].
  2: { cbn. unfold called. destruct w; cbn. rewrite length_app. cbn.
       repeat split; lia. }
  unfold convertible. destruct (ToString thrown) as [t|s].
  { cbn. unfold called. destruct w; cbn. rewrite length_app. cbn.
    repeat split; try lia. eexists. reflexivity. }
  pose proof (LogProps.log_outcome (failure_report thrown) "handler-failure"
                (InfoHandlerFailure (VError e) c i) (called h (VError e) c i w)) as Hout.
  pose proof (LogProps.log_frame (failure_report thrown) "handler-failure"
                (InfoHandlerFailure (VError e) c i) (called h (VError e) c i w)) as Hframe.
  cbv zeta in Hframe. unfold outcome, after in *.
  destruct Hframe as (_ & _ & _ & _ & _ & _ & Hinv & Hwr).
  rewrite Hout, Hinv, Hwr.
  unfold called. destruct w; cbn. rewrite length_app. cbn.
  repeat split; try lia.
Qed.

(** X12. Registration and dispatch together: once a handler is registered
    under an error's constructor, both the registry's and the interceptor's
    dispatch of that error call this handler, once, with the error, the
    context and the extra information, whatever else the table holds; and
    when the handler returns, that call is all that has happened. *)
Theorem registered_handler_is_dispatched
        (w : World) (e : Error) (h : ExceptionHandler) (sev : option string)
        (c : string) (i : Info) :
  let w1 := after (ExceptionRegistry.registerHandler (KFunction (constructor e)) h sev) w in
  let by_registry := after (ExceptionRegistry.handleException e c i) w1 in
  let by_interceptor := after (ExceptionInterceptor.handleException (VError e) c i) w1 in
  invoked by_registry = invoked w ++ [mkInvocation (handler_ref h) (VError e) c i]
  /\ invoked by_interceptor = invoked w ++ [mkInvocation (handler_ref h) (VError e) c i]
  /\ (handler_call h (VError e) c i = None ->
      by_registry = called h (VError e) c i w1
      /\ by_interceptor = called h (VError e) c i w1).
Proof.
  cbv zeta.
  set (w1 := after (ExceptionRegistry.registerHandler (KFunction (constructor e)) h sev) w).
  assert (Hget : ExceptionRegistry.getHandler (KFunction (constructor e)) w1 = Some h).
  { subst w1. unfold after, ExceptionRegistry.registerHandler, modify,
      ExceptionRegistry.getHandler. destruct w; cbn. rewrite lookup_insert_eq. reflexivity. }
  assert (Hinv1 : invoked w1 = invoked w).
  { subst w1. unfold after, ExceptionRegistry.registerHandler, modify.
    destruct w; reflexivity. }
  clearbody w1. unfold after at 1 2 3 4.
  rewrite DispatchProps.registry_dispatch_run, Hget.
  rewrite (DispatchProps.interceptor_dispatch_run (VError e) (constructor e) c i w1 eq_refl),
    Hget.
  destruct (handler_call h (VError e) c i) as [thrown|].
  - destruct (ToString thrown) as [t|s].
    { cbn [snd]. unfold called. cbn. rewrite Hinv1.
      split; [reflexivity|split; [reflexivity|discriminate]]. }
    pose proof (LogProps.log_frame (failure_report thrown) "handler-failure"
                  (InfoHandlerFailure (VError e) c i) (called h (VError e) c i w1)) as F1.
    cbv zeta in F1. destruct F1 as (_ & _ & _ & _ & _ & _ & Hi1 & _).
    pose proof (LogProps.log_frame (VError e) c i
                  (after (ExceptionLogger.log (failure_report thrown) "handler-failure"
                            (InfoHandlerFailure (VError e) c i))
                         (called h (VError e) c i w1))) as F2.
    cbv zeta in F2. destruct F2 as (_ & _ & _ & _ & _ & _ & Hi2 & _).
    unfold after in *. rewrite Hi2, Hi1.
    unfold called. cbn. rewrite Hinv1.
    split; [reflexivity|split; [reflexivity|discriminate]].
  - cbn [snd]. unfold called at 1 2. cbn. rewrite Hinv1.
    split; [reflexivity|split; [reflexivity|]]. intros _. split; reflexivity.
Qed.

End WithPlatform.
End RegistryMore.

(* ===================================================================== *)
(** ** Wrapped functions *)
(* ===================================================================== *)

Module WrapperProps.
Import DispatchSpec.
Section WithPlatform.
Context {P : Platform}.

(** The interceptor's dispatch of a value with a constructor returns
    unless the handler it calls throws a value that cannot be converted. *)
Lemma interceptor_dispatch_returns (v : Value) (fn : Function) (c : string)
      (i : Info) (w : World) :
  constructor_value v = Some fn ->
  (forall h thrown,
      ExceptionRegistry.getHandler (KFunction fn) w = Some h ->
      handler_call h v c i = Some thrown ->
      convertible thrown = true) ->
  outcome (ExceptionInterceptor.handleException v c i) w = Ret tt.
Proof.
  intros Hfn Hsafe. unfold outcome.
  rewrite (DispatchProps.interceptor_dispatch_run v fn c i w Hfn).
  destruct (ExceptionRegistry.getHandler (KFunction fn) w) as [h|].
  - destruct (handler_call h v c i) as [thrown|] eqn:Hcall; [|reflexivity].
    rewrite (DispatchProps.ToString_convertible thrown (Hsafe h thrown eq_refl Hcall)).
    apply LogProps.log_outcome.
  - apply LogProps.log_outcome.
Qed.

Lemma interceptor_dispatch_throws (v : Value) (fn : Function) (c : string)
      (i : Info) (w : World) (h : ExceptionHandler) (thrown : Value) :
  constructor_value v = Some fn ->
  ExceptionRegistry.getHandler (KFunction fn) w = Some h ->
  handler_call h v c i = Some thrown ->
  convertible thrown = false ->
  exists t, ExceptionInterceptor.handleException v c i w = (Throw t, called h v c i w).
Proof.
  intros Hfn Hget Hcall Hconv.
  rewrite (DispatchProps.interceptor_dispatch_run v fn c i w Hfn), Hget, Hcall.
  destruct (DispatchProps.ToString_not_convertible thrown Hconv) as [t ->].
  eexists. reflexivity.
Qed.

Lemma wrap_run {A} (fn : list json -> M World A) (label : string) (args : list json)
      (w : World) :
  try_catch (r <- fn args ;; ret (Some r))
            (fun error =>
               ExceptionInterceptor.handleException error label (Wrappers.args_info args) ;;;
               ret None) w
  = match fn args w with
    | (Ret r, w1) => (Ret (Some r), w1)
    | (Throw v, w1) =>
        match ExceptionInterceptor.handleException v label (Wrappers.args_info args) w1 with
        | (Ret _, w2) => (Ret None, w2)
        | (Throw t, w2) => (Throw t, w2)
        | (OutOfFuel, w2) => (OutOfFuel, w2)
        end
    | (OutOfFuel, w1) => (OutOfFuel, w1)
    end.
Proof.
  unfold try_catch, bind, ret. destruct (fn args w) as [[r|v|] w1]; reflexivity.
Qed.

(** The body of both wrappers, for a function that throws a value with a
    constructor. *)
Lemma wrap_reports {A} (fn : list json -> M World A) (label : string) (args : list json)
      (w w1 : World) (v : Value) (c : Function) :
  fn args w = (Throw v, w1) ->
  constructor_value v = Some c ->
  let info := Wrappers.args_info args in
  let found := ExceptionRegistry.getHandler (KFunction c) w1 in
  let wrapped :=
    try_catch (r <- fn args ;; ret (Some r))
              (fun error =>
                 ExceptionInterceptor.handleException error label info ;;; ret None) in
  ((forall h thrown, found = Some h -> handler_call h v label info = Some thrown ->
                     convertible thrown = true) ->
   wrapped w = (Ret None, after (ExceptionInterceptor.handleException v label info) w1))
  /\ (forall h thrown, found = Some h -> handler_call h v label info = Some thrown ->
                       convertible thrown = false ->
                       exists t, wrapped w = (Throw t, called h v label info w1)).
Proof.
  intros Hrun Hc. cbv zeta. rewrite wrap_run, Hrun. split.
  - intros Hsafe.
    pose proof (interceptor_dispatch_returns v c label (Wrappers.args_info args) w1
                  Hc Hsafe) as Hout.
    unfold outcome, after in *.
    destruct (ExceptionInterceptor.handleException _ _ _ w1) as [o w2].
    cbn in Hout. subst o. reflexivity.
  - intros h thrown Hget Hcall Hconv.
    destruct (interceptor_dispatch_throws v c label (Wrappers.args_info args) w1
                h thrown Hc Hget Hcall Hconv) as [t ->].
    exists t. reflexivity.
Qed.

(** X13. A wrapped function ([wrapSync], [wrapAsync]) that returns gives
    its value and its effects unchanged.  One that throws a value with a
    constructor has the value handed to the interceptor's dispatch, under
    the wrapper's label (the one given, or 'sync-function' /
    'async-function' when none or the empty string was given) and with the
    arguments of the call as extra information.  The wrapper then gives
    [undefined], unless the handler that dispatch calls throws a value that
    cannot be converted to a string: then the wrapper itself throws. *)
Theorem wrapped_call_returns_or_reports
        {A} (fn : list json -> M World A) (context : option string) (args : list json)
        (w w1 : World) :
  let sync := Wrappers.label_or context "sync-function" in
  let async := Wrappers.label_or context "async-function" in
  let info := Wrappers.args_info args in
  (forall r, fn args w = (Ret r, w1) ->
             Wrappers.wrapSync fn context args w = (Ret (Some r), w1)
             /\ Wrappers.wrapAsync fn context args w = (Ret (Some r), w1))
  /\ (forall v c, fn args w = (Throw v, w1) -> constructor_value v = Some c ->
        let found := ExceptionRegistry.getHandler (KFunction c) w1 in
        ((forall h thrown, found = Some h -> handler_call h v sync info = Some thrown ->
                           convertible thrown = true) ->
         Wrappers.wrapSync fn context args w
         = (Ret None, after (ExceptionInterceptor.handleException v sync info) w1))
        /\ ((forall h thrown, found = Some h -> handler_call h v async info = Some thrown ->
                              convertible thrown = true) ->
            Wrappers.wrapAsync fn context args w
            = (Ret None, after (ExceptionInterceptor.handleException v async info) w1))
        /\ (forall h thrown, found = Some h -> handler_call h v sync info = Some thrown ->
                             convertible thrown = false ->
                             exists t, Wrappers.wrapSync fn context args w
                                       = (Throw t, called h v sync info w1))
        /\ (forall h thrown, found = Some h -> handler_call h v async info = Some thrown ->
                             convertible thrown = false ->
                             exists t, Wrappers.wrapAsync fn context args w
                                       = (Throw t, called h v async info w1))).
Proof.
  cbv zeta. split.
  - intros r Hrun. unfold Wrappers.wrapSync, Wrappers.wrapAsync.
    rewrite !wrap_run, Hrun. split; reflexivity.
  - intros v c Hrun Hc.
    pose proof (wrap_reports fn (Wrappers.label_or context "sync-function") args
                  w w1 v c Hrun Hc) as Hsync.
    pose proof (wrap_reports fn (Wrappers.label_or context "async-function") args
                  w w1 v c Hrun Hc) as Hasync.
    cbv zeta in Hsync, Hasync.
    destruct Hsync as [Hs1 Hs2], Hasync as [Ha1 Ha2].
    split; [exact Hs1|split; [exact Ha1|split; [exact Hs2|exact Ha2]]].
Qed.

(** X14. A wrapped function that throws [null] or [undefined] is not
    contained: the wrapper itself throws a [TypeError], from reading
    [error.constructor], and nothing has been logged and no handler called
    beyond what the function did itself. *)
Theorem wrapped_call_throwing_nullish
        {A} (fn : list json -> M World A) (context : option string) (args : list json)
        (w w1 : World) (v : Value) :
  fn args w = (Throw v, w1) ->
  constructor_value v = None ->
  exists message,
    Wrappers.wrapSync fn context args w = (Throw (VError (new_TypeError message)), w1)
    /\ Wrappers.wrapAsync fn context args w = (Throw (VError (new_TypeError message)), w1).
Proof.
  intros Hrun Hv. unfold Wrappers.wrapSync, Wrappers.wrapAsync.
  rewrite !wrap_run, Hrun.
  destruct v; try discriminate; eexists; split; reflexivity.
Qed.

End WithPlatform.
End WrapperProps.

(* ===================================================================== *)
(** ** The error boundary *)
(* ===================================================================== *)

Module BoundaryProps.
Import DispatchSpec BoundarySpec.
Section WithPlatform.
Context {P : Platform}.

Lemma componentDidCatch_run (onError : ErrorBoundary.OnError) (error : Error)
      (errorInfo : Info) (w : World) :
  ErrorBoundary.componentDidCatch onError error errorInfo w
  = let w1 := after (ExceptionLogger.log (VError error) "react-component" errorInfo) w in
    match onError_call onError error errorInfo with
    | Some thrown => (Throw thrown, w1)
    | None =>
        match ExceptionRegistry.getHandler (KFunction (constructor error)) w1 with
        | None => (Ret tt, w1)
        | Some h =>
            match handler_call h (VError error) "react-component" errorInfo with
            | None => (Ret tt, called h (VError error) "react-component" errorInfo w1)
            | Some thrown =>
                match ToString thrown with
                | inl t =>
                    (Throw (VError t),
                     called h (VError error) "react-component" errorInfo w1)
                | inr _ =>
                    ExceptionLogger.log (failure_report thrown) "handler-failure"
                      (InfoHandlerFailure (VError error) "react-component" errorInfo)
                      (called h (VError error) "react-component" errorInfo w1)
                end
            end
        end
    end.
Proof.
  cbv zeta.
  pose proof (LogProps.log_outcome (VError error) "react-component" errorInfo w) as Hout.
  unfold ErrorBoundary.componentDidCatch, onError_call, outcome, after in *.
  unfold bind at 1.
  destruct (ExceptionLogger.log (VError error) "react-component" errorInfo w) as [o w1].
  cbn in Hout. subst o. cbn [snd].
  unfold bind at 1.
  assert (Hrest :
    (w0 <- get_state ;;
     match ExceptionRegistry.getHandler (KFunction (constructor error)) w0 with
     | Some h =>
         try_catch
           (ExceptionRegistry.call_handler h (VError error) "react-component" errorInfo)
           (fun handlerError =>
              ExceptionRegistry.log_handler_failure handlerError (VError error)
                "react-component" errorInfo)
     | None => ret tt
     end) w1
    = match ExceptionRegistry.getHandler (KFunction (constructor error)) w1 with
      | None => (Ret tt, w1)
      | Some h =>
          match handler_call h (VError error) "react-component" errorInfo with
          | None => (Ret tt, called h (VError error) "react-component" errorInfo w1)
          | Some thrown =>
              match ToString thrown with
              | inl t =>
                  (Throw (VError t),
                   called h (VError error) "react-component" errorInfo w1)
              | inr _ =>
                  ExceptionLogger.log (failure_report thrown) "handler-failure"
                    (InfoHandlerFailure (VError error) "react-component" errorInfo)
                    (called h (VError error) "react-component" errorInfo w1)
              end
          end
      end).
  { unfold bind at 1, get_state at 1.
    destruct (ExceptionRegistry.getHandler (KFunction (constructor error)) w1) as [h|];
      [|reflexivity].
    unfold try_catch, ExceptionRegistry.call_handler, bind, modify.
    fold (called h (VError error) "react-component" errorInfo w1).
    destruct (handler_call h (VError error) "react-component" errorInfo) as [thrown|];
      [|reflexivity].
    unfold throw. apply DispatchProps.log_handler_failure_run. }
  destruct onError as [callback|].
  - destruct (callback error errorInfo) as [thrown|]; [reflexivity|].
    unfold ret at 1. exact Hrest.
  - unfold ret at 1. exact Hrest.
Qed.

(** X15. The error boundary logs the caught error first, under
    'react-component'.  A throwing [onError] callback is not contained:
    its exception leaves [componentDidCatch], after the record was written
    and before any registered handler is looked up.  Otherwise the handler
    registered under the error's constructor, if any, is called once
    (handlers registered under a kind are not consulted).  When there is
    none, or it returns, [componentDidCatch] returns.  When it throws a
    value that can be converted to a string, a second, 'handler-failure'
    record is written and [componentDidCatch] returns.  When it throws a
    value that cannot be converted, [componentDidCatch] throws and no second
    record is written. *)
Theorem boundary_logs_then_notifies
        (onError : ErrorBoundary.OnError) (error : Error) (errorInfo : Info) (w : World) :
  let caught := ErrorBoundary.componentDidCatch onError error errorInfo in
  let w1 := after (ExceptionLogger.log (VError error) "react-component" errorInfo) w in
  let by_constructor := ExceptionRegistry.getHandler (KFunction (constructor error)) w in
  written w1 = S (written w)
  /\ (forall thrown,
        onError_call onError error errorInfo = Some thrown ->
        caught w = (Throw thrown, w1) /\ invoked w1 = invoked w)
  /\ (onError_call onError error errorInfo = None ->
      (by_constructor = None -> caught w = (Ret tt, w1))
      /\ (forall h, by_constructor = Some h ->
            invoked (after caught w)
            = invoked w ++ [mkInvocation (handler_ref h) (VError error)
                              "react-component" errorInfo]
            /\ match handler_call h (VError error) "react-component" errorInfo with
               | None =>
                   outcome caught w = Ret tt
                   /\ written (after caught w) = S (written w)
               | Some thrown =>
                   if convertible thrown
                   then outcome caught w = Ret tt
                        /\ written (after caught w) = S (S (written w))
                   else (exists t, outcome caught w = Throw t)
                        /\ written (after caught w) = S (written w)
               end)).
Proof.
  cbv zeta. unfold outcome, after.
  rewrite componentDidCatch_run. cbv zeta.
  pose proof (LogProps.log_frame (VError error) "react-component" errorInfo w) as F.
  cbv zeta in F. destruct F as (_ & Hh & _ & _ & _ & _ & Hinv & Hwr).
  unfold after in *.
  set (w1 := snd (ExceptionLogger.log (VError error) "react-component" errorInfo w)) in *.
  clearbody w1.
  assert (Hget : ExceptionRegistry.getHandler (KFunction (constructor error)) w1
                 = ExceptionRegistry.getHandler (KFunction (constructor error)) w).
  { unfold ExceptionRegistry.getHandler. rewrite Hh. reflexivity. }
  rewrite Hget.
  split; [exact Hwr|split].
  - intros thrown ->. split; [reflexivity|exact Hinv].
  - intros ->. split.
    + intros ->. reflexivity.
    + intros h ->.
      destruct (handler_call h _ _ _) as [thrown|].
      * unfold convertible. destruct (ToString thrown) as [t|s].
        { cbn [fst snd]. unfold called. cbn. rewrite Hinv, Hwr.
          split; [reflexivity|]. split; [eexists; reflexivity|reflexivity]. }
        pose proof (LogProps.log_frame (failure_report thrown) "handler-failure"
                      (InfoHandlerFailure (VError error) "react-component" errorInfo)
                      (called h (VError error) "react-component" errorInfo w1)) as F.
        cbv zeta in F. destruct F as (_ & _ & _ & _ & _ & _ & Hinv2 & Hwr2).
        pose proof (LogProps.log_outcome (failure_report thrown) "handler-failure"
                      (InfoHandlerFailure (VError error) "react-component" errorInfo)
                      (called h (VError error) "react-component" errorInfo w1)) as Hout.
        unfold outcome, after in *. rewrite Hinv2, Hwr2, Hout. unfold called. cbn.
        rewrite Hinv, Hwr. repeat split.
      * cbn [fst snd]. unfold called. cbn. rewrite Hinv, Hwr. repeat split.
Qed.

End WithPlatform.
End BoundaryProps.

(* ===================================================================== *)
(** ** The ErrorCenter's list of recent records *)
(* ===================================================================== *)

Module ErrorCenterProps.
Import LogSpec ErrorCenterSpec.

Lemma received_take_reverse (maxLogs : Z) (events : list LogEntry.t) :
  received maxLogs events = take (Z.to_nat maxLogs) (reverse events).
Proof.
  unfold received. induction events as [|e es IH] using rev_ind.
  - destruct (Z.to_nat maxLogs); reflexivity.
  - rewrite foldl_app. cbn [foldl]. rewrite IH, reverse_app. cbn [reverse app].
    change (reverse [e]) with [e]. cbn [app].
    unfold ErrorCenter.handleExceptionLogged, ErrorCenter.slice_from_0.
    destruct (Z.ltb_spec maxLogs 0) as [Hneg|Hpos].
    + replace (Z.to_nat maxLogs) with 0%nat by lia. rewrite !take_0.
      match goal with
      | |- take ?n _ = _ => replace n with 0%nat by (cbn [length]; lia)
      end.
      reflexivity.
    + destruct (Z.to_nat maxLogs) as [|n]; [reflexivity|].
      cbn [take]. f_equal. rewrite take_take. f_equal. lia.
Qed.

(** X16. The ErrorCenter's list holds the records received newest first,
    cut to the [maxLogs] most recent: after any sequence of
    'exception-logged' events it is the first [maxLogs] of the events in
    reverse order; with [maxLogs] zero or negative it stays empty. *)
Theorem error_center_keeps_most_recent_first (maxLogs : Z) (events : list LogEntry.t) :
  received maxLogs events = take (Z.to_nat maxLogs) (reverse events)
  /\ length (received maxLogs events) = Nat.min (Z.to_nat maxLogs) (length events)
  /\ (maxLogs <= 0 -> received maxLogs events = []).
Proof.
  rewrite received_take_reverse. split; [reflexivity|split].
  - rewrite length_take, length_reverse. reflexivity.
  - intros Hle. replace (Z.to_nat maxLogs) with 0%nat by lia. reflexivity.
Qed.

Section WithPlatform.
Context {P : Platform}.

(** X17. Logger and ErrorCenter together: where [window] exists, an
    ErrorCenter whose [maxLogs] equals the logger's [maxLogEntries], mounted
    before the first write, shows after any sequence of writes exactly the
    logger's buffer, in reverse order. *)
Theorem error_center_mirrors_buffer (inputs : list Input) (w : World) :
  has_window = true ->
  logEntries w = [] ->
  dispatched w = [] ->
  let w' := after (log_all inputs) w in
  received (Z.of_nat (maxLogEntries w)) (dispatched w') = reverse (logEntries w').
Proof.
  intros Hwin Hempty Hdis. cbv zeta.
  destruct (LogMore.log_all_dispatched inputs w) as [Hd _].
  rewrite Hd, Hwin, Hdis. cbn [app].
  rewrite LogProps.log_all_logEntries by (rewrite Hempty; cbn; lia).
  rewrite Hempty. cbn [app].
  rewrite received_take_reverse, Nat2Z.id, take_reverse. reflexivity.
Qed.

End WithPlatform.
End ErrorCenterProps.

(* ===================================================================== *)
(** ** safe-fetch.ts: retries, what is logged, and what is left alone *)
(* ===================================================================== *)

Module FetchMore.
Import FetchSpec FetchMoreSpec.
Section WithPlatform.
Context {P : Platform}.

(** One failing attempt, with the world it leaves. *)
Lemma attempt_once_failed (url : string) (o m : SafeFetchOptions)
      (w : World) (l : SafeFetch.Locals) :
  let rq := mkRequest url (body m) in
  fails (global_fetch (fetched w) rq) = true ->
  SafeFetch.attempt_once url o m (w, l)
  = (Ret SafeFetch.Continue,
     (failed_attempt url o rq (SafeFetch.attempt l) (global_fetch (fetched w) rq) w,
      record_failure (global_fetch (fetched w) rq) l)).
Proof.
  cbv zeta. intros Hfail.
  unfold SafeFetch.attempt_once, try_catch, failed_attempt.
  unfold bind at 1. rewrite FetchProps.in_world_run.
  unfold outcome, after. rewrite FetchProps.global_fetch_call_run. cbn [fst snd].
  fold (fetched_once (mkRequest url (body m)) w).
  destruct (global_fetch (fetched w) (mkRequest url (body m))) as [reason|r];
    simpl in Hfail.
  - unfold bind, SafeFetch.assign, SafeFetch.locals, modify. cbn [fst snd throws].
    rewrite FetchProps.in_world_run, LogProps.log_outcome. reflexivity.
  - unfold record_failure, failure_of, throws.
    destruct (Response.ok r) eqn:Hok.
    + destruct (Response.json r) as [reason|j] eqn:Hjson; [|discriminate].
      unfold bind, SafeFetch.assign, SafeFetch.locals, modify,
        SafeFetch.response_json. rewrite Hjson. cbn [fst snd throw andb].
      rewrite FetchProps.in_world_run, LogProps.log_outcome. reflexivity.
    + apply negb_true_iff in Hfail.
      unfold bind, SafeFetch.assign, SafeFetch.locals, modify. rewrite Hfail.
      reflexivity.
Qed.

Lemma failed_attempt_frame (url : string) (o : SafeFetchOptions) (rq : Request)
      (a : Z) (out : FetchOutcome) (w : World) :
  let w1 := failed_attempt url o rq a out w in
  fetched w1 = S (fetched w)
  /\ network w1 = network w ++ [Call rq]
  /\ written w1 = (written w + (if throws out then 1 else 0))%nat
  /\ (throws out = false -> logEntries w1 = logEntries w)
  /\ handlers w1 = handlers w
  /\ defaultOptions w1 = defaultOptions w
  /\ invoked w1 = invoked w.
Proof.
  cbv zeta. unfold failed_attempt. destruct (throws out).
  - pose proof (LogProps.log_frame (failure_of out) "safe-fetch" (InfoFetch url a o)
                  (fetched_once rq w)) as F.
    cbv zeta in F. destruct F as (_ & Hh & Hd & _ & Hf & Hn & Hi & Hw).
    rewrite Hh, Hd, Hf, Hn, Hi, Hw. unfold fetched_once. cbn.
    repeat split; try lia; try discriminate.
  - unfold fetched_once. cbn. repeat split; try lia.
Qed.

Lemma record_failure_attempt (out : FetchOutcome) (l : SafeFetch.Locals) :
  SafeFetch.attempt (record_failure out l) = SafeFetch.attempt l.
Proof. destruct out; reflexivity. Qed.

Lemma failed_attempts_S (rq : Request) (m : SafeFetchOptions) (a : Z) (k : nat) :
  failed_attempts rq m a (S k)
  = [Call rq]
    ++ (if SafeFetch.attempt_le (a + 1) (retryCount m)
        then [Delay (SafeFetch.backoff (retryDelay m) (a + 1))]
        else [])
    ++ failed_attempts rq m (a + 1) k.
Proof.
  unfold failed_attempts.
  rewrite Nat2Z.inj_succ, seqZ_cons by lia.
  rewrite fmap_cons, concat_cons, Z.pred_succ.
  replace (Z.succ (a + 1)) with (a + 1 + 1) by lia.
  reflexivity.
Qed.

(** [k] failing attempts in a row, while [attempt] stays within
    [retryCount]: the loop has made [k] calls and is where it would be
    with [k] turns fewer to go. *)
Lemma retry_loop_failures (url : string) (o m : SafeFetchOptions) (rc : Z) :
  let rq := mkRequest url (body m) in
  retryCount m = Some rc ->
  forall (k fuel : nat) (w : World) (l : SafeFetch.Locals),
    (forall j, (j < k)%nat -> fails (global_fetch (fetched w + j) rq) = true) ->
    SafeFetch.attempt l + Z.of_nat k <= rc + 1 ->
    exists w' l',
      SafeFetch.retry_loop (k + fuel) url o m (w, l)
      = SafeFetch.retry_loop fuel url o m (w', l')
      /\ SafeFetch.attempt l' = SafeFetch.attempt l + Z.of_nat k
      /\ fetched w' = (fetched w + k)%nat
      /\ network w' = network w ++ failed_attempts rq m (SafeFetch.attempt l) k
      /\ written w' = (written w + thrown_among rq (fetched w) k)%nat
      /\ (thrown_among rq (fetched w) k = 0%nat -> logEntries w' = logEntries w)
      /\ handlers w' = handlers w
      /\ defaultOptions w' = defaultOptions w
      /\ invoked w' = invoked w.
Proof.
  cbv zeta. intros Hrc k. induction k as [|k IH]; intros fuel w l Hfail Hle.
  - exists w, l. unfold failed_attempts. cbn.
    rewrite app_nil_r, Z.add_0_r, !Nat.add_0_r. repeat split.
  - change (S k + fuel)%nat with (S (k + fuel)).
    rewrite FetchTotal.retry_loop_step, Hrc.
    assert (Hin : SafeFetch.attempt_le (SafeFetch.attempt l) (Some rc) = true).
    { unfold SafeFetch.attempt_le. apply Z.leb_le. lia. }
    rewrite Hin.
    pose proof (Hfail 0%nat ltac:(lia)) as Hfirst. rewrite Nat.add_0_r in Hfirst.
    rewrite (attempt_once_failed url o m w l Hfirst). cbv zeta.
    rewrite record_failure_attempt.
    set (out := global_fetch (fetched w) (mkRequest url (body m))) in *.
    set (w1 := failed_attempt url o (mkRequest url (body m)) (SafeFetch.attempt l) out w).
    destruct (failed_attempt_frame url o (mkRequest url (body m)) (SafeFetch.attempt l) out w)
      as (Hf1 & Hn1 & Hw1 & Hl1 & Hh1 & Hd1 & Hi1).
    fold w1 in Hf1, Hn1, Hw1, Hl1, Hh1, Hd1, Hi1.
    set (l2 := SafeFetch.set_attempt (SafeFetch.attempt l + 1) (record_failure out l)).
    assert (Hl2 : SafeFetch.attempt l2 = SafeFetch.attempt l + 1) by reflexivity.
    set (w2 := if SafeFetch.attempt_le (SafeFetch.attempt l2) (Some rc)
               then after (SafeFetch.delay
                             (SafeFetch.backoff (retryDelay m) (SafeFetch.attempt l2))) w1
               else w1).
    assert (Hw2 : fetched w2 = fetched w1 /\ written w2 = written w1
                  /\ logEntries w2 = logEntries w1 /\ handlers w2 = handlers w1
                  /\ defaultOptions w2 = defaultOptions w1 /\ invoked w2 = invoked w1
                  /\ network w2
                     = network w1
                       ++ (if SafeFetch.attempt_le (SafeFetch.attempt l + 1) (Some rc)
                           then [Delay (SafeFetch.backoff (retryDelay m)
                                          (SafeFetch.attempt l + 1))]
                           else [])).
    { subst w2. rewrite Hl2.
      destruct (SafeFetch.attempt_le (SafeFetch.attempt l + 1) (Some rc)).
      - repeat split.
      - rewrite app_nil_r. repeat split. }
    destruct Hw2 as (Hf2 & Hwr2 & Hlg2 & Hh2 & Hd2 & Hi2 & Hn2).
    clearbody w2 w1 l2.
    destruct (IH fuel w2 l2) as (w' & l' & Hrun & Ha & Hf & Hn & Hw & Hl & Hh & Hd & Hi).
    { intros j Hj. rewrite Hf2, Hf1.
      replace (S (fetched w) + j)%nat with (fetched w + S j)%nat by lia.
      apply Hfail. lia. }
    { lia. }
    exists w', l'. split; [exact Hrun|].
    rewrite Ha, Hf, Hn, Hw, Hh, Hd, Hi, Hl2, Hf2, Hf1, Hn2, Hn1, Hwr2, Hw1,
      Hh2, Hh1, Hd2, Hd1, Hi2, Hi1.
    split; [lia|]. split; [lia|]. split.
    { rewrite failed_attempts_S, Hrc, <- !app_assoc. reflexivity. }
    cbn [thrown_among]. fold out.
    split; [lia|]. split; [|repeat split].
    intros Hzero. rewrite Hl, Hlg2 by (rewrite Hf2, Hf1; lia).
    apply Hl1. destruct (throws out); [discriminate|reflexivity].
Qed.

(** One attempt that succeeds. *)
Lemma attempt_once_succeeds (url : string) (o m : SafeFetchOptions)
      (w : World) (l : SafeFetch.Locals) (r : Response.t) (d : json) :
  let rq := mkRequest url (body m) in
  global_fetch (fetched w) rq = Responded r ->
  Response.ok r = true ->
  Response.json r = inr d ->
  SafeFetch.attempt_once url o m (w, l)
  = (Ret (SafeFetch.Return
            {| SafeFetchResponse.data := Some d;
               SafeFetchResponse.error := None;
               SafeFetchResponse.status := Some (Response.status r);
               SafeFetchResponse.headers := Some (Response.headers r) |}),
     (fetched_once rq w, SafeFetch.set_lastResponse r l)).
Proof.
  cbv zeta. intros Hcall Hok Hjson.
  unfold SafeFetch.attempt_once, try_catch.
  unfold bind at 1. rewrite FetchProps.in_world_run.
  unfold outcome, after. rewrite FetchProps.global_fetch_call_run, Hcall. cbn [fst snd].
  unfold bind, SafeFetch.assign, modify, SafeFetch.response_json.
  rewrite Hok, Hjson. reflexivity.
Qed.

Lemma failed_attempts_then_call (rq : Request) (m : SafeFetchOptions) (rc d : Z)
      (k : nat) (a : Z) :
  retryCount m = Some rc ->
  retryDelay m = Some d ->
  a + Z.of_nat k <= rc ->
  failed_attempts rq m a k ++ [Call rq]
  = Call rq :: concat ((fun j => [Delay (Some (d * 2 ^ (j - 1))); Call rq])
                         <$> seqZ (a + 1) (Z.of_nat k)).
Proof.
  intros Hrc Hd. revert a. induction k as [|k IH]; intros a Hle.
  - reflexivity.
  - rewrite Nat2Z.inj_succ, seqZ_cons by lia.
    rewrite fmap_cons, concat_cons, Z.pred_succ.
    replace (Z.succ (a + 1)) with (a + 1 + 1) by lia.
    rewrite failed_attempts_S, Hrc, Hd.
    replace (SafeFetch.attempt_le (a + 1) (Some rc)) with true
      by (symmetry; apply Z.leb_le; lia).
    rewrite <- !app_assoc, IH by lia.
    reflexivity.
Qed.

(** X18. Retrying stops at the first success.  When the first [k] calls
    fail, with [k] at most [retryCount], and the next one succeeds, [fetch]
    returns that response's data, status and headers with no error, the
    earlier failures leaving no trace in the result; it has made exactly
    [k + 1] calls, with the delays [retryDelay * 2^(j-1)] before retry
    [j]; and of the [k] failures it has logged those that were thrown. *)
Theorem retries_stop_at_first_success
        (url : string) (options : SafeFetchOptions) (w : World) (rc d : Z) (k : nat)
        (r : Response.t) (document : json) :
  let m := spread (defaultOptions w) options in
  let rq := mkRequest url (body m) in
  retryCount m = Some rc ->
  retryDelay m = Some d ->
  Z.of_nat k <= rc ->
  (forall j, (j < k)%nat -> fails (global_fetch (fetched w + j) rq) = true) ->
  global_fetch (fetched w + k) rq = Responded r ->
  Response.ok r = true ->
  Response.json r = inr document ->
  outcome (SafeFetch.fetch url options) w
  = Ret {| SafeFetchResponse.data := Some document;
           SafeFetchResponse.error := None;
           SafeFetchResponse.status := Some (Response.status r);
           SafeFetchResponse.headers := Some (Response.headers r) |}
  /\ network (after (SafeFetch.fetch url options) w)
     = network w ++ primary_schedule rq d (Z.of_nat k)
  /\ fetched (after (SafeFetch.fetch url options) w) = (fetched w + k + 1)%nat
  /\ written (after (SafeFetch.fetch url options) w)
     = (written w + thrown_among rq (fetched w) k)%nat.
Proof.
  cbv zeta. intros Hrc Hd Hk Hfail Hcall Hok Hjson.
  unfold outcome, after, SafeFetch.fetch, SafeFetch.fetch_with.
  set (m := spread (defaultOptions w) options) in *.
  rewrite Hrc. unfold SafeFetch.turns.
  replace (S (Z.to_nat (rc + 1))) with (k + S (Z.to_nat (rc + 1) - k))%nat by lia.
  destruct (retry_loop_failures url options m rc Hrc k (S (Z.to_nat (rc + 1) - k)) w
              (SafeFetch.mkLocals 0 None None None) Hfail)
    as (w' & l' & Hrun & Ha & Hf & Hn & Hw & _).
  { cbn [SafeFetch.attempt]. lia. }
  cbn [SafeFetch.attempt] in Ha, Hn.
  rewrite Hrun, FetchTotal.retry_loop_step, Hrc.
  replace (SafeFetch.attempt_le (SafeFetch.attempt l') (Some rc)) with true
    by (symmetry; apply Z.leb_le; lia).
  rewrite <- Hf in Hcall.
  rewrite (attempt_once_succeeds url options m w' l' r document Hcall Hok Hjson).
  cbn [fst snd]. unfold fetched_once. cbn.
  rewrite Hn, Hf, Hw. split; [reflexivity|split; [|split; [lia|reflexivity]]].
  rewrite <- app_assoc. f_equal.
  rewrite (failed_attempts_then_call _ m rc d k 0 Hrc Hd) by lia. reflexivity.
Qed.

(** The loop when every attempt within [retryCount] fails. *)
Lemma retry_loop_exhausted (url : string) (o : SafeFetchOptions) (w : World) (rc : Z) :
  let m := spread (defaultOptions w) o in
  let rq := mkRequest url (body m) in
  retryCount m = Some rc ->
  0 <= rc ->
  (forall j, (j < Z.to_nat (rc + 1))%nat ->
             fails (global_fetch (fetched w + j) rq) = true) ->
  exists w' l',
    SafeFetch.fetch url o w = SafeFetch.after_loop o m l' w'
    /\ network w' = network w ++ failed_attempts rq m 0 (Z.to_nat (rc + 1))
    /\ written w' = (written w + thrown_among rq (fetched w) (Z.to_nat (rc + 1)))%nat
    /\ (thrown_among rq (fetched w) (Z.to_nat (rc + 1)) = 0%nat ->
        logEntries w' = logEntries w)
    /\ handlers w' = handlers w
    /\ defaultOptions w' = defaultOptions w
    /\ invoked w' = invoked w
    /\ fetched w' = (fetched w + Z.to_nat (rc + 1))%nat.
Proof.
  cbv zeta. intros Hrc Hpos Hfail.
  unfold SafeFetch.fetch, SafeFetch.fetch_with.
  set (m := spread (defaultOptions w) o) in *.
  rewrite Hrc. unfold SafeFetch.turns.
  replace (S (Z.to_nat (rc + 1))) with (Z.to_nat (rc + 1) + 1)%nat by lia.
  destruct (retry_loop_failures url o m rc Hrc (Z.to_nat (rc + 1)) 1 w
              (SafeFetch.mkLocals 0 None None None) Hfail)
    as (w' & l' & Hrun & Ha & Hf & Hn & Hw & Hl & Hh & Hd & Hi).
  { cbn [SafeFetch.attempt]. lia. }
  cbn [SafeFetch.attempt] in Ha, Hn.
  rewrite Hrun, FetchTotal.retry_loop_step, Hrc.
  replace (SafeFetch.attempt_le (SafeFetch.attempt l') (Some rc)) with false
    by (symmetry; apply Z.leb_gt; lia).
  exists w', l'. repeat split; assumption.
Qed.

Lemma thrown_among_none (rq : Request) (first count : nat) :
  (forall n, throws (global_fetch n rq) = false) ->
  thrown_among rq first count = 0%nat.
Proof.
  intros Hnone. revert first. induction count as [|k IH]; intros first.
  - reflexivity.
  - cbn [thrown_among]. rewrite Hnone, IH. reflexivity.
Qed.

Lemma after_loop_without_fallback_url (o m : SafeFetchOptions) (l : SafeFetch.Locals)
      (w : World) :
  SafeFetch.truthy_string (fallbackUrl m) = false ->
  SafeFetch.after_loop o m l w
  = (Ret {| SafeFetchResponse.data := fallbackData m;
            SafeFetchResponse.error := SafeFetch.lastError l;
            SafeFetchResponse.status := SafeFetch.lastStatus l;
            SafeFetchResponse.headers := SafeFetch.lastHeaders l |}, w).
Proof.
  intros Hurl. unfold SafeFetch.after_loop. rewrite Hurl.
  unfold bind, ret. destruct (fallbackData m); reflexivity.
Qed.

(** X19. Of the failures of a request only those that are thrown are
    logged.  Against a transport that fails every attempt, with no fallback
    URL, [fetch] writes one record per rejected call or unparseable
    success body, and none for a response with an error status: when every
    call is answered with an error status the log is left exactly as it
    was. *)
Theorem only_thrown_failures_are_logged
        (url : string) (options : SafeFetchOptions) (w : World) (rc : Z) :
  let m := spread (defaultOptions w) options in
  let rq := mkRequest url (body m) in
  retryCount m = Some rc ->
  0 <= rc ->
  (forall n, fails (global_fetch n rq) = true) ->
  SafeFetch.truthy_string (fallbackUrl m) = false ->
  let w' := after (SafeFetch.fetch url options) w in
  written w' = (written w + thrown_among rq (fetched w) (Z.to_nat (rc + 1)))%nat
  /\ ((forall n, throws (global_fetch n rq) = false) ->
      written w' = written w /\ logEntries w' = logEntries w).
Proof.
  cbv zeta. intros Hrc Hpos Hfail Hurl.
  destruct (retry_loop_exhausted url options w rc Hrc Hpos (fun j _ => Hfail _))
    as (w' & l' & Hrun & _ & Hw & Hl & _).
  unfold after. rewrite Hrun, after_loop_without_fallback_url by exact Hurl.
  cbn [snd]. split; [exact Hw|].
  intros Hnone. rewrite Hw, Hl by (apply thrown_among_none, Hnone).
  rewrite thrown_among_none by exact Hnone. split; [lia|reflexivity].
Qed.

(** X20. With a negative [retryCount] (or none at all) the request is never
    sent: [fetch] goes straight to the fallbacks, and with no fallback URL
    it returns at once, without any call or delay and without writing to the
    log, a result that has the fallback data, if any, and neither error nor
    status nor headers. *)
Theorem negative_retry_count_sends_nothing
        (url : string) (options : SafeFetchOptions) (w : World) :
  let m := spread (defaultOptions w) options in
  SafeFetch.attempt_le 0 (retryCount m) = false ->
  SafeFetch.fetch url options w
  = SafeFetch.after_loop options m (SafeFetch.mkLocals 0 None None None) w
  /\ (SafeFetch.truthy_string (fallbackUrl m) = false ->
      SafeFetch.fetch url options w
      = (Ret {| SafeFetchResponse.data := fallbackData m;
                SafeFetchResponse.error := None;
                SafeFetchResponse.status := None;
                SafeFetchResponse.headers := None |}, w)).
Proof.
  cbv zeta. intros Hle.
  assert (Hrun : SafeFetch.fetch url options w
                 = SafeFetch.after_loop options (spread (defaultOptions w) options)
                     (SafeFetch.mkLocals 0 None None None) w).
  { unfold SafeFetch.fetch, SafeFetch.fetch_with.
    rewrite FetchTotal.retry_loop_step. cbn [SafeFetch.attempt].
    rewrite Hle. reflexivity. }
  split; [exact Hrun|].
  intros Hurl. rewrite Hrun, after_loop_without_fallback_url by exact Hurl. reflexivity.
Qed.

Lemma total_delay_app (l1 l2 : list NetEvent) :
  total_delay (l1 ++ l2) = total_delay l1 + total_delay l2.
Proof.
  unfold total_delay. induction l1 as [|e l1 IH]; [reflexivity|].
  cbn [app foldr]. rewrite IH. destruct e as [rq|[ms|]]; lia.
Qed.

Lemma total_delay_failed_attempts (rq : Request) (m : SafeFetchOptions) (rc d : Z)
      (k : nat) (a : Z) :
  retryCount m = Some rc ->
  retryDelay m = Some d ->
  0 <= a ->
  a + Z.of_nat k <= rc + 1 ->
  total_delay (failed_attempts rq m a k)
  = d * (2 ^ Z.max a (Z.min (a + Z.of_nat k) rc) - 2 ^ a).
Proof.
  intros Hrc Hd. revert a. induction k as [|k IH]; intros a Ha Hle.
  - replace (Z.max a (Z.min (a + Z.of_nat 0) rc)) with a by lia.
    change (failed_attempts rq m a 0) with (@nil NetEvent).
    change (total_delay []) with 0. ring.
  - rewrite failed_attempts_S, !total_delay_app, IH, Hrc, Hd by lia.
    destruct (Z.leb_spec (a + 1) rc) as [Hin|Hout];
      unfold SafeFetch.attempt_le; cbn [SafeFetch.backoff fmap option_fmap option_map].
    + replace (a + 1 <=? rc) with true by (symmetry; apply Z.leb_le; lia).
      replace (Z.max (a + 1) (Z.min (a + 1 + Z.of_nat k) rc))
        with (Z.max a (Z.min (a + Z.of_nat (S k)) rc)) by lia.
      replace (a + 1 - 1) with a by lia.
      rewrite (Z.pow_add_r 2 a 1) by lia.
      unfold total_delay. cbn [foldr]. change (2 ^ 1) with 2. ring.
    + replace (a + 1 <=? rc) with false by (symmetry; apply Z.leb_gt; lia).
      replace (Z.max (a + 1) (Z.min (a + 1 + Z.of_nat k) rc)) with (a + 1) by lia.
      replace (Z.max a (Z.min (a + Z.of_nat (S k)) rc)) with a by lia.
      unfold total_delay. cbn [foldr]. ring.
Qed.

(** X21. Against a transport that fails every attempt, [fetch] waits
    [retryDelay * (2^retryCount - 1)] milliseconds in all: the delays
    double from [retryDelay] on, and none follows the last attempt or
    precedes the call of the fallback URL. *)
Theorem total_backoff_of_a_failing_request
        (url : string) (options : SafeFetchOptions) (w : World) (rc d : Z) :
  let m := spread (defaultOptions w) options in
  let rq := mkRequest url (body m) in
  retryCount m = Some rc ->
  0 <= rc ->
  retryDelay m = Some d ->
  (forall n, fails (global_fetch n rq) = true) ->
  total_delay (network (after (SafeFetch.fetch url options) w))
  = total_delay (network w) + d * (2 ^ rc - 1).
Proof.
  cbv zeta. intros Hrc Hpos Hd Hfail.
  destruct (retry_loop_exhausted url options w rc Hrc Hpos (fun j _ => Hfail _))
    as (w' & l' & Hrun & Hn & _).
  unfold after. rewrite Hrun.
  pose proof (FetchProps.after_loop_network options (spread (defaultOptions w) options)
                l' w') as Hnet.
  unfold after in Hnet. rewrite Hnet, Hn, !total_delay_app.
  rewrite (total_delay_failed_attempts _ _ rc d) by (try assumption; lia).
  replace (Z.max 0 (Z.min (0 + Z.of_nat (Z.to_nat (rc + 1))) rc)) with rc by lia.
  assert (Hfb : total_delay (fallback_call (spread (defaultOptions w) options)) = 0).
  { unfold fallback_call. destruct (SafeFetch.truthy_string _); reflexivity. }
  rewrite Hfb. change (2 ^ 0) with 1. lia.
Qed.

Lemma keeps_log (v : Value) (c : string) (i : Info) :
  keeps configuration (ExceptionLogger.log v c i).
Proof.
  intros w. pose proof (LogProps.log_frame v c i w) as F. cbv zeta in F.
  destruct F as (Hm & Hh & Hd & Hl & _ & _ & Hi & _).
  unfold configuration. rewrite Hm, Hh, Hd, Hl, Hi. reflexivity.
Qed.

Lemma keeps_global_fetch_call (url : string) (b : option string) :
  keeps configuration (SafeFetch.global_fetch_call url b).
Proof.
  intros w. unfold after. rewrite FetchProps.global_fetch_call_run. reflexivity.
Qed.

Lemma keeps_response_json {S X} (f : S -> X) (r : Response.t) :
  keeps f (SafeFetch.response_json r).
Proof.
  unfold SafeFetch.response_json. destruct (Response.json r);
    [apply keeps_throw|apply keeps_ret].
Qed.

Lemma keeps_in_world {A X} (f : World -> X) (m : M World A) :
  keeps f m -> keeps (fun s : SafeFetch.Frame => f (fst s)) (SafeFetch.in_world m).
Proof.
  intros Hm [w l]. unfold after. rewrite FetchProps.in_world_run. apply Hm.
Qed.

Lemma keeps_assign {X} (f : World -> X) (g : SafeFetch.Locals -> SafeFetch.Locals) :
  keeps (fun s : SafeFetch.Frame => f (fst s)) (SafeFetch.assign g).
Proof. intros [w l]. reflexivity. Qed.

Lemma keeps_locals {X} (f : SafeFetch.Frame -> X) : keeps f SafeFetch.locals.
Proof. intros s. reflexivity. Qed.

Lemma keeps_handleConflict (url : string) (m : SafeFetchOptions) (r : Response.t) :
  keeps configuration (SafeFetch.handleConflict url m r).
Proof.
  unfold SafeFetch.handleConflict.
  apply keeps_bind.
  - apply keeps_try_catch.
    + apply keeps_bind; [apply keeps_response_json|]. intros serverData.
      apply keeps_bind.
      { destruct (SafeFetch.truthy_string (body m)); [|apply keeps_ret].
        destruct (JSON_parse _); [apply keeps_throw|apply keeps_ret]. }
      intros clientData.
      destruct (conflictResolution m) as [[| |]|]; try apply keeps_ret.
      apply keeps_bind; [apply keeps_global_fetch_call|]. intros clientResponse.
      destruct (Response.ok clientResponse); apply keeps_ret.
    + intros error. apply keeps_bind; [apply keeps_log|]. intros _. apply keeps_ret.
  - intros [v|clientResponse]; [apply keeps_ret|].
    apply keeps_bind; [apply keeps_response_json|]. intros j. apply keeps_ret.
Qed.

Lemma keeps_attempt_once (url : string) (o m : SafeFetchOptions) :
  keeps (fun s : SafeFetch.Frame => configuration (fst s))
        (SafeFetch.attempt_once url o m).
Proof.
  unfold SafeFetch.attempt_once. apply keeps_try_catch.
  - apply keeps_bind; [apply keeps_in_world, keeps_global_fetch_call|].
    intros response. apply keeps_bind; [apply keeps_assign|]. intros _.
    destruct (Response.ok response).
    + apply keeps_bind; [apply keeps_response_json|]. intros data. apply keeps_ret.
    + apply keeps_bind.
      { destruct (_ && _); [apply keeps_in_world, keeps_handleConflict|apply keeps_ret]. }
      intros [d|]; [apply keeps_ret|].
      apply keeps_bind; [apply keeps_assign|]. intros _. apply keeps_ret.
  - intros error. apply keeps_bind; [apply keeps_assign|]. intros _.
    apply keeps_bind; [apply keeps_locals|]. intros l.
    apply keeps_bind; [apply keeps_in_world, keeps_log|]. intros _. apply keeps_ret.
Qed.

Lemma keeps_retry_loop (fuel : nat) (url : string) (o m : SafeFetchOptions) :
  keeps (fun s : SafeFetch.Frame => configuration (fst s))
        (SafeFetch.retry_loop fuel url o m).
Proof.
  induction fuel as [|fuel IH]; [intros s; reflexivity|].
  cbn [SafeFetch.retry_loop].
  apply keeps_bind; [apply keeps_locals|]. intros l.
  destruct (SafeFetch.attempt_le _ _); [|apply keeps_ret].
  apply keeps_bind; [apply keeps_attempt_once|]. intros [r|]; [apply keeps_ret|].
  apply keeps_bind; [apply keeps_assign|]. intros _.
  apply keeps_bind; [apply keeps_locals|]. intros l'.
  apply keeps_bind; [|intros _; exact IH].
  destruct (SafeFetch.attempt_le _ _); [|apply keeps_ret].
  apply (keeps_in_world configuration). intros w. reflexivity.
Qed.

Lemma keeps_after_loop (o m : SafeFetchOptions) (l : SafeFetch.Locals) :
  keeps configuration (SafeFetch.after_loop o m l).
Proof.
  unfold SafeFetch.after_loop. apply keeps_bind.
  - destruct (SafeFetch.truthy_string _); [|apply keeps_ret].
    apply keeps_try_catch.
    + apply keeps_bind; [apply keeps_global_fetch_call|]. intros response.
      destruct (Response.ok response); [|apply keeps_ret].
      apply keeps_bind; [apply keeps_response_json|]. intros data. apply keeps_ret.
    + intros error. apply keeps_bind; [apply keeps_log|]. intros _. apply keeps_ret.
  - intros [r|]; [apply keeps_ret|]. destruct (fallbackData m); apply keeps_ret.
Qed.

(** X22. Whatever the transport does, and however the request ends,
    [fetch] leaves the configuration alone: the handler table, the default
    options, the bound and the level of the log are as before, and no
    registered handler has been called. *)
Theorem fetch_leaves_configuration_alone
        (url : string) (options : SafeFetchOptions) (w : World) :
  let w' := after (SafeFetch.fetch url options) w in
  handlers w' = handlers w
  /\ defaultOptions w' = defaultOptions w
  /\ maxLogEntries w' = maxLogEntries w
  /\ logLevel w' = logLevel w
  /\ invoked w' = invoked w.
Proof.
  cbv zeta.
  assert (Hkeep : configuration (after (SafeFetch.fetch url options) w) = configuration w).
  { unfold after, SafeFetch.fetch, SafeFetch.fetch_with.
    set (fuel := S _). set (m := spread (defaultOptions w) options).
    pose proof (keeps_retry_loop fuel url options m
                  (w, SafeFetch.mkLocals 0 None None None)) as Hloop.
    unfold after in Hloop. cbn [fst] in Hloop.
    destruct (SafeFetch.retry_loop fuel url options m _) as [[[r|]|v|] [w1 l1]];
      cbn [fst snd] in *; try exact Hloop.
    rewrite <- Hloop. apply keeps_after_loop. }
  unfold configuration in Hkeep. injection Hkeep as -> -> -> -> ->.
  repeat split.
Qed.

Lemma spread_assoc (a b c : SafeFetchOptions) :
  spread (spread a b) c = spread a (spread b c).
Proof.
  destruct a, b, c. unfold spread, override. cbn.
  repeat match goal with
         | |- context [match ?x with Some _ => _ | None => _ end] => destruct x
         end; reflexivity.
Qed.

(** X23. Default options accumulate: [setDefaultOptions] merges into the
    defaults in force, so setting [o1] and then [o2] is setting their merge
    at once, and setting nothing changes nothing; and a request made with
    options [o2] after [setDefaultOptions(o1)] runs with the same merged
    options as a request made with the merge of [o1] and [o2] before it. *)
Theorem default_options_accumulate (o1 o2 : SafeFetchOptions) (w : World) :
  after (SafeFetch.setDefaultOptions o2) (after (SafeFetch.setDefaultOptions o1) w)
  = after (SafeFetch.setDefaultOptions (spread o1 o2)) w
  /\ after (SafeFetch.setDefaultOptions no_options) w = w
  /\ spread (defaultOptions (after (SafeFetch.setDefaultOptions o1) w)) o2
     = spread (defaultOptions w) (spread o1 o2).
Proof.
  unfold after, SafeFetch.setDefaultOptions, modify. cbn [snd].
  destruct w as [? ? ? ? d ? ? ? ? ? ? ?]. cbn.
  rewrite spread_assoc. split; [reflexivity|split; [|reflexivity]].
  destruct d; reflexivity.
Qed.

(** X24. Conflict resolution reads both documents before it looks at the
    strategy.  So under every strategy, 'server-wins' included, a server
    body that cannot be parsed, or a client body that cannot be parsed,
    makes it yield [undefined]: the failure is logged under
    'safe-fetch-conflict' and no request is sent. *)
Theorem unreadable_document_defeats_every_strategy
        (url : string) (m : SafeFetchOptions) (r : Response.t) (w : World) :
  (forall reason,
      Response.json r = inl reason ->
      SafeFetch.handleConflict url m r w
      = (Ret None,
         after (ExceptionLogger.log reason "safe-fetch-conflict" (InfoUrlOptions url m)) w))
  /\ (forall s e,
        Response.json r = inr s ->
        SafeFetch.truthy_string (body m) = true ->
        JSON_parse (default ""%string (body m)) = inl e ->
        SafeFetch.handleConflict url m r w
        = (Ret None,
           after (ExceptionLogger.log (VError e) "safe-fetch-conflict"
                    (InfoUrlOptions url m)) w)).
Proof.
  split.
  - intros reason Hjson.
    unfold SafeFetch.handleConflict, try_catch, SafeFetch.response_json.
    rewrite Hjson. unfold bind, throw. rewrite LogProps.log_run. reflexivity.
  - intros s e Hjson Hbody Hparse.
    unfold SafeFetch.handleConflict, try_catch, SafeFetch.response_json.
    rewrite Hjson, Hbody, Hparse. unfold bind, throw, ret. rewrite LogProps.log_run. reflexivity.
Qed.

(** X25. Under 'client-wins' the client's document is sent again, once, to
    the same URL.  A reply with a success status yields its parsed body,
    and one with an error status yields [undefined] with nothing logged; a
    rejected call yields [undefined] and is logged under
    'safe-fetch-conflict'; but a reply with a success status and a body
    that cannot be parsed makes [handleConflict] itself throw, with nothing
    logged by it. *)
Theorem client_wins_sends_again
        (url : string) (m : SafeFetchOptions) (r : Response.t) (w : World)
        (s : json) (clientData : option json) :
  let again := mkRequest url (JSON_stringify <$> clientData) in
  conflictResolution m = Some client_wins ->
  Response.json r = inr s ->
  sent_document m clientData ->
  SafeFetch.handleConflict url m r w
  = match global_fetch (fetched w) again with
    | Rejected reason =>
        (Ret None,
         after (ExceptionLogger.log reason "safe-fetch-conflict" (InfoUrlOptions url m))
               (fetched_once again w))
    | Responded reply =>
        if Response.ok reply
        then match Response.json reply with
             | inr document => (Ret (Some document), fetched_once again w)
             | inl reason => (Throw reason, fetched_once again w)
             end
        else (Ret None, fetched_once again w)
    end.
Proof.
  cbv zeta. intros Hcr Hjson Hsent.
  assert (Hclient :
    (if SafeFetch.truthy_string (body m)
     then match JSON_parse (default ""%string (body m)) with
          | inl e => throw (VError e)
          | inr j => ret (Some j)
          end
     else ret None) = ret (S:=World) clientData).
  { destruct clientData as [c|]; simpl in Hsent.
    - destruct Hsent as [-> ->]. reflexivity.
    - rewrite Hsent. reflexivity. }
  unfold SafeFetch.handleConflict, try_catch, SafeFetch.response_json.
  rewrite Hjson, Hclient, Hcr.
  unfold bind, ret. rewrite FetchProps.global_fetch_call_run.
  fold (fetched_once (mkRequest url (JSON_stringify <$> clientData)) w).
  destruct (global_fetch (fetched w) (mkRequest url (JSON_stringify <$> clientData)))
    as [reason|reply].
  - rewrite LogProps.log_run. reflexivity.
  - destruct (Response.ok reply); [|reflexivity].
    destruct (Response.json reply); reflexivity.
Qed.

(** X26. A 409 that conflict resolution does not settle is an ordinary
    failed attempt.  With no strategy configured, or when [handleConflict]
    yields [undefined], the attempt ends with the error
    "HTTP error! status: 409", not logged by [fetch], and the loop goes on
    to retry.  When [handleConflict] throws (the unparseable reply under
    'client-wins'), the thrown value becomes the attempt's error and is
    logged under 'safe-fetch' with the number of the attempt. *)
Theorem unresolved_conflict_is_a_failed_attempt
        (url : string) (o m : SafeFetchOptions) (w : World) (l : SafeFetch.Locals)
        (r : Response.t) :
  let rq := mkRequest url (body m) in
  let failed := SafeFetch.set_lastError (SafeFetch.http_error 409)
                  (SafeFetch.set_lastResponse r l) in
  global_fetch (fetched w) rq = Responded r ->
  Response.status r = 409 ->
  (conflictResolution m = None ->
   SafeFetch.attempt_once url o m (w, l)
   = (Ret SafeFetch.Continue, (fetched_once rq w, failed)))
  /\ (forall w2,
        is_Some (conflictResolution m) ->
        SafeFetch.handleConflict url m r (fetched_once rq w) = (Ret None, w2) ->
        SafeFetch.attempt_once url o m (w, l) = (Ret SafeFetch.Continue, (w2, failed)))
  /\ (forall reason w2,
        is_Some (conflictResolution m) ->
        SafeFetch.handleConflict url m r (fetched_once rq w) = (Throw reason, w2) ->
        SafeFetch.attempt_once url o m (w, l)
        = (Ret SafeFetch.Continue,
           (after (ExceptionLogger.log reason "safe-fetch"
                     (InfoFetch url (SafeFetch.attempt l) o)) w2,
            SafeFetch.set_lastError reason (SafeFetch.set_lastResponse r l)))).
Proof.
  cbv zeta. intros Hout H409.
  assert (Hok : Response.ok r = false).
  { unfold Response.ok. rewrite H409. reflexivity. }
  assert (Hstart : forall (k : Response.t -> M SafeFetch.Frame SafeFetch.Flow) h,
    try_catch
      (response <- SafeFetch.in_world (SafeFetch.global_fetch_call url (body m)) ;;
       SafeFetch.assign (SafeFetch.set_lastResponse response) ;;; k response) h (w, l)
    = try_catch (k r) h
        (fetched_once (mkRequest url (body m)) w, SafeFetch.set_lastResponse r l)).
  { intros k h. unfold try_catch. unfold bind at 1. rewrite FetchProps.in_world_run.
    unfold outcome, after. rewrite FetchProps.global_fetch_call_run, Hout. reflexivity. }
  unfold SafeFetch.attempt_once. rewrite Hstart, Hok, H409. clear Hstart.
  cbn [Z.eqb Pos.eqb andb].
  split; [|split].
  - intros Hnone. rewrite Hnone.
    rewrite bool_decide_eq_false_2 by (intros [x Hx]; discriminate).
    reflexivity.
  - intros w2 Hsome Hres. rewrite bool_decide_eq_true_2 by exact Hsome.
    unfold try_catch. unfold bind at 1. rewrite FetchProps.in_world_run.
    unfold outcome, after. rewrite Hres. reflexivity.
  - intros reason w2 Hsome Hres. rewrite bool_decide_eq_true_2 by exact Hsome.
    unfold try_catch. unfold bind at 1. rewrite FetchProps.in_world_run.
    unfold outcome, after. rewrite Hres. cbn [fst snd].
    rewrite FetchTotal.catch_clause_run. reflexivity.
Qed.

(** X27. The fallback URL rescues a request all of whose attempts failed:
    when the one call to the fallback URL, made after the last attempt with
    the same options, succeeds, [fetch] returns its data, status and
    headers with no error; it has made one call more than the attempts, and
    logged the attempts' thrown failures only. *)
Theorem fallback_url_rescues
        (url : string) (options : SafeFetchOptions) (w : World) (rc : Z)
        (r : Response.t) (document : json) :
  let m := spread (defaultOptions w) options in
  let rq := mkRequest url (body m) in
  let fallback := mkRequest (default ""%string (fallbackUrl m)) (body m) in
  let attempts := Z.to_nat (rc + 1) in
  retryCount m = Some rc ->
  0 <= rc ->
  (forall j, (j < attempts)%nat -> fails (global_fetch (fetched w + j) rq) = true) ->
  SafeFetch.truthy_string (fallbackUrl m) = true ->
  global_fetch (fetched w + attempts) fallback = Responded r ->
  Response.ok r = true ->
  Response.json r = inr document ->
  outcome (SafeFetch.fetch url options) w
  = Ret {| SafeFetchResponse.data := Some document;
           SafeFetchResponse.error := None;
           SafeFetchResponse.status := Some (Response.status r);
           SafeFetchResponse.headers := Some (Response.headers r) |}
  /\ fetched (after (SafeFetch.fetch url options) w) = (fetched w + attempts + 1)%nat
  /\ written (after (SafeFetch.fetch url options) w)
     = (written w + thrown_among rq (fetched w) attempts)%nat.
Proof.
  cbv zeta. intros Hrc Hpos Hfail Hurl Hcall Hok Hjson.
  destruct (retry_loop_exhausted url options w rc Hrc Hpos Hfail)
    as (w' & l' & Hrun & _ & Hw & _ & _ & _ & _ & Hf).
  unfold outcome, after. rewrite Hrun.
  unfold SafeFetch.after_loop. rewrite Hurl.
  unfold try_catch, bind, ret, SafeFetch.response_json.
  rewrite FetchProps.global_fetch_call_run, Hf, Hcall, Hok, Hjson.
  cbn. rewrite ?Hf, Hw. repeat split; lia.
Qed.

End WithPlatform.
End FetchMore.

(* ===================================================================== *)
(** ** Clearing the log *)
(* ===================================================================== *)

Module ClearProps.
Import LogSpec.
Section WithPlatform.
Context {P : Platform}.

(** X28. [clearLogs] empties the buffer and nothing else: the statistics
    then count nothing and give a success rate of 100.00, the environment
    snapshot is kept, and the writes that follow fill the buffer as they
    would fill an empty one, numbered on from the writes made before. *)
Theorem cleared_log_starts_over (today : Z) (inputs : list Input) (w : World) :
  let w0 := after ExceptionLogger.clearLogs w in
  outcome ExceptionLogger.getLogEntries w0 = Ret []
  /\ Statistics.totalExceptions (Statistics.getStatistics today w0) = 0%nat
  /\ Statistics.successRate (Statistics.getStatistics today w0) = "100.00"%string
  /\ environmentInfo w0 = environmentInfo w
  /\ written w0 = written w
  /\ logEntries (after (log_all inputs) w0)
     = keep_last (maxLogEntries w) (records w0 inputs).
Proof.
  cbv zeta.
  assert (Hempty : logEntries (after ExceptionLogger.clearLogs w) = []).
  { destruct w; reflexivity. }
  assert (Hmax : maxLogEntries (after ExceptionLogger.clearLogs w) = maxLogEntries w).
  { destruct w; reflexivity. }
  split; [|split; [|split; [|split; [|split]]]].
  - unfold outcome, ExceptionLogger.getLogEntries, bind, get_state, ret. cbn [fst].
    rewrite Hempty. reflexivity.
  - unfold Statistics.getStatistics. rewrite Hempty. reflexivity.
  - unfold Statistics.getStatistics. rewrite Hempty. vm_compute. reflexivity.
  - destruct w; reflexivity.
  - destruct w; reflexivity.
  - rewrite LogProps.log_all_logEntries by (rewrite Hempty; cbn; lia).
    rewrite Hempty, Hmax. reflexivity.
Qed.

End WithPlatform.
End ClearProps.

(* ===================================================================== *)
(** ** The DOM check of the memory guard *)
(* ===================================================================== *)

Module GuardProps.
Import Stdlib.Strings.Ascii LogSpec TextSpec.

Lemma has_char_app (c : Ascii.ascii) (a b : string) :
  has_char c (a +:+ b) = has_char c a || has_char c b.
Proof.
  induction a as [|x a IH]; [reflexivity|].
  simpl. rewrite IH, orb_assoc. reflexivity.
Qed.

Lemma includes_has_char (s sub : string) (c : Ascii.ascii) :
  includes s sub = true -> has_char c sub = true -> has_char c s = true.
Proof.
  intros Hin Hc. apply includes_spec in Hin. destruct Hin as (pre & post & ->).
  rewrite !has_char_app, Hc, orb_true_r. reflexivity.
Qed.

Lemma pretty_N_char_numeral (x : N) : numeral_char (pretty_N_char x) = true.
Proof. unfold pretty_N_char. repeat case_match; reflexivity. Qed.

Lemma pretty_N_go_chars (c : Ascii.ascii) (x : N) (s : string) :
  has_char c (pretty_N_go x s) = true -> numeral_char c = true \/ has_char c s = true.
Proof.
  revert s. induction (N.lt_wf_0 x) as [x _ IH]; intros s Hc.
  destruct (N.eq_dec x 0%N) as [->|Hx].
  - rewrite pretty_N_go_0 in Hc. right. exact Hc.
  - rewrite pretty_N_go_step in Hc by lia.
    apply IH in Hc; [|apply N.div_lt; lia].
    destruct Hc as [Hc|Hc]; [left; exact Hc|].
    cbn [has_char] in Hc. apply orb_true_iff in Hc. destruct Hc as [Hc|Hc].
    + apply Ascii.eqb_eq in Hc. subst c. left. apply pretty_N_char_numeral.
    + right. exact Hc.
Qed.

Lemma pretty_N_chars (c : Ascii.ascii) (x : N) :
  has_char c (pretty x) = true -> numeral_char c = true.
Proof.
  unfold pretty, pretty_N. destruct (decide (x = 0%N)).
  - intros Hc. cbn in Hc. rewrite orb_false_r in Hc. apply Ascii.eqb_eq in Hc.
    subst c. reflexivity.
  - intros Hc. apply pretty_N_go_chars in Hc. destruct Hc as [Hc|Hc]; [exact Hc|].
    discriminate.
Qed.

Lemma pretty_Z_chars (c : Ascii.ascii) (x : Z) :
  has_char c (pretty x) = true -> numeral_char c = true.
Proof.
  destruct x as [|p|p]; unfold pretty, pretty_Z, pretty_positive.
  - intros Hc. cbn in Hc. rewrite orb_false_r in Hc. apply Ascii.eqb_eq in Hc.
    subst c. reflexivity.
  - apply pretty_N_chars.
  - rewrite has_char_app. intros Hc. apply orb_true_iff in Hc.
    destruct Hc as [Hc|Hc]; [|exact (pretty_N_chars _ _ Hc)].
    cbn in Hc. rewrite orb_false_r in Hc. apply Ascii.eqb_eq in Hc. subst c. reflexivity.
Qed.

(** The warning's message has none of the characters [f], [w], [m], [J]. *)
Lemma dom_warning_message_chars (c : Ascii.ascii) (total : nat) (maxDomNodes : Z) :
  numeral_char c = false ->
  has_char c "DOM node count exceeds threshold:  / " = false ->
  has_char c ("DOM node count exceeds threshold: " +:+ pretty total
              +:+ " / " +:+ pretty maxDomNodes) = false.
Proof.
  intros Hnum Hfixed.
  apply not_true_is_false. intros Hc.
  rewrite !has_char_app in Hc.
  change "DOM node count exceeds threshold:  / "%string
    with ("DOM node count exceeds threshold: " +:+ " / ")%string in Hfixed.
  rewrite has_char_app in Hfixed.
  apply orb_false_iff in Hfixed. destruct Hfixed as [H1 H2].
  rewrite H1, H2 in Hc. cbn [orb] in Hc.
  apply orb_true_iff in Hc. destruct Hc as [Hc|Hc].
  - apply (pretty_N_chars c (N.of_nat total)) in Hc. congruence.
  - apply pretty_Z_chars in Hc. congruence.
Qed.

Lemma dom_warning_message_excludes (sub : string) (c : Ascii.ascii)
      (total : nat) (maxDomNodes : Z) :
  has_char c sub = true ->
  numeral_char c = false ->
  has_char c "DOM node count exceeds threshold:  / " = false ->
  includes ("DOM node count exceeds threshold: " +:+ pretty total
            +:+ " / " +:+ pretty maxDomNodes) sub = false.
Proof.
  intros Hsub Hnum Hfixed. apply not_true_is_false. intros Hin.
  apply (includes_has_char _ _ c) in Hin; [|exact Hsub].
  rewrite dom_warning_message_chars in Hin by assumption. discriminate.
Qed.

Section WithPlatform.
Context {P : Platform}.

(** X29. The check of the DOM node count always announces the counts with
    a 'dom-monitor' event; it logs, and dispatches 'dom-warning', exactly
    when the total exceeds [maxDomNodes].  The record it logs, under
    'memory-guard', is classified [GENERAL_ERROR] by the log, for every
    count and every integer threshold, although the registry's classifier
    maps the same error to [RESOURCE_ERROR]. *)
Theorem dom_warning_is_logged_as_general_error
        (maxDomNodes : Z) (total element text : nat) (w : World)
        (events : list MemoryGuard.WindowEvent) :
  let check := MemoryGuard.checkDomNodes maxDomNodes (Some (total, element, text)) in
  let domInfo :=
    MemoryGuard.DomInfo_json
      (MemoryGuard.mkDomInfo total element text
         (Z.of_nat total - Z.of_nat element - Z.of_nat text)) in
  let error :=
    new_Error ("DOM node count exceeds threshold: " +:+ pretty total
               +:+ " / " +:+ pretty maxDomNodes) in
  outcome check (w, events) = Ret tt
  /\ (Z.of_nat total <= maxDomNodes ->
      after check (w, events) = (w, events ++ [("dom-monitor"%string, domInfo)]))
  /\ (maxDomNodes < Z.of_nat total ->
      after check (w, events)
      = (after (ExceptionLogger.log (VError error) "memory-guard" (InfoOther domInfo)) w,
         events ++ [("dom-monitor"%string, domInfo); ("dom-warning"%string, domInfo)]))
  /\ LogEntry.type (new_entry w (VError error) "memory-guard" (InfoOther domInfo))
     = GENERAL_ERROR
  /\ Classifier.mapErrorToExceptionType error = RESOURCE_ERROR.
Proof.
  cbv zeta.
  set (domInfo := MemoryGuard.DomInfo_json _).
  set (msg := ("DOM node count exceeds threshold: " +:+ pretty total
               +:+ " / " +:+ pretty maxDomNodes)%string).
  assert (Hfetch : includes msg "fetch" = false)
    by (apply (dom_warning_message_excludes _ "f"%char); reflexivity).
  assert (Hnetwork : includes msg "network" = false)
    by (apply (dom_warning_message_excludes _ "w"%char); reflexivity).
  assert (Htimeout : includes msg "timeout" = false)
    by (apply (dom_warning_message_excludes _ "m"%char); reflexivity).
  assert (Hjson : includes msg "JSON" = false)
    by (apply (dom_warning_message_excludes _ "J"%char); reflexivity).
  assert (Hdom : includes msg "DOM" = true).
  { apply includes_spec. exists ""%string. eexists. subst msg. reflexivity. }
  assert (Hrun : MemoryGuard.checkDomNodes maxDomNodes (Some (total, element, text))
                   (w, events)
                 = if maxDomNodes <? Z.of_nat total
                   then (Ret tt,
                         (after (ExceptionLogger.log (VError (new_Error msg)) "memory-guard"
                                   (InfoOther domInfo)) w,
                          events ++ [("dom-monitor"%string, domInfo);
                                     ("dom-warning"%string, domInfo)]))
                   else (Ret tt, (w, events ++ [("dom-monitor"%string, domInfo)]))).
  { unfold MemoryGuard.checkDomNodes, MemoryGuard.dispatchDomEvent,
      MemoryGuard.handleDomWarning, MemoryGuard.dispatchEvent, MemoryGuard.in_page.
    cbn [MemoryGuard.totalNodes]. fold domInfo. fold msg.
    unfold bind, modify, ret. cbn [fst snd].
    destruct (maxDomNodes <? Z.of_nat total); [|reflexivity].
    rewrite LogProps.log_run. cbn [fst snd]. rewrite <- app_assoc. reflexivity. }
  unfold outcome, after. rewrite Hrun. clearbody msg domInfo.
  split; [|split; [|split; [|split]]].
  - destruct (maxDomNodes <? Z.of_nat total); reflexivity.
  - intros Hle. replace (maxDomNodes <? Z.of_nat total) with false
      by (symmetry; apply Z.ltb_ge; lia). reflexivity.
  - intros Hlt. replace (maxDomNodes <? Z.of_nat total) with true
      by (symmetry; apply Z.ltb_lt; lia). reflexivity.
  - unfold new_entry. cbn [LogEntry.type].
    unfold Classifier.determineExceptionType, new_Error. cbn [name message].
    rewrite Hfetch, Hnetwork, Htimeout, Hjson. reflexivity.
  - unfold Classifier.mapErrorToExceptionType, new_Error. cbn [name message].
    rewrite Hfetch, Hnetwork, Htimeout, Hjson, Hdom, orb_true_r. reflexivity.
Qed.

End WithPlatform.
End GuardProps.

(* ===================================================================== *)
(** ** The further properties at concrete inputs *)
(* ===================================================================== *)

Lemma log_newest_is_last_witness :
  exists entry,
    last (logEntries (after (ExceptionLogger.log (P:=rejecting_platform)
                               (VError (new_Error "boom")) "test" InfoNone)
                            initial_world)) = Some entry
    /\ LogEntry.id entry = "0"%string.
Proof.
  destruct (LogMore.log_newest_is_last (P:=rejecting_platform)
              (VError (new_Error "boom")) "test" InfoNone initial_world
              ltac:(cbn; lia))
    as (entry & Hlast & _ & _ & Hid & _).
  exists entry. split; [exact Hlast|exact Hid].
Defined.

Lemma environment_snapshot_is_shared_witness :
  environmentInfo
    (after (LogSpec.log_all (P:=rejecting_platform)
              [(VError (new_Error "boom"), "test"%string, InfoNone)]) initial_world)
  = Some (EnvSnapshot example_environment).
Proof.
  pose proof (LogMore.environment_snapshot_is_shared (P:=rejecting_platform)
                [(VError (new_Error "boom"), "test"%string, InfoNone)] initial_world
                eq_refl) as H.
  cbv zeta in H. destruct H as [_ H]. apply H. discriminate.
Defined.

Lemma buffer_is_tail_of_announcements_witness :
  length (dispatched (after (LogSpec.log_all (P:=rejecting_platform) booms) initial_world))
  = 1001%nat
  /\ logEntries (after (LogSpec.log_all (P:=rejecting_platform) booms) initial_world)
     = LogSpec.keep_last 1000
         (dispatched (after (LogSpec.log_all (P:=rejecting_platform) booms) initial_world)).
Proof.
  pose proof (LogMore.buffer_is_tail_of_announcements (P:=rejecting_platform)
                booms initial_world eq_refl eq_refl eq_refl) as H.
  cbv zeta in H. destruct H as [H _]. exact (H eq_refl).
Defined.

Lemma log_never_records_resource_error_witness :
  (RESOURCE_ERROR, 0%nat)
  ∈ Statistics.typeCounts
      (Statistics.getStatistics 0
         (after (LogSpec.log_all (P:=rejecting_platform)
                   [(VError (new_Error "out of memory"), "test"%string, InfoNone)])
                initial_world)).
Proof.
  pose proof (LogMore.log_never_records_resource_error (P:=rejecting_platform)
                [(VError (new_Error "out of memory"), "test"%string, InfoNone)]
                initial_world 0
                (fun e He => match not_elem_of_nil e He with end)) as H.
  cbv zeta in H. destruct H as [_ H]. exact H.
Defined.

Lemma wrapped_call_throwing_nullish_witness :
  exists message,
    Wrappers.wrapSync (P:=rejecting_platform) (A:=unit) (fun _ => throw VNull) None []
      initial_world
    = (Throw (VError (new_TypeError message)), initial_world)
    /\ Wrappers.wrapAsync (P:=rejecting_platform) (A:=unit) (fun _ => throw VNull) None []
         initial_world
       = (Throw (VError (new_TypeError message)), initial_world).
Proof.
  exact (WrapperProps.wrapped_call_throwing_nullish (P:=rejecting_platform) (A:=unit)
           (fun _ => throw VNull) None [] initial_world initial_world VNull
           eq_refl eq_refl).
Defined.

Lemma error_center_mirrors_buffer_witness :
  ErrorCenterSpec.received 1000
    (dispatched (after (LogSpec.log_all (P:=rejecting_platform) booms) initial_world))
  = reverse (logEntries (after (LogSpec.log_all (P:=rejecting_platform) booms)
                               initial_world)).
Proof.
  exact (ErrorCenterProps.error_center_mirrors_buffer (P:=rejecting_platform)
           booms initial_world eq_refl eq_refl eq_refl).
Defined.

Lemma retries_stop_at_first_success_witness :
  outcome (SafeFetch.fetch (P:=recovering_platform) "https://api.example.com/test"
             retry_once) initial_world
  = Ret {| SafeFetchResponse.data := Some (JObj [("ok"%string, JBool true)]);
           SafeFetchResponse.error := None;
           SafeFetchResponse.status := Some 200;
           SafeFetchResponse.headers := Some [("content-type", "application/json")]%string |}
  /\ network (after (SafeFetch.fetch (P:=recovering_platform)
                       "https://api.example.com/test" retry_once) initial_world)
     = [Call (mkRequest "https://api.example.com/test" None); Delay (Some 1000);
        Call (mkRequest "https://api.example.com/test" None)].
Proof.
  assert (Hfail : forall j, (j < 1)%nat ->
            FetchSpec.fails
              (global_fetch (Platform:=recovering_platform) (0 + j)
                 (mkRequest "https://api.example.com/test" None)) = true)
    by (intros [|j] Hj; [reflexivity|lia]).
  pose proof (FetchMore.retries_stop_at_first_success (P:=recovering_platform)
                "https://api.example.com/test" retry_once initial_world 1 1000 1
                (Response.mk 200 [("content-type", "application/json")]%string
                   (inr (JObj [("ok"%string, JBool true)])))
                (JObj [("ok"%string, JBool true)])
                eq_refl eq_refl ltac:(cbn; lia) Hfail
                eq_refl eq_refl eq_refl) as H.
  cbv zeta in H. destruct H as (Hout & Hnet & _). split; [exact Hout|exact Hnet].
Defined.

Lemma only_thrown_failures_are_logged_witness :
  written (after (SafeFetch.fetch (P:=flaky_platform) "https://api.example.com/test"
                    retry_once) initial_world)
  = 1%nat.
Proof.
  assert (Hfail : forall n,
            FetchSpec.fails
              (global_fetch (Platform:=flaky_platform) n
                 (mkRequest "https://api.example.com/test" None)) = true)
    by (intros [|n]; reflexivity).
  pose proof (FetchMore.only_thrown_failures_are_logged (P:=flaky_platform)
                "https://api.example.com/test" retry_once initial_world 1
                eq_refl ltac:(lia) Hfail eq_refl) as H.
  cbv zeta in H. destruct H as [H _]. exact H.
Defined.

Lemma negative_retry_count_sends_nothing_witness :
  SafeFetch.fetch (P:=rejecting_platform) "https://api.example.com/test" no_attempts
    initial_world
  = (Ret {| SafeFetchResponse.data := None;
            SafeFetchResponse.error := None;
            SafeFetchResponse.status := None;
            SafeFetchResponse.headers := None |}, initial_world).
Proof.
  pose proof (FetchMore.negative_retry_count_sends_nothing (P:=rejecting_platform)
                "https://api.example.com/test" no_attempts initial_world eq_refl) as H.
  cbv zeta in H. destruct H as [_ H]. exact (H eq_refl).
Defined.

Lemma total_backoff_of_a_failing_request_witness :
  FetchMoreSpec.total_delay
    (network (after (SafeFetch.fetch (P:=rejecting_platform)
                       "https://api.example.com/test" retry_twice) initial_world))
  = 3000.
Proof.
  exact (FetchMore.total_backoff_of_a_failing_request (P:=rejecting_platform)
           "https://api.example.com/test" retry_twice initial_world 2 1000
           eq_refl ltac:(lia) eq_refl (fun n => eq_refl)).
Defined.

Lemma client_wins_sends_again_witness :
  SafeFetch.handleConflict (P:=conflict_platform) "https://api.example.com/doc"
    (spread (defaultOptions initial_world) put_client_wins) conflict_response
    initial_world
  = (Ret None,
     FetchSpec.fetched_once (mkRequest "https://api.example.com/doc" (Some "{}"%string))
       initial_world).
Proof.
  exact (FetchMore.client_wins_sends_again (P:=conflict_platform)
           "https://api.example.com/doc"
           (spread (defaultOptions initial_world) put_client_wins) conflict_response
           initial_world server_document (Some client_document)
           eq_refl eq_refl (conj eq_refl eq_refl)).
Defined.

Lemma unresolved_conflict_is_a_failed_attempt_witness :
  SafeFetch.attempt_once (P:=conflict_platform) "https://api.example.com/doc"
    put_client_wins (spread (defaultOptions initial_world) put_client_wins)
    (initial_world, SafeFetch.mkLocals 0 None None None)
  = (Ret SafeFetch.Continue,
     (FetchSpec.fetched_once (mkRequest "https://api.example.com/doc" (Some "{}"%string))
        (FetchSpec.fetched_once
           (mkRequest "https://api.example.com/doc" (Some "{...}"%string)) initial_world),
      SafeFetch.set_lastError (SafeFetch.http_error 409)
        (SafeFetch.set_lastResponse conflict_response
           (SafeFetch.mkLocals 0 None None None)))).
Proof.
  pose proof (FetchMore.unresolved_conflict_is_a_failed_attempt (P:=conflict_platform)
                "https://api.example.com/doc" put_client_wins
                (spread (defaultOptions initial_world) put_client_wins)
                initial_world (SafeFetch.mkLocals 0 None None None) conflict_response
                eq_refl eq_refl) as H.
  cbv zeta in H. destruct H as (_ & H & _).
  apply H; [exists client_wins; reflexivity|reflexivity].
Defined.

Lemma fallback_url_rescues_witness :
  outcome (SafeFetch.fetch (P:=recovering_platform) "https://api.example.com/test"
             no_retry_with_fallback) initial_world
  = Ret {| SafeFetchResponse.data := Some (JObj [("ok"%string, JBool true)]);
           SafeFetchResponse.error := None;
           SafeFetchResponse.status := Some 200;
           SafeFetchResponse.headers := Some [("content-type", "application/json")]%string |}
  /\ fetched (after (SafeFetch.fetch (P:=recovering_platform)
                       "https://api.example.com/test" no_retry_with_fallback)
                    initial_world) = 2%nat.
Proof.
  assert (Hfail : forall j, (j < Z.to_nat (0 + 1))%nat ->
            FetchSpec.fails
              (global_fetch (Platform:=recovering_platform) (0 + j)
                 (mkRequest "https://api.example.com/test" None)) = true)
    by (intros [|j] Hj; [reflexivity|cbn in Hj; lia]).
  pose proof (FetchMore.fallback_url_rescues (P:=recovering_platform)
                "https://api.example.com/test" no_retry_with_fallback initial_world 0
                (Response.mk 200 [("content-type", "application/json")]%string
                   (inr (JObj [("ok"%string, JBool true)])))
                (JObj [("ok"%string, JBool true)])
                eq_refl ltac:(lia) Hfail eq_refl eq_refl eq_refl eq_refl) as H.
  cbv zeta in H. destruct H as (Hout & Hf & _). split; [exact Hout|exact Hf].
Defined.
